(** * matmul_explainer: sign-class decomposition of matmul-like operations

    A shallow embedding of [matmul_explainer.py] and the properties of its
    classification, filtering, order-normalisation and summary code.

    Conventions of the embedding.
    - A floating-point value is an [fval]: an exact rational (a finite float,
      rounding left out) or [NaN].  Comparisons follow IEEE 754: every
      ordered comparison with [NaN] is false.  Infinities are not modelled.
    - An input tensor of a classify function is a [matrix] (list of rows).
    - A classification result of shape [value_shape + (T,)] is an [ndarray]:
      its last dimension [channels] and the list of its [positions]
      ([value_shape] flattened in C order), each position holding its row
      of [T] terms.  Each numpy operation with [axis=-1] acts on every
      position independently, so such code is embedded once for one position
      (suffix [_at] where the source function works on whole arrays) and
      mapped over the positions.
    - Python exceptions are the [Raise] results of the [result] monad.
    - [np.argsort] is an interface ([ArgSort]); its tie-breaking is left open
      and [stable_argsort] is one lawful instance used for evaluation. *)

From Stdlib Require Import String Ascii DecimalString.
From Stdlib Require Import ZArith QArith Qabs Qround Bool List.
From Stdlib Require Import Permutation Sorted Lia Lqa.
Import ListNotations.

Set Implicit Arguments.

(* ================================================================== *)
(** ** Floating-point values *)

(** A float is a finite number, held as the rational it stands for, or
    NaN; arithmetic on numbers is exact.  Infinities are not represented:
    [is_num] below reads "finite", and every statement that asks for numbers
    speaks of inputs without NaN and without infinities. *)
Inductive fval : Type :=
| Num (q : Q)
| NaN.

Definition is_nan (v : fval) : bool :=
  match v with NaN => true | Num _ => false end.

Definition Qltb (a b : Q) : bool := negb (Qle_bool b a).

Definition fadd (a b : fval) : fval :=
  match a, b with Num p, Num q => Num (p + q) | _, _ => NaN end.

Definition fsub (a b : fval) : fval :=
  match a, b with Num p, Num q => Num (p - q) | _, _ => NaN end.

Definition fmul (a b : fval) : fval :=
  match a, b with Num p, Num q => Num (p * q) | _, _ => NaN end.

(** Division; a zero divisor (an infinity or NaN in IEEE 754) gives [NaN]. *)
Definition fdiv (a b : fval) : fval :=
  match a, b with
  | Num p, Num q => if Qeq_bool q 0 then NaN else Num (p / q)
  | _, _ => NaN
  end.

Definition fneg (a : fval) : fval :=
  match a with Num p => Num (- p) | NaN => NaN end.

Definition fabs (a : fval) : fval :=
  match a with Num p => Num (Qabs p) | NaN => NaN end.

Definition feqb (a b : fval) : bool :=
  match a, b with Num p, Num q => Qeq_bool p q | _, _ => false end.

Definition fltb (a b : fval) : bool :=
  match a, b with Num p, Num q => Qltb p q | _, _ => false end.

Definition fleb (a b : fval) : bool :=
  match a, b with Num p, Num q => Qle_bool p q | _, _ => false end.

Definition fgtb (a b : fval) : bool := fltb b a.
Definition fgeb (a b : fval) : bool := fleb b a.

(** [np.maximum]: propagates NaN. *)
Definition fmaximum (a b : fval) : fval :=
  match a, b with
  | Num p, Num q => Num (if Qle_bool p q then q else p)
  | _, _ => NaN
  end.

(** Cast of a boolean to a float ([tf.cast(mask, tf.float32)], and the
    implicit cast in [array * bool_array]). *)
Definition of_bool (b : bool) : fval := Num (if b then 1 else 0).

(** The order used by sorting routines: numbers ascending, NaN last. *)
Definition fle_sort (a b : fval) : bool :=
  match a, b with
  | _, NaN => true
  | NaN, Num _ => false
  | Num p, Num q => Qle_bool p q
  end.

(** Numeric equality of two results ([==] of IEEE 754: NaN equals nothing). *)
Definition feq (a b : fval) : Prop :=
  match a, b with Num p, Num q => p == q | _, _ => False end.

(** [a <= b] on numbers; false when either side is NaN. *)
Definition fle (a b : fval) : Prop :=
  match a, b with Num p, Num q => p <= q | _, _ => False end.

Definition is_num (v : fval) : Prop :=
  match v with Num _ => True | NaN => False end.

(* ================================================================== *)
(** ** Exceptions *)

Inductive exn : Type :=
| ValueError
| TypeError
| InvalidArgumentError.

Inductive result (A : Type) : Type :=
| Ok (a : A)
| Raise (e : exn).

Arguments Ok {A} a.
Arguments Raise {A} e.

Definition bind {A B : Type} (c : result A) (k : A -> result B) : result B :=
  match c with Ok a => k a | Raise e => Raise e end.

Notation "x <- c ;; k" := (bind c (fun x => k))
  (at level 61, c at next level, right associativity).
Notation "' p <- c ;; k" := (bind c (fun x => match x with p => k end))
  (at level 61, p pattern, c at next level, right associativity).

Fixpoint sequence {A : Type} (l : list (result A)) : result (list A) :=
  match l with
  | [] => Ok []
  | c :: rest => a <- c ;; r <- sequence rest ;; Ok (a :: r)
  end.

(* ================================================================== *)
(** ** Arrays *)

Definition matrix (A : Type) : Type := list (list A).

(** An array of shape [value_shape + (channels,)], held as the list of
    its positions in C order, each with its terms; how the positions are
    laid out over the value axes is not kept. *)
Record ndarray (A : Type) : Type := mk_ndarray {
  channels : nat;
  positions : list (list A)
}.

Fixpoint zip_with {A B C : Type} (f : A -> B -> C) (a : list A) (b : list B) : list C :=
  match a, b with
  | x :: a', y :: b' => f x y :: zip_with f a' b'
  | _, _ => []
  end.

Definition map2d {A B : Type} (f : A -> B) (x : matrix A) : matrix B :=
  map (map f) x.

Definition zip2d {A B C : Type} (f : A -> B -> C) (x : matrix A) (y : matrix B) : matrix C :=
  zip_with (zip_with f) x y.

(** Element [i, j] of a matrix. *)
Definition at2 {A : Type} (x : matrix A) (i j : nat) : option A :=
  match nth_error x i with
  | Some row => nth_error row j
  | None => None
  end.

(** [np.argsort]: for a comparison [leb] and keys [l], the indices that
    sort [l] in ascending order. *)
Class ArgSort : Type :=
  argsort : forall K : Type, (K -> K -> bool) -> list K -> list nat.

Arguments argsort {ArgSort K} leb l.

(** What every implementation of [np.argsort] guarantees. *)
Class ArgSortSpec (AS : ArgSort) : Prop := {
  argsort_perm :
    forall (K : Type) (leb : K -> K -> bool) (l : list K),
      Permutation (argsort leb l) (seq 0 (length l));
  argsort_sorted :
    forall (K : Type) (leb : K -> K -> bool) (d : K) (l : list K),
      (forall a b, leb a b = true \/ leb b a = true) ->
      (forall a b c, leb a b = true -> leb b c = true -> leb a c = true) ->
      StronglySorted (fun a b => leb a b = true)
        (map (fun i => nth i l d) (argsort leb l))
}.

(** [np.take_along_axis(a, indices, axis=-1)] at one position. *)
Definition take_along_axis {A : Type} (d : A) (a : list A) (indices : list nat) : list A :=
  map (fun i => nth i a d) indices.

(** [np.flip(a, axis=-1)] at one position. *)
Definition np_flip {A : Type} (a : list A) : list A := rev a.

(** [np.sum] of a one-dimensional array. *)
Definition np_sum (a : list fval) : fval := fold_left fadd a (Num 0).

Fixpoint cumsum_from (acc : fval) (a : list fval) : list fval :=
  match a with
  | [] => []
  | v :: rest => let acc' := fadd acc v in acc' :: cumsum_from acc' rest
  end.

(** [np.cumsum(a, axis=-1)] at one position. *)
Definition np_cumsum (a : list fval) : list fval :=
  match a with
  | [] => []
  | v :: rest => v :: cumsum_from v rest
  end.

(** [np.max] of a one-dimensional array: fails on an empty array
    ("zero-size array to reduction operation maximum which has no identity"). *)
Definition np_max (a : list fval) : result fval :=
  match a with
  | [] => Raise ValueError
  | v :: rest => Ok (fold_left fmaximum rest v)
  end.

(** [np.minimum] and [np.min]. *)
Definition fminimum (a b : fval) : fval :=
  match a, b with
  | Num p, Num q => Num (if Qle_bool p q then p else q)
  | _, _ => NaN
  end.

Definition np_min (a : list fval) : result fval :=
  match a with
  | [] => Raise ValueError
  | v :: rest => Ok (fold_left fminimum rest v)
  end.

Section Classification.

Context {AS : ArgSort}.

(** [tf.sort], ascending. *)
Definition tf_sort (x : list fval) : list fval :=
  take_along_axis (Num 0) x (argsort fle_sort x).

Definition clip (i lo hi : Z) : Z := Z.min (Z.max i lo) hi.

(** Modelled from the spec: [tfp.stats.percentile(x, q,
    interpolation='midpoint')] over all elements is an external primitive
    ("percentile-with-midpoint-interpolation").  It sorts the values, takes
    the positions [floor] and [ceil] of [(d - 1) * q / 100] clipped to the
    index range, returns half the sum of the two values found there, and
    NaN as soon as one element is NaN. *)
Definition percentile (x : list fval) (q : Q) : result fval :=
  match x with
  | [] => Raise InvalidArgumentError
  | _ :: _ =>
      let sorted_y := tf_sort x in
      let d := Z.of_nat (length x) in
      let frac_at_q_or_below := (q / 100)%Q in
      let target := (inject_Z (d - 1) * frac_at_q_or_below)%Q in
      let get_indices (i : Z) := Z.to_nat (clip i 0 (d - 1)) in
      let lower := nth (get_indices (Qfloor target)) sorted_y NaN in
      let higher := nth (get_indices (Qceiling target)) sorted_y NaN in
      let gathered_y := fmul (Num (1 # 2)) (fadd lower higher) in
      Ok (if existsb is_nan x then NaN else gathered_y)
  end.

(** Elementwise TensorFlow operations. *)
Definition tf_abs (x : matrix fval) : matrix fval := map2d fabs x.
Definition tf_equal (x : matrix fval) (c : fval) : matrix bool := map2d (fun v => feqb v c) x.
Definition tf_less (x : matrix fval) (c : fval) : matrix bool := map2d (fun v => fltb v c) x.
Definition tf_greater (x : matrix fval) (c : fval) : matrix bool := map2d (fun v => fgtb v c) x.
Definition tf_logical_or (a b : matrix bool) : matrix bool := zip2d orb a b.
Definition tf_logical_and (a b : matrix bool) : matrix bool := zip2d andb a b.
Definition tf_logical_not (a : matrix bool) : matrix bool := map2d negb a.
Definition tf_cast (a : matrix bool) : matrix fval := map2d of_bool a.

(** [tf.where(mask, x, tf.zeros_like(x))]. *)
Definition tf_where (mask : matrix bool) (x : matrix fval) : matrix fval :=
  zip2d (fun (m : bool) v => if m then v else Num 0) mask x.

Definition classification_mask (x : matrix fval) (confidence : Q) (threshold : option fval)
  : result (matrix bool * matrix bool * matrix bool * fval) :=
  (* determine threshold *)
  threshold <- match threshold with
               | None => percentile (concat (tf_abs x)) (100 * (1 - confidence))%Q
               | Some t => Ok t
               end ;;
  (* apply threshold *)
  let zero_mask := tf_logical_or (tf_equal x (Num 0)) (tf_less (tf_abs x) threshold) in
  let pos_mask := tf_logical_and (tf_greater x (Num 0)) (tf_logical_not zero_mask) in
  let neg_mask := tf_logical_and (tf_less x (Num 0)) (tf_logical_not zero_mask) in
  Ok (pos_mask, zero_mask, neg_mask, threshold).

(** The values the [thresholds] argument can take: [None], a bare float,
    or a sequence whose elements are floats or [None]. *)
Inductive thresholds_arg : Type :=
| ThNone
| ThFloat (t : fval)
| ThSeq (l : list (option fval)).

(** [t1, t2 = thresholds] unpacks a sequence of length two, raises
    [ValueError] for any other length (caught and raised again with a
    message) and [TypeError], which nothing catches, for a float. *)
Definition _parse_thresholds_arg (thresholds : thresholds_arg)
  : result (option fval * option fval) :=
  match thresholds with
  | ThNone => Ok (None, None)
  | ThSeq [t1; t2] => Ok (t1, t2)
  | ThSeq _ => Raise ValueError
  | ThFloat _ => Raise TypeError
  end.

(** [tf.linalg.matmul] and what it is made of. *)
Definition num_cols {A : Type} (y : matrix A) : nat :=
  match y with [] => 0%nat | r :: _ => length r end.

Definition rectangular {A : Type} (m : nat) (y : matrix A) : bool :=
  forallb (fun r => Nat.eqb (length r) m) y.

Definition column (y : matrix fval) (j : nat) : list fval :=
  map (fun r => nth j r (Num 0)) y.

Definition dot (a b : list fval) : fval := np_sum (zip_with fmul a b).

Definition tf_matmul (x y : matrix fval) : result (matrix fval) :=
  let k := length y in
  let m := num_cols y in
  if rectangular k x && rectangular m y
  then Ok (map (fun xr => map (fun j => dot xr (column y j)) (seq 0 m)) x)
  else Raise InvalidArgumentError.

(** Two matrices of the same shape. *)
Definition same_shape {A B : Type} (x : matrix A) (y : matrix B) : bool :=
  Nat.eqb (length x) (length y)
  && forallb (fun p => Nat.eqb (length (fst p)) (length (snd p))) (combine x y).

(** Broadcasting of one dimension: the two sizes are equal, or one of
    them is 1. *)
Definition broadcast_dim (n m : nat) : option nat :=
  if Nat.eqb n m then Some n
  else if Nat.eqb n 1 then Some m
  else if Nat.eqb m 1 then Some n
  else None.

(** An axis of size 1 stretched to size [n]; an axis of another size is
    kept. *)
Definition stretch {A : Type} (n : nat) (l : list A) : list A :=
  match l with
  | [a] => repeat a n
  | _ => l
  end.

Definition broadcast_to {A : Type} (x : matrix A) (r c : nat) : matrix A :=
  stretch r (map (stretch c) x).

(** The two operands brought to their common shape, when there is one. *)
Definition broadcast_arrays {A B : Type} (x : matrix A) (y : matrix B)
  : option (matrix A * matrix B) :=
  match broadcast_dim (length x) (length y), broadcast_dim (num_cols x) (num_cols y) with
  | Some r, Some c => Some (broadcast_to x r c, broadcast_to y r c)
  | _, _ => None
  end.

(** [tf.math.multiply]: the elementwise product of the two operands
    broadcast to their common shape; shapes that do not broadcast raise. *)
Definition tf_multiply (x y : matrix fval) : result (matrix fval) :=
  if rectangular (num_cols x) x && rectangular (num_cols y) y
  then match broadcast_arrays x y with
       | Some (xb, yb) => Ok (zip2d fmul xb yb)
       | None => Raise InvalidArgumentError
       end
  else Raise InvalidArgumentError.

(** [np.stack(arrays, axis=-1)] of equally shaped matrices. *)
Definition np_stack (arrays : list (matrix fval)) : ndarray fval :=
  let flats := map (@concat fval) arrays in
  let size := match flats with [] => 0%nat | a :: _ => length a end in
  mk_ndarray (length arrays)
    (map (fun p => map (fun a => nth p a (Num 0)) flats) (seq 0 size)).

(** The nine-term construction shared by the two-input classify functions;
    [op] is the underlying operation.  The result is the pair [(counts,
    sums)] of [return_thresholds=False], together with the two thresholds
    the masks were made with.  (With [return_thresholds=True] the code
    hands these out through [.numpy()], which a derived threshold has and
    an explicit Python float has not.) *)
Definition classify_with (op : matrix fval -> matrix fval -> result (matrix fval))
  (x y : matrix fval) (confidence : Q) (thresholds : thresholds_arg)
  : result (ndarray fval * ndarray fval * (fval * fval)) :=
  (* apply thresholds and create masks *)
  '(x_threshold, y_threshold) <- _parse_thresholds_arg thresholds ;;
  '(x_p, x_z, x_n, x_threshold) <- classification_mask x confidence x_threshold ;;
  '(y_p, y_z, y_n, y_threshold) <- classification_mask y confidence y_threshold ;;
  (* compute counts *)
  let x_pc := tf_cast x_p in
  let x_zc := tf_cast x_z in
  let x_nc := tf_cast x_n in
  let y_pc := tf_cast y_p in
  let y_zc := tf_cast y_z in
  let y_nc := tf_cast y_n in
  counts <- sequence [op x_pc y_pc; op x_pc y_zc; op x_pc y_nc;
                      op x_zc y_pc; op x_zc y_zc; op x_zc y_nc;
                      op x_nc y_pc; op x_nc y_zc; op x_nc y_nc] ;;
  let x_pv := tf_where x_p x in
  let x_zv := tf_where x_z x in
  let x_nv := tf_where x_n x in
  let y_pv := tf_where y_p y in
  let y_zv := tf_where y_z y in
  let y_nv := tf_where y_n y in
  sums <- sequence [op x_pv y_pv; op x_pv y_zv; op x_pv y_nv;
                    op x_zv y_pv; op x_zv y_zv; op x_zv y_nv;
                    op x_nv y_pv; op x_nv y_zv; op x_nv y_nv] ;;
  (* format into final output *)
  Ok (np_stack counts, np_stack sums, (x_threshold, y_threshold)).

Definition matmul_classify := classify_with tf_matmul.

Definition multiply_classify := classify_with tf_multiply.

Definition tensor_classify (x : matrix fval) (confidence : Q) (threshold : option fval)
  : result (ndarray fval * ndarray fval * fval) :=
  '(x_p, x_z, x_n, threshold) <- classification_mask x confidence threshold ;;
  let counts := [tf_cast x_p; tf_cast x_z; tf_cast x_n] in
  let sums := [tf_where x_p x; tf_where x_z x; tf_where x_n x] in
  Ok (np_stack counts, np_stack sums, threshold).

End Classification.

(* ================================================================== *)
(** ** Tensors of any rank: contraction, convolution and its filter gradient *)

(** A tensor: its shape and its elements in C order. *)
Record tensor : Type := mk_tensor {
  shape : list nat;
  values : list fval
}.

(** Modelled from the spec: [tf.tensordot], [tf.nn.convolution] and
    [conv_tools.conv_backprop_filter] (a module of the repository that
    is not among the sources) are primitives of the tensor runtime,
    "black-box numeric primitives with well-known mathematical semantics":
    every element of the result is a sum of products of one element of the
    first operand and one element of the second, its "multiply-accumulate
    pairs".  Which pairs make up which element, and the shape of the result,
    follow from the shapes of the operands and the parameters of the
    operation (the contracted axes; strides and padding; the kernel
    shape); padding with zeros leaves pairs out; shapes that do not fit
    raise.  A [mac_layout] is this index structure: for the shapes of the
    operands, the shape of the result and, for each of its elements in C
    order, the pairs of positions in the two operands. *)
Definition mac_layout : Type :=
  list nat -> list nat -> option (list nat * list (list (nat * nat))).

Definition multiply_accumulate (layout : mac_layout) (a b : tensor) : result tensor :=
  match layout (shape a) (shape b) with
  | Some (out_shape, pairs) =>
      Ok (mk_tensor out_shape
            (map (fun ps => dot (map (fun p => nth (fst p) (values a) (Num 0)) ps)
                                (map (fun p => nth (snd p) (values b) (Num 0)) ps))
                 pairs))
  | None => Raise InvalidArgumentError
  end.

(** The [axes] argument of [tf.tensordot]: a scalar or two lists of axes. *)
Inductive axes_arg : Type :=
| AxesInt (n : Z)
| AxesLists (a_axes b_axes : list Z).

(** The [strides] argument of a convolution: an int or a list of ints. *)
Inductive strides_arg : Type :=
| StridesInt (s : Z)
| StridesList (l : list Z).

Section TensorVariants.

Context {AS : ArgSort}.

Variable tensordot_layout : axes_arg -> mac_layout.
Variable convolution_layout : strides_arg -> string -> mac_layout.
Variable conv_backprop_filter_layout : list nat -> strides_arg -> string -> mac_layout.

Definition tf_tensordot (a b : tensor) (axes : axes_arg) : result tensor :=
  multiply_accumulate (tensordot_layout axes) a b.

Definition tf_nn_convolution (input filters : tensor) (strides : strides_arg)
  (padding : string) : result tensor :=
  multiply_accumulate (convolution_layout strides padding) input filters.

Definition ct_conv_backprop_filter (x d_out : tensor) (kernel_shape : list nat)
  (strides : strides_arg) (padding : string) : result tensor :=
  multiply_accumulate (conv_backprop_filter_layout kernel_shape strides padding) x d_out.

(** The nine-term construction on tensors of any rank.  The class of an
    element does not depend on the shape of its tensor (the comparisons
    are elementwise, the percentile is taken over all elements), so the
    masks are made on the row of the elements; [op] is applied to tensors
    of the shapes of [x] and [y], and [np.stack] puts the nine results
    side by side, element by element. *)
Definition classify_tensors (op : tensor -> tensor -> result tensor) (x y : tensor)
  (confidence : Q) (thresholds : thresholds_arg)
  : result (ndarray fval * ndarray fval * (fval * fval)) :=
  classify_with
    (fun a b => r <- op (mk_tensor (shape x) (concat a)) (mk_tensor (shape y) (concat b)) ;;
                Ok [values r])
    [values x] [values y] confidence thresholds.

Definition tensordot_classify (x y : tensor) (axes : axes_arg) (confidence : Q)
  (thresholds : thresholds_arg) :=
  classify_tensors (fun a b => tf_tensordot a b axes) x y confidence thresholds.

Definition conv_classify (inputs kernel : tensor) (strides : strides_arg) (padding : string)
  (confidence : Q) (thresholds : thresholds_arg) :=
  classify_tensors (fun a b => tf_nn_convolution a b strides padding)
    inputs kernel confidence thresholds.

Definition conv_backprop_filter_classify (x d_out : tensor) (kernel_shape : list nat)
  (strides : strides_arg) (padding : string) (confidence : Q) (thresholds : thresholds_arg) :=
  classify_tensors (fun a b => ct_conv_backprop_filter a b kernel_shape strides padding)
    x d_out confidence thresholds.

End TensorVariants.

(* ================================================================== *)
(** ** A lawful [np.argsort]: stable insertion sort on (index, key) pairs *)

Fixpoint insert_by {K : Type} (leb : K -> K -> bool) (p : nat * K) (sorted : list (nat * K))
  : list (nat * K) :=
  match sorted with
  | [] => [p]
  | r :: rest =>
      if leb (snd p) (snd r) then p :: sorted else r :: insert_by leb p rest
  end.

Definition stable_argsort : ArgSort :=
  fun K leb l => map fst (fold_right (insert_by leb) [] (combine (seq 0 (length l)) l)).

(* ================================================================== *)
(** ** Terms *)

Definition terms_one_tensor : list string := ["P"; "Z"; "N"]%string.

Definition terms_two_tensors : list string :=
  ["PP"; "PZ"; "PN"; "ZP"; "ZZ"; "ZN"; "NP"; "NZ"; "NN"]%string.

(** [classify_terms(example)], [retain_shape=False]. *)
Definition classify_terms {A : Type} (example : option (ndarray A)) : result (list string) :=
  tensor_count <- match example with
                  | None => Ok 2%nat
                  | Some e =>
                      if Nat.eqb (channels e) 3 then Ok 1%nat
                      else if Nat.eqb (channels e) 9 then Ok 2%nat
                      else Raise ValueError
                  end ;;
  Ok (if Nat.eqb tensor_count 1 then terms_one_tensor else terms_two_tensors).

(** [classify_terms(example, retain_shape=True)]: the term list tiled over
    the value shape of the example. *)
Definition classify_terms_retain_shape {A : Type} (example : option (ndarray A))
  : result (ndarray string) :=
  term_list <- classify_terms example ;;
  match example with
  | None => Raise ValueError
  | Some e => Ok (mk_ndarray (length term_list) (map (fun _ => term_list) (positions e)))
  end.

(** [a * m] for a float array [a] and a boolean array [m]. *)
Definition mul_mask (a : list fval) (m : list bool) : list fval :=
  zip_with (fun v (b : bool) => fmul v (of_bool b)) a m.

(** [a.shape == b.shape] as far as the flattened arrays show it: the same
    number of terms and the same number of positions.  Arrays of one shape
    pass; so do arrays that hold the same number of positions laid out over
    different value axes, which the code tells apart. *)
Definition same_nd_shape {A B : Type} (a : ndarray A) (b : ndarray B) : bool :=
  Nat.eqb (channels a) (channels b)
  && Nat.eqb (length (positions a)) (length (positions b)).

Section Pipeline.

Context {AS : ArgSort}.

(* ------------------------------------------------------------------ *)
(** ** Coverage filter *)

Definition _partial_filter_by_sum (counts sums : list fval) (terms : list string)
  (masks : list bool) (completeness : Q)
  : list fval * list fval * list string * list bool :=
  (* determine thresholds against sums *)
  let pos_range := np_sum (mul_mask sums (map (fun s => fgtb s (Num 0)) sums)) in
  let neg_range := fabs (np_sum (mul_mask sums (map (fun s => fltb s (Num 0)) sums))) in
  let abs_range := fmaximum pos_range neg_range in
  let threshold := fmul abs_range (Num (1 - completeness)) in
  (* sort everything according to sum magnitudes, smallest first for cumsum *)
  let sort_order := argsort fle_sort (map fabs sums) in
  let counts := take_along_axis (Num 0) counts sort_order in
  let sums := take_along_axis (Num 0) sums sort_order in
  let terms := take_along_axis EmptyString terms sort_order in
  let masks := take_along_axis false masks sort_order in
  (* update masks *)
  let pos_margin_sums := np_cumsum (mul_mask sums (map (fun s => fgtb s (Num 0)) sums)) in
  let neg_margin_sums := np_cumsum (mul_mask sums (map (fun s => fltb s (Num 0)) sums)) in
  let mag_margin_sums := zip_with fmaximum pos_margin_sums (map fabs neg_margin_sums) in
  let threshold_mask := map (fun m => fgeb m threshold) mag_margin_sums in
  let masks := zip_with orb threshold_mask masks in
  (* flip final results for largest-to-smallest order *)
  (np_flip counts, np_flip sums, np_flip terms, np_flip masks).

Definition _partial_filter_by_count (counts sums : list fval) (terms : list string)
  (masks : list bool) (completeness : Q)
  : list fval * list fval * list string * list bool :=
  (* determine thresholds against counts *)
  let threshold := fmul (np_sum counts) (Num (1 - completeness)) in
  (* sort everything according to counts, smallest first for cumsum *)
  let sort_order := argsort fle_sort counts in
  let counts := take_along_axis (Num 0) counts sort_order in
  let sums := take_along_axis (Num 0) sums sort_order in
  let terms := take_along_axis EmptyString terms sort_order in
  let masks := take_along_axis false masks sort_order in
  (* update masks *)
  let margin_counts := np_cumsum counts in
  let threshold_mask := map (fun m => fgeb m threshold) margin_counts in
  let masks := zip_with orb threshold_mask masks in
  (* flip final results for largest-to-smallest order *)
  (np_flip counts, np_flip sums, np_flip terms, np_flip masks).

(** The two filter phases at one position: the arrays as they stand before
    the masks are applied. *)
Definition filter_phases_at (counts sums : list fval) (terms : list string) (completeness : Q)
  : list fval * list fval * list string * list bool :=
  let masks := repeat false (length counts) in
  let '(counts, sums, terms, masks) :=
    _partial_filter_by_sum counts sums terms masks completeness in
  _partial_filter_by_count counts sums terms masks completeness.

(** [filter_classifications] at one position, [terms] being the row of
    [classify_terms(counts, retain_shape=True)]. *)
Definition filter_classifications_at (counts sums : list fval) (terms : list string)
  (completeness : Q) : list fval * list fval * list string :=
  let '(counts, sums, terms, masks) := filter_phases_at counts sums terms completeness in
  (* apply masks - zero-out discarded counts and sums *)
  let counts := mul_mask counts masks in
  let sums := mul_mask sums masks in
  (* apply final sorting - by descending count after masking *)
  let sort_order := argsort fle_sort (map fneg counts) in
  let counts := take_along_axis (Num 0) counts sort_order in
  let sums := take_along_axis (Num 0) sums sort_order in
  let terms := take_along_axis EmptyString terms sort_order in
  (counts, sums, terms).

Fixpoint zip3 {A B C : Type} (a : list A) (b : list B) (c : list C) : list (A * B * C) :=
  match a, b, c with
  | x :: a', y :: b', z :: c' => (x, y, z) :: zip3 a' b' c'
  | _, _, _ => []
  end.

(** [filter_classifications(counts, sums, completeness)] for counts and
    sums of one shape, position by position.  The code has no shape check
    of its own: on arrays of different shapes numpy broadcasts where it
    can and raises where it cannot; this is not followed here, where such
    arguments raise. *)
Definition filter_classifications (counts sums : ndarray fval) (completeness : Q)
  : result (ndarray fval * ndarray fval * ndarray string) :=
  terms <- classify_terms_retain_shape (Some counts) ;;
  if same_nd_shape counts sums then
    let rows := map (fun '(c, s, t) => filter_classifications_at c s t completeness)
                    (zip3 (positions counts) (positions sums) (positions terms)) in
    Ok (mk_ndarray (channels counts) (map (fun r => fst (fst r)) rows),
        mk_ndarray (channels sums) (map (fun r => snd (fst r)) rows),
        mk_ndarray (channels terms) (map (fun r => snd r) rows))
  else Raise ValueError.

(* ------------------------------------------------------------------ *)
(** ** Order normalisation *)

(** [_fixargsort(a, reference, axis=-1)] at one position. *)
Definition _fixargsort (a reference : list string) : list nat :=
  (* get meta-order from reference *)
  let ref_meta_order := argsort Nat.leb (argsort String.leb reference) in
  (* determine ordering of a *)
  let a_order := argsort String.leb a in
  take_along_axis 0%nat a_order ref_meta_order.

Definition _standardize_order (counts sums : ndarray fval) (terms : ndarray string)
  : result (ndarray fval * ndarray fval * ndarray string) :=
  (* sanity checks *)
  if negb (same_nd_shape counts sums) then Raise ValueError
  else if negb (same_nd_shape terms counts) then Raise ValueError
  else
    (* re-order *)
    terms_list <- classify_terms (Some counts) ;;
    let rows := map (fun '(c, s, t) =>
                       let sort_order := _fixargsort t terms_list in
                       (take_along_axis (Num 0) c sort_order,
                        take_along_axis (Num 0) s sort_order,
                        take_along_axis EmptyString t sort_order))
                    (zip3 (positions counts) (positions sums) (positions terms)) in
    Ok (mk_ndarray (channels counts) (map (fun r => fst (fst r)) rows),
        mk_ndarray (channels sums) (map (fun r => snd (fst r)) rows),
        mk_ndarray (channels terms) (map (fun r => snd r) rows)).

(** What [standardize] returns as its third component. *)
Inductive terms_out : Type :=
| TermsList (l : list string)
| TermsArray (t : ndarray string).

(** [a * mask[..., np.newaxis]]. *)
Definition mul_position_mask (a : ndarray fval) (mask : list bool) : ndarray fval :=
  mk_ndarray (channels a)
    (zip_with (fun row (m : bool) => map (fun v => fmul v (of_bool m)) row) (positions a) mask).

(** [standardize(counts, sums, terms, mask=mask,
    return_terms_as_list=...)]; a tuple passed as first argument is
    unpacked into these arguments first. *)
Definition standardize (counts sums : ndarray fval) (terms : option (ndarray string))
  (mask : option (list bool)) (return_terms_as_list : bool)
  : result (ndarray fval * ndarray fval * terms_out) :=
  (* sanity checks *)
  if negb (same_nd_shape counts sums) then Raise ValueError
  else if match terms with Some t => negb (same_nd_shape t counts) | None => false end
  then Raise ValueError
  else if match mask with
          | Some m => negb (Nat.eqb (length m) (length (positions counts)))
          | None => false
          end
  then Raise ValueError
  else
    (* cleanup order for consistent order by terms *)
    '(counts, sums, terms) <-
      match terms with
      | Some t =>
          '(c, s, t') <- _standardize_order counts sums t ;; Ok (c, s, Some t')
      | None =>
          if negb return_terms_as_list
          then t <- classify_terms_retain_shape (Some counts) ;; Ok (counts, sums, Some t)
          else Ok (counts, sums, None)
      end ;;
    terms_list <- classify_terms (Some counts) ;;
    (* apply mask *)
    let '(counts, sums) :=
      match mask with
      | Some m => (mul_position_mask counts m, mul_position_mask sums m)
      | None => (counts, sums)
      end in
    (* construct final terms result *)
    if return_terms_as_list then Ok (counts, sums, TermsList terms_list)
    else match terms with
         | Some t => Ok (counts, sums, TermsArray t)
         | None => Raise ValueError
         end.

End Pipeline.

(* ================================================================== *)
(** ** Number formatting *)

Definition string_of_nonneg (z : Z) : string :=
  NilZero.string_of_uint (N.to_uint (Z.to_N z)).

Fixpoint zeros (n : nat) : string :=
  match n with
  | O => EmptyString
  | S n' => String "0" (zeros n')
  end.

(** [s] filled up with leading zeros to [width] characters. *)
Definition zero_pad (width : nat) (s : string) : string :=
  (zeros (width - String.length s) ++ s)%string.

(** Rounding to the nearest integer, ties to even. *)
Definition round_half_even (x : Q) : Z :=
  let f := Qfloor x in
  match (x - inject_Z f ?= 1 # 2)%Q with
  | Lt => f
  | Gt => (f + 1)%Z
  | Eq => if Z.even f then f else (f + 1)%Z
  end.

(** [f"{value:.{p}f}"]. *)
Definition format_fixed (value : fval) (p : nat) : string :=
  match value with
  | NaN => "nan"%string
  | Num q =>
      let unit := (10 ^ Z.of_nat p)%Z in
      let r := round_half_even (Qabs q * inject_Z unit) in
      let sign := if Qltb q 0 then "-"%string else EmptyString in
      let int_part := string_of_nonneg (r / unit) in
      let frac_part := zero_pad p (string_of_nonneg (r mod unit)) in
      match p with
      | O => (sign ++ int_part)%string
      | S _ => (sign ++ int_part ++ "." ++ frac_part)%string
      end
  end.

Fixpoint strip_zeros (digits : list Z) : list Z :=
  match digits with
  | [] => []
  | d :: rest =>
      match strip_zeros rest with
      | [] => if Z.eqb d 0 then [] else [d]
      | rest' => d :: rest'
      end
  end.

Fixpoint frac_digits (fuel : nat) (x : Q) : list Z :=
  match fuel with
  | O => []
  | S fuel' =>
      let y := (x * 10)%Q in
      let d := Qfloor y in
      d :: frac_digits fuel' (y - inject_Z d)
  end.

(** [f"{value}"] of a float: the positional form ([1.0], [0.25]) that
    Python and numpy print for magnitudes between [1e-4] and [1e16]; an
    integral value prints with the fraction [.0]. *)
Definition str_float (value : fval) : string :=
  match value with
  | NaN => "nan"%string
  | Num q =>
      let sign := if Qltb q 0 then "-"%string else EmptyString in
      let a := Qabs q in
      let ip := Qfloor a in
      let digits := strip_zeros (frac_digits 17 (a - inject_Z ip)) in
      let frac := match digits with
                  | [] => "0"%string
                  | _ => String.concat EmptyString (map string_of_nonneg digits)
                  end in
      (sign ++ string_of_nonneg ip ++ "." ++ frac)%string
  end.

Fixpoint count_up (fuel : nat) (x : Q) : Z :=
  match fuel with
  | O => 0%Z
  | S fuel' => if Qle_bool 10 x then (1 + count_up fuel' (x / 10))%Z else 0%Z
  end.

Fixpoint count_down (fuel : nat) (x : Q) : Z :=
  match fuel with
  | O => 0%Z
  | S fuel' => if Qltb x 1 then (count_down fuel' (x * 10) - 1)%Z else 0%Z
  end.

(** [int(np.floor(np.log10(x)))] for [x > 0]. *)
Definition floor_log10 (x : Q) : Z :=
  if Qle_bool 1 x
  then count_up (S (Z.to_nat (Z.log2 (Qfloor x)))) x
  else count_down (S (Z.to_nat (Z.log2 (Zpos (Qden x))))) x.

(** [_format_decimal(value, significant_digits, scale, return_scale=True)]:
    the formatted value and the scale used.  [int] of a NaN raises. *)
Definition _format_decimal (value : fval) (significant_digits : Z) (scale : option Z)
  : result (string * Z) :=
  scale <- match scale with
           | Some s => Ok s
           | None =>
               match value with
               | NaN => Raise ValueError
               | Num q => Ok (if Qeq_bool q 0 then 0%Z else floor_log10 (Qabs q))
               end
           end ;;
  let p := if (scale <? 0)%Z
           then (significant_digits - scale + 1)%Z
           else Z.max 0 (significant_digits - scale - 1) in
  Ok (format_fixed value (Z.to_nat p), scale).

(* ================================================================== *)
(** ** Summary *)

(** [_safe_divide(x, y)], elementwise. *)
Definition _safe_divide (x y : list fval) : list fval :=
  zip_with (fun a b => if negb (feqb b (Num 0)) then fdiv a b else Num 0) x y.

(** Boolean-mask indexing [a[mask]]. *)
Definition compress {A : Type} (a : list A) (mask : list bool) : list A :=
  map fst (filter snd (combine a mask)).

(** Column [k] of the positions: the values a reduction over the value axes
    combines for term [k]. *)
Definition term_column (a : ndarray fval) (k : nat) : list fval :=
  map (fun row => nth k row (Num 0)) (positions a).

Definition reduce_value_axes {R : Type} (f : list fval -> R) (a : ndarray fval) : list R :=
  map (fun k => f (term_column a k)) (seq 0 (channels a)).

Fixpoint zip5 {A B C D E : Type} (a : list A) (b : list B) (c : list C) (d : list D)
  (e : list E) : list (A * B * C * D * E) :=
  match a, b, c, d, e with
  | x :: a', y :: b', z :: c', u :: d', v :: e' => (x, y, z, u, v) :: zip5 a' b' c' d' e'
  | _, _, _, _, _ => []
  end.

Section Summary.

Context {AS : ArgSort}.

Definition summarise (counts sums : ndarray fval) (terms : option (ndarray string))
  (mask : option (list bool)) (show_percentages show_means show_ranges : bool)
  : result string :=
  (* prepare *)
  '(counts, sums, terms_out) <- standardize counts sums terms mask true ;;
  let terms_list := match terms_out with TermsList l => l | TermsArray _ => [] end in
  (* calculate summaries across each class *)
  let counts_by_class := reduce_value_axes np_sum counts in
  let sums_by_class := reduce_value_axes np_sum sums in
  min_counts_by_class <- sequence (reduce_value_axes np_min counts) ;;
  max_counts_by_class <- sequence (reduce_value_axes np_max counts) ;;
  min_sums_by_class <- sequence (reduce_value_axes np_min sums) ;;
  max_sums_by_class <- sequence (reduce_value_axes np_max sums) ;;
  (* sort summary values by largest counts *)
  let sort_order := rev (argsort fle_sort counts_by_class) in
  let counts_by_class := take_along_axis (Num 0) counts_by_class sort_order in
  let sums_by_class := take_along_axis (Num 0) sums_by_class sort_order in
  let min_counts_by_class := take_along_axis (Num 0) min_counts_by_class sort_order in
  let max_counts_by_class := take_along_axis (Num 0) max_counts_by_class sort_order in
  let min_sums_by_class := take_along_axis (Num 0) min_sums_by_class sort_order in
  let max_sums_by_class := take_along_axis (Num 0) max_sums_by_class sort_order in
  let terms_list := take_along_axis EmptyString terms_list sort_order in
  (* optional: convert sums to means *)
  let '(sums_by_class, min_sums_by_class, max_sums_by_class) :=
    if show_means
    then (_safe_divide sums_by_class counts_by_class,
          _safe_divide min_sums_by_class counts_by_class,
          _safe_divide max_sums_by_class counts_by_class)
    else (sums_by_class, min_sums_by_class, max_sums_by_class) in
  (* optional: convert counts to fractions *)
  let '(counts_by_class, min_counts_by_class, max_counts_by_class) :=
    if show_percentages
    then
      let factor := np_sum counts_by_class in
      let factor := if feqb factor (Num 0) then Num 1 else factor in
      (map (fun c => fdiv c factor) counts_by_class,
       map (fun c => fdiv c factor) min_counts_by_class,
       map (fun c => fdiv c factor) max_counts_by_class)
    else (counts_by_class, min_counts_by_class, max_counts_by_class) in
  (* drop anything with zero counts *)
  let summary_mask := map (fun c => fgtb c (Num 0)) counts_by_class in
  let counts_by_class := compress counts_by_class summary_mask in
  let sums_by_class := compress sums_by_class summary_mask in
  let min_counts_by_class := compress min_counts_by_class summary_mask in
  let max_counts_by_class := compress max_counts_by_class summary_mask in
  let min_sums_by_class := compress min_sums_by_class summary_mask in
  let max_sums_by_class := compress max_sums_by_class summary_mask in
  let terms_list := compress terms_list summary_mask in
  (* prepare formatting *)
  let _format_count (count : fval) (show_symbol : bool) : string :=
    if show_percentages && show_symbol
    then (format_fixed (fmul count (Num 100)) 1 ++ "%")%string
    else if show_percentages then format_fixed (fmul count (Num 100)) 1
    else str_float count in
  let sum_symbol := if show_means || show_ranges then "x"%string else "= Σ"%string in
  largest <- (if show_ranges
              then np_max (zip_with fmaximum (map fabs min_sums_by_class)
                                             (map fabs max_sums_by_class))
              else np_max (map fabs sums_by_class)) ;;
  '(_, scale) <- _format_decimal largest 4 None ;;
  (* format as one-line text description *)
  summary <-
    (if show_ranges
     then
       fold_left
         (fun (acc : result string) '(min_count, max_count, min_sum, max_sum, this_term) =>
            summary <- acc ;;
            let summary := if Nat.ltb 0 (String.length summary)
                           then (summary ++ ", ")%string else summary in
            (* swap pairs of negatives for easier viewing *)
            let '(min_sum, max_sum) :=
              if fltb min_sum max_sum && fltb max_sum (Num 0)
              then (max_sum, min_sum) else (min_sum, max_sum) in
            let min_count := _format_count min_count false in
            let max_count := _format_count max_count true in
            '(min_sum, _) <- _format_decimal min_sum 4 (Some scale) ;;
            '(max_sum, _) <- _format_decimal max_sum 4 (Some scale) ;;
            Ok (summary ++ this_term ++ ": " ++ min_count ++ ".." ++ max_count ++ " "
                        ++ sum_symbol ++ " " ++ min_sum ++ ".." ++ max_sum)%string)
         (zip5 min_counts_by_class max_counts_by_class min_sums_by_class
               max_sums_by_class terms_list)
         (Ok EmptyString)
     else
       fold_left
         (fun (acc : result string) '(this_count, this_sum, this_term) =>
            summary <- acc ;;
            let summary := if Nat.ltb 0 (String.length summary)
                           then (summary ++ ", ")%string else summary in
            let this_count := _format_count this_count true in
            '(this_sum, _) <- _format_decimal this_sum 4 (Some scale) ;;
            Ok (summary ++ this_term ++ ": " ++ this_count ++ " " ++ sum_symbol ++ " "
                        ++ this_sum)%string)
         (zip3 counts_by_class sums_by_class terms_list)
         (Ok EmptyString)) ;;
  Ok (if Nat.eqb (String.length summary) 0 then "<empty>"%string else summary).

End Summary.

(* ================================================================== *)
(** ** Notions used in the statements *)

(** The class tests [classification_mask] applies to one element. *)
Definition zero_class (threshold v : fval) : bool :=
  feqb v (Num 0) || fltb (fabs v) threshold.

Definition pos_class (threshold v : fval) : bool :=
  fgtb v (Num 0) && negb (zero_class threshold v).

Definition neg_class (threshold v : fval) : bool :=
  fltb v (Num 0) && negb (zero_class threshold v).

Definition exactly_one (a b c : bool) : bool :=
  match a, b, c with
  | true, false, false | false, true, false | false, false, true => true
  | _, _, _ => false
  end.

(** Number of elements a mask selects. *)
Definition count_true (m : matrix bool) : nat :=
  length (filter (fun b : bool => b) (concat m)).

(** The rational a number stands for. *)
Definition qv (v : fval) : Q :=
  match v with Num q => q | NaN => 0 end.

(** The threshold [classification_mask] works with. *)
Definition derive_threshold {AS : ArgSort} (x : matrix fval) (confidence : Q)
  (threshold : option fval) : result fval :=
  match threshold with
  | None => percentile (concat (tf_abs x)) (100 * (1 - confidence))%Q
  | Some t => Ok t
  end.

Definition qsum (l : list fval) : Q := fold_right (fun v acc => (qv v + acc)%Q) 0%Q l.

(** The value a class keeps of an element: [tf.where(mask, x, 0)]. *)
Definition masked (c : fval -> bool) (v : fval) : fval := if c v then v else Num 0.

(** The cells of the product of [x] with a matrix of [m] columns, in C order. *)
Definition cells (x : matrix fval) (m : nat) : list (list fval * nat) :=
  flat_map (fun xr => map (pair xr) (seq 0 m)) x.

(** The position [percentile] reads, for a rounding [round] of the target. *)
Definition percentile_index (n : nat) (q : Q) (round : Q -> Z) : nat :=
  Z.to_nat (clip (round (inject_Z (Z.of_nat n - 1) * (q / 100))%Q) 0 (Z.of_nat n - 1)).

(** [b] is a threshold at most [a]: both NaN, or two numbers in that order. *)
Definition threshold_le (b a : fval) : Prop :=
  match b, a with
  | Num p, Num q => (p <= q)%Q
  | NaN, NaN => True
  | _, _ => False
  end.

(** The classification of [x = [[5.0]]], [y = [[-5.0]]] at confidence 1. *)
Definition example_counts : ndarray fval :=
  mk_ndarray 9 [[Num 0; Num 0; Num 1; Num 0; Num 0; Num 0; Num 0; Num 0; Num 0]].

Definition example_sums : ndarray fval :=
  mk_ndarray 9 [[Num 0; Num 0; Num (-25); Num 0; Num 0; Num 0; Num 0; Num 0; Num 0]].

(** The classification of the all-zero pair [x = [[0.0]]], [y = [[0.0]]]. *)
Definition zero_counts : ndarray fval :=
  mk_ndarray 9 [[Num 0; Num 0; Num 0; Num 0; Num 1; Num 0; Num 0; Num 0; Num 0]].

Definition zero_sums : ndarray fval :=
  mk_ndarray 9 [[Num 0; Num 0; Num 0; Num 0; Num 0; Num 0; Num 0; Num 0; Num 0]].

(** [idx] lists every index below [n] once. *)
Definition is_perm (n : nat) (idx : list nat) : Prop := Permutation idx (seq 0 n).

Definition Qsum (l : list Q) : Q := fold_right Qplus 0%Q l.


Definition droppedQ (w : list Q) (mask : list bool) : Q :=
  Qsum (zip_with (fun x (b : bool) => if b then 0%Q else x) w mask).


(** [sums * (sums > 0)] and [sums * (sums < 0)]. *)
Definition pos_part (sums : list fval) : list fval :=
  mul_mask sums (map (fun s => fgtb s (Num 0)) sums).

Definition neg_part (sums : list fval) : list fval :=
  mul_mask sums (map (fun s => fltb s (Num 0)) sums).

(** [abs_range] of [_partial_filter_by_sum]: the larger of the total
    positive sum and the absolute total negative sum. *)
Definition abs_range (sums : list fval) : fval :=
  fmaximum (np_sum (pos_part sums)) (fabs (np_sum (neg_part sums))).



(** The retained flag of every term at one position, in the order of
    [terms]: the masks of the two filter phases brought back to that
    order. *)
Definition retained_at {AS : ArgSort} (counts sums : list fval) (terms : list string) (completeness : Q)
  : list bool :=
  let '(_, _, terms', masks) := filter_phases_at counts sums terms completeness in
  take_along_axis false masks (_fixargsort terms' terms).

(** Every position of the array holds [channels] terms. *)
Definition well_shaped {A : Type} (a : ndarray A) : Prop :=
  Forall (fun row => length row = channels a) (positions a).

(** The number of elements of a tensor of a given shape. *)
Definition shape_size (s : list nat) : nat := fold_right Nat.mul 1%nat s.

(** Index structures of three operations, to exercise the tensor
    variants.  [tf.tensordot] with [axes=0], the outer product: the
    result has the shape of [a] followed by the shape of [b], and its
    element [(i, j)] is the one product [a[i] * b[j]]. *)
Definition sample_tensordot_layout (axes : axes_arg) : mac_layout :=
  match axes with
  | AxesInt 0%Z =>
      fun sa sb =>
        Some (sa ++ sb,
              flat_map (fun i => map (fun j => [(i, j)]) (seq 0 (shape_size sb)))
                       (seq 0 (shape_size sa)))
  | _ => fun _ _ => None
  end.

(** [tf.nn.convolution] over one spatial dimension, with stride 1 and
    padding ["VALID"], for one input and one output channel: inputs of
    shape [(batch, n, 1)], a kernel of shape [(k, 1, 1)], the result of
    shape [(batch, n - k + 1, 1)] with
    [out[beta, o] = sum_j inputs[beta, o + j] * kernel[j]]. *)
Definition sample_convolution_layout (strides : strides_arg) (padding : string) : mac_layout :=
  match strides with
  | StridesInt 1%Z =>
      fun si sk =>
        match si, sk with
        | [batch; n; 1%nat], [k; 1%nat; 1%nat] =>
            if String.eqb padding "VALID" && Nat.leb 1 k && Nat.leb k n
            then let m := (n - k + 1)%nat in
                 Some ([batch; m; 1%nat],
                       flat_map (fun beta =>
                                   map (fun o => map (fun j => ((beta * n + o + j)%nat, j))
                                                     (seq 0 k))
                                       (seq 0 m))
                                (seq 0 batch))
            else None
        | _, _ => None
        end
  | _ => fun _ _ => None
  end.

(** The gradient of that convolution with respect to its kernel: [x] of
    shape [(batch, n, 1)], [d_out] of shape [(batch, m, 1)] with
    [m = n - k + 1], the result of the kernel's shape [(k, 1, 1)] with
    [d_kernel[j] = sum_beta sum_o x[beta, o + j] * d_out[beta, o]]. *)
Definition sample_conv_backprop_filter_layout (kernel_shape : list nat)
  (strides : strides_arg) (padding : string) : mac_layout :=
  match strides, kernel_shape with
  | StridesInt 1%Z, [k; 1%nat; 1%nat] =>
      fun sx sd =>
        match sx, sd with
        | [batch; n; 1%nat], [batch'; m; 1%nat] =>
            if String.eqb padding "VALID" && Nat.eqb batch batch' && Nat.leb 1 k
               && Nat.eqb (m + k) (n + 1)
            then Some ([k; 1%nat; 1%nat],
                       map (fun j =>
                              flat_map (fun beta =>
                                          map (fun o => ((beta * n + o + j)%nat,
                                                         (beta * m + o)%nat))
                                              (seq 0 m))
                                       (seq 0 batch))
                           (seq 0 k))
            else None
        | _, _ => None
        end
  | _, _ => fun _ _ => None
  end.

(** Two batches of two values, and two values that serve as a kernel and
    as an output gradient. *)
Definition sample_inputs : tensor := mk_tensor [2; 2; 1]%nat [Num 1; Num (-2); Num 3; Num 4].

Definition sample_kernel : tensor := mk_tensor [2; 1; 1]%nat [Num 5; Num (-6)].

(** A classification used to exercise the filter: one position, nine terms. *)
Definition sample_counts : ndarray fval :=
  mk_ndarray 9 [[Num 3; Num 1; Num 0; Num 2; Num 0; Num 0; Num 1; Num 0; Num 0]].

Definition sample_sums : ndarray fval :=
  mk_ndarray 9 [[Num 6; Num (-1); Num 0; Num 2; Num 0; Num 0; Num (-4); Num 0; Num 0]].


(** The checks of [standardize] as far as flattened arrays show them:
    [counts] and [sums] with the same number of terms and of positions,
    [terms], when given, with those of [counts], a [mask], when given, with
    one entry per position, and three or nine terms. *)
Definition standardize_accepts (counts sums : ndarray fval) (terms : option (ndarray string))
  (mask : option (list bool)) : bool :=
  same_nd_shape counts sums
  && match terms with Some t => same_nd_shape t counts | None => true end
  && match mask with Some m => Nat.eqb (length m) (length (positions counts)) | None => true end
  && (Nat.eqb (channels counts) 3 || Nat.eqb (channels counts) 9).

(** The class tests of the two inputs, in the order of the nine terms
    PP, PZ, PN, ZP, ZZ, ZN, NP, NZ, NN. *)
Definition class_pairs : list ((fval -> fval -> bool) * (fval -> fval -> bool)) :=
  [(pos_class, pos_class); (pos_class, zero_class); (pos_class, neg_class);
   (zero_class, pos_class); (zero_class, zero_class); (zero_class, neg_class);
   (neg_class, pos_class); (neg_class, zero_class); (neg_class, neg_class)].

(** The class tests of one input, in the order of the terms P, Z, N. *)
Definition class_tests : list (fval -> fval -> bool) := [pos_class; zero_class; neg_class].

(** How many index pairs of a row [a] and a column [b] have the element of
    [a] in class [c1] and the element of [b] in class [c2]. *)
Definition pair_count (c1 c2 : fval -> bool) (a b : list fval) : nat :=
  length (filter (fun p => c1 (fst p) && c2 (snd p)) (combine a b)).

(** A natural number as a float. *)
Definition of_nat (n : nat) : fval := Num (inject_Z (Z.of_nat n)).

(** Whether a character occurs in a string. *)
Fixpoint contains_char (c : ascii) (s : string) : bool :=
  match s with
  | EmptyString => false
  | String a rest => Ascii.eqb a c || contains_char c rest
  end.

(* ================================================================== *)
(** ** Groups of classifications *)

(** [a[:m]] of a Python sequence; a negative [m] counts from the end. *)
Definition slice_to {A : Type} (a : list A) (m : Z) : list A :=
  if (m <? 0)%Z
  then firstn (Z.to_nat (Z.of_nat (length a) + m)) a
  else firstn (Z.to_nat m) a.

(** [np.nonzero(mask)[0]]: the indices at which a mask holds. *)
Definition np_nonzero (mask : list bool) : list nat :=
  map fst (filter snd (combine (seq 0 (length mask)) mask)).

(** [np.cumsum] of an integer array. *)
Fixpoint cumsum_Z_from (acc : Z) (a : list Z) : list Z :=
  match a with
  | [] => []
  | v :: rest => (acc + v)%Z :: cumsum_Z_from (acc + v)%Z rest
  end.

Definition np_cumsum_Z (a : list Z) : list Z := cumsum_Z_from 0%Z a.

(** [np.sum] of an integer array. *)
Definition np_sum_Z (a : list Z) : Z := fold_left Z.add a 0%Z.

(** [[a[i] for i in indices]]: [None] stands for the [IndexError] of an
    index out of range. *)
Fixpoint pick {A : Type} (a : list A) (indices : list nat) : option (list A) :=
  match indices with
  | [] => Some []
  | i :: rest =>
      match nth_error a i, pick a rest with
      | Some x, Some r => Some (x :: r)
      | _, _ => None
      end
  end.

(** [filter_groups(count_groups, sum_groups, term_groups, completeness,
    max_groups, return_coverage=True)].  A group is an array of shape
    [(g, terms)]: its [positions] are the [g] members of the group.  The
    only exception the function can raise is the [IndexError] of a list
    index out of range, so the result is an [option]. *)
Definition filter_groups (count_groups sum_groups : list (ndarray fval))
  (term_groups : list (list string)) (completeness : option Q) (max_groups : option Z)
  : option (list (ndarray fval) * list (ndarray fval) * list (list string) * fval) :=
  (* handle args *)
  let completeness := match completeness with None => 1%Q | Some c => c end in
  (* setup *)
  let group_sizes := map (fun counts : ndarray fval => Z.of_nat (length (positions counts)))
                         count_groups in
  let total := np_sum_Z group_sizes in
  let threshold := (inject_Z total * (1 - completeness))%Q in
  (* apply threshold *)
  let accumed := rev (np_cumsum_Z (rev group_sizes)) in
  let mask := map (fun a => Qle_bool threshold (inject_Z a)) accumed in
  let indices := np_nonzero mask in
  (* apply max_groups *)
  let indices :=
    match max_groups with
    | Some m =>
        if negb (m =? 0)%Z && (m <? Z.of_nat (length indices))%Z
        then slice_to indices m else indices
    | None => indices
    end in
  (* apply filtering *)
  let coverage :=
    fdiv (Num (inject_Z (np_sum_Z (map (fun i => nth i group_sizes 0%Z) indices))))
         (Num (inject_Z total)) in
  match pick count_groups indices, pick sum_groups indices, pick term_groups indices with
  | Some count_groups, Some sum_groups, Some term_groups =>
      Some (count_groups, sum_groups, term_groups, coverage)
  | _, _, _ => None
  end.

(** The sizes of a list of groups. *)
Definition group_sizes (count_groups : list (ndarray fval)) : list Z :=
  map (fun counts : ndarray fval => Z.of_nat (length (positions counts))) count_groups.

(** Three groups of one-tensor classifications, of sizes 3, 2 and 1. *)
Definition sample_count_groups : list (ndarray fval) :=
  [mk_ndarray 3 [[Num 1; Num 0; Num 0]; [Num 1; Num 0; Num 0]; [Num 1; Num 0; Num 0]];
   mk_ndarray 3 [[Num 0; Num 1; Num 0]; [Num 0; Num 1; Num 0]];
   mk_ndarray 3 [[Num 0; Num 0; Num 1]]].

Definition sample_sum_groups : list (ndarray fval) :=
  [mk_ndarray 3 [[Num 2; Num 0; Num 0]; [Num 3; Num 0; Num 0]; [Num 5; Num 0; Num 0]];
   mk_ndarray 3 [[Num 0; Num 0; Num 0]; [Num 0; Num 0; Num 0]];
   mk_ndarray 3 [[Num 0; Num 0; Num (-4)]]].

Definition sample_term_groups : list (list string) :=
  [["P"]; ["Z"]; ["N"]]%string.

(** A Python [dict] built from key-value pairs in order: a later binding
    of a key replaces an earlier one. *)
Definition dict_get {K V : Type} (eqb : K -> K -> bool) (d : list (K * V)) (k : K) : option V :=
  option_map snd (find (fun kv => eqb (fst kv) k) (rev d)).

Fixpoint insert_unique (v : Z) (u : list (Z * Z)) : list (Z * Z) :=
  match u with
  | [] => [(v, 1%Z)]
  | (w, c) :: rest =>
      if (v <? w)%Z then (v, 1%Z) :: u
      else if (v =? w)%Z then (w, (c + 1)%Z) :: rest
      else (w, c) :: insert_unique v rest
  end.

(** [np.unique(a, return_counts=True)]: the distinct values in ascending
    order, each with the number of its occurrences. *)
Definition np_unique (a : list Z) : list (Z * Z) := fold_right insert_unique [] a.

(** [np.diff] of an integer array. *)
Definition np_diff (a : list Z) : list Z :=
  match a with
  | [] => []
  | _ :: rest => zip_with Z.sub rest a
  end.

Fixpoint np_split_from {A : Type} (start : nat) (a : list A) (indices : list nat)
  : list (list A) :=
  match indices with
  | [] => [skipn start a]
  | i :: rest => firstn (i - start) (skipn start a) :: np_split_from i a rest
  end.

(** [np.split(a, indices)] along the first axis: the pieces
    [a[:i0], a[i0:i1], ..., a[ik:]]. *)
Definition np_split {A : Type} (a : list A) (indices : list nat) : list (list A) :=
  np_split_from 0 a indices.

Definition is_none {A : Type} (o : option A) : bool :=
  match o with None => true | Some _ => false end.

(** [term_numbers] of [group_classifications]: the number of every term
    ([np.vectorize(term_number_lookup.get)(terms)]), set to zero where the
    count is zero.  [np.vectorize] refuses an input of size 0; it takes the
    type of its result from the first element, so that a term without a
    number raises [TypeError] when the first term has one (the result is an
    integer array), and otherwise only where it is left in place and
    multiplied (the result is an array of objects). *)
Definition term_numbers (term_number_lookup : list (string * Z))
  (counts : list (list fval)) (terms : list (list string)) : result (list (list Z)) :=
  let looked := map (map (dict_get String.eqb term_number_lookup)) terms in
  match concat looked with
  | [] => Raise ValueError
  | first :: _ =>
      if negb (is_none first) && existsb is_none (concat looked) then Raise TypeError
      else
        sequence
          (zip_with
             (fun crow lrow =>
                sequence
                  (zip_with
                     (fun (c : fval) (l : option Z) =>
                        if feqb c (Num 0) then Ok 0%Z
                        else match l with Some n => Ok n | None => Raise TypeError end)
                     crow lrow))
             counts looked)
  end.

(** The number of term columns of a group in which some count is not
    zero: [np.sum(np.max(counts != 0, axis=0))]. *)
Definition term_len (num_terms : nat) (counts : list (list fval)) : nat :=
  length (filter (fun b : bool => b)
            (map (fun k => existsb (fun row => negb (feqb (nth k row (Num 0)) (Num 0))) counts)
                 (seq 0 num_terms))).

(** [group_classifications(counts, sums, terms, mask)].  The two sorts
    are [kind='stable'], hence [stable_argsort]. *)
Definition group_classifications (counts sums : ndarray fval) (terms : option (ndarray string))
  (mask : option (list bool))
  : result (list (ndarray fval) * list (ndarray fval) * list (list string)) :=
  (* sanity checks *)
  if negb (same_nd_shape counts sums) then Raise ValueError
  else if match terms with Some t => negb (same_nd_shape t counts) | None => false end
  then Raise ValueError
  else if match mask with
          | Some m => negb (Nat.eqb (length m) (length (positions counts)))
          | None => false
          end
  then Raise ValueError
  else
    (* prepare data *)
    terms <- match terms with
             | Some t => Ok t
             | None => classify_terms_retain_shape (Some counts)
             end ;;
    let num_terms := channels counts in
    let '(counts, sums, terms) :=
      match mask with
      | None => (positions counts, positions sums, positions terms)
      | Some m => (compress (positions counts) m, compress (positions sums) m,
                   compress (positions terms) m)
      end in
    (* compute grouping values *)
    terms_list <- classify_terms (Some (mk_ndarray num_terms counts)) ;;
    let term_number_lookup :=
      combine terms_list (map (fun i => (Z.of_nat i + 1)%Z) (seq 0 (length terms_list))) in
    term_numbers <- term_numbers term_number_lookup counts terms ;;
    let term_scales :=
      map (fun i => (Z.of_nat (length terms_list)
                     ^ Z.of_nat (length terms_list - i - 1))%Z)
          (seq 0 (length terms_list)) in
    let grouping_values :=
      map (fun row => np_sum_Z (zip_with Z.mul row term_scales)) term_numbers in
    (* sort into groups, largest groups first *)
    let unique := np_unique grouping_values in
    let unique_grouping_values := map fst unique in
    let grouping_value_counts := map snd unique in
    let sort_order := @argsort stable_argsort Z Z.leb (map Z.opp grouping_value_counts) in
    let unique_grouping_values := take_along_axis 0%Z unique_grouping_values sort_order in
    let value_to_sorted_position :=
      combine unique_grouping_values (seq 0 (length unique_grouping_values)) in
    sortable_ids <-
      sequence (map (fun v => match dict_get Z.eqb value_to_sorted_position v with
                              | Some idx => Ok idx
                              | None => Raise TypeError
                              end)
                    grouping_values) ;;
    let sort_order := @argsort stable_argsort nat Nat.leb sortable_ids in
    let counts := take_along_axis [] counts sort_order in
    let sums := take_along_axis [] sums sort_order in
    let terms := take_along_axis [] terms sort_order in
    let grouping_values := take_along_axis 0%Z grouping_values sort_order in
    (* split into groups *)
    let indices :=
      map S (np_nonzero (map (fun d => negb (d =? 0)%Z) (np_diff grouping_values))) in
    let count_groups := np_split counts indices in
    let sum_groups := np_split sums indices in
    let term_groups := np_split terms indices in
    (* convert term np-arrays to lists *)
    let term_groups :=
      map (fun '(counts, terms) => firstn (term_len num_terms counts) (nth 0 terms []))
          (combine count_groups term_groups) in
    Ok (map (mk_ndarray num_terms) count_groups, map (mk_ndarray num_terms) sum_groups,
        term_groups).

(** Six positions of a one-tensor classification after filtering: the
    terms sorted by descending count at every position. *)
Definition grouped_counts : ndarray fval :=
  mk_ndarray 3 [[Num 2; Num 1; Num 0]; [Num 3; Num 0; Num 0]; [Num 2; Num 2; Num 0];
                [Num 1; Num 0; Num 0]; [Num 4; Num 1; Num 0]; [Num 1; Num 1; Num 1]].

Definition grouped_sums : ndarray fval :=
  mk_ndarray 3 [[Num 5; Num 0; Num 0]; [Num (-3); Num 0; Num 0]; [Num 4; Num 0; Num 0];
                [Num (-1); Num 0; Num 0]; [Num 9; Num 0; Num 0]; [Num 1; Num 0; Num (-2)]].

Definition grouped_terms : ndarray string :=
  mk_ndarray 3 [["P"; "Z"; "N"]; ["N"; "Z"; "P"]; ["P"; "Z"; "N"];
                ["N"; "P"; "Z"]; ["P"; "Z"; "N"]; ["P"; "Z"; "N"]]%string.

(** The positions a mask selects ([a[mask]]), all of them without a mask. *)
Definition selected {A : Type} (a : ndarray A) (mask : option (list bool)) : list (list A) :=
  match mask with
  | None => positions a
  | Some m => compress (positions a) m
  end.

(** The indices at which [np.split] cuts: where the key changes. *)
Definition change_indices (keys : list Z) : list nat :=
  map S (np_nonzero (map (fun d => negb (d =? 0)%Z) (np_diff keys))).

(** The pieces of [a] along the runs of equal adjacent keys. *)
Fixpoint split_by {K A : Type} (eqb : K -> K -> bool) (keys : list K) (a : list A)
  : list (list A) :=
  match keys, a with
  | x :: ((y :: _) as ks), a0 :: a' =>
      let r := split_by eqb ks a' in
      if eqb x y then (a0 :: hd [] r) :: tl r else [a0] :: r
  | _, _ => [a]
  end.

(** The keys of a list without their adjacent repetitions. *)
Fixpoint dedup (keys : list nat) : list nat :=
  match keys with
  | x :: ((y :: _) as ks) => if Nat.eqb x y then dedup ks else x :: dedup ks
  | _ => keys
  end.

Section Describe.

Context {AS : ArgSort}.

(** [describe_groups(count_groups, sum_groups, term_groups, ...)]: the
    dict of ['sizes'] and ['summaries'] as a pair. *)
Definition describe_groups (count_groups sum_groups : list (ndarray fval))
  (term_groups : list (list string)) (show_percentages show_means show_ranges : bool)
  : result (list nat * list string) :=
  let group_sizes := map (fun counts : ndarray fval => length (positions counts)) count_groups in
  summaries <-
    sequence
      (map (fun '(counts, sums, terms) =>
              (* devise original matrix of terms *)
              std_terms <- classify_terms (Some counts) ;;
              let term_count := length std_terms in
              let terms_list :=
                map (fun i => if Nat.ltb i (length terms) then nth i terms EmptyString
                              else "--"%string)
                    (seq 0 term_count) in
              let terms := mk_ndarray term_count (map (fun _ => terms_list) (positions counts)) in
              (* construct summary *)
              summarise counts sums (Some terms) None show_percentages show_means show_ranges)
           (zip3 count_groups sum_groups term_groups)) ;;
  Ok (group_sizes, summaries).

End Describe.

Unset Implicit Arguments.

(* ================================================================== *)
(** ** Lists and matrices *)

Lemma zip_with_map_same (A B C D : Type) (f : B -> C -> D) (g : A -> B) (h : A -> C) l :
  zip_with f (map g l) (map h l) = map (fun a => f (g a) (h a)) l.
Proof. induction l as [|a l IH]; simpl; [reflexivity | now rewrite IH]. Qed.


Lemma zip_with_map_l (A B C : Type) (f : B -> A -> C) (g : A -> B) l :
  zip_with f (map g l) l = map (fun a => f (g a) a) l.
Proof. induction l as [|a l IH]; simpl; [reflexivity | now rewrite IH]. Qed.

Lemma zip2d_map2d_same (A B C D : Type) (f : B -> C -> D) (g : A -> B) (h : A -> C) x :
  zip2d f (map2d g x) (map2d h x) = map2d (fun a => f (g a) (h a)) x.
Proof.
  unfold zip2d, map2d. rewrite zip_with_map_same.
  apply map_ext. intro r. apply zip_with_map_same.
Qed.

Lemma zip2d_map2d_l (A B C : Type) (f : B -> A -> C) (g : A -> B) x :
  zip2d f (map2d g x) x = map2d (fun a => f (g a) a) x.
Proof.
  unfold zip2d, map2d. rewrite zip_with_map_l.
  apply map_ext. intro r. apply zip_with_map_l.
Qed.

Lemma map2d_map2d (A B C : Type) (f : A -> B) (g : B -> C) x :
  map2d g (map2d f x) = map2d (fun a => g (f a)) x.
Proof.
  unfold map2d. rewrite map_map. apply map_ext. intro r. apply map_map.
Qed.

Lemma at2_map2d (A B : Type) (f : A -> B) x i j :
  at2 (map2d f x) i j = option_map f (at2 x i j).
Proof.
  unfold at2, map2d. rewrite nth_error_map.
  destruct (nth_error x i) as [r|]; simpl; [apply nth_error_map | reflexivity].
Qed.

(* ================================================================== *)
(** ** Classification masks, element by element *)

Section ClassificationFacts.

Context {AS : ArgSort}.

Lemma classification_mask_elementwise x confidence threshold :
  classification_mask x confidence threshold =
  (t <- derive_threshold x confidence threshold ;;
   Ok (map2d (pos_class t) x, map2d (zero_class t) x, map2d (neg_class t) x, t)).
Proof.
  unfold classification_mask, derive_threshold.
  destruct (match threshold with None => _ | Some t => _ end) as [t|e]; simpl; [|reflexivity].
  unfold tf_logical_and, tf_logical_or, tf_logical_not, tf_equal, tf_less, tf_greater, tf_abs.
  rewrite !map2d_map2d, !zip2d_map2d_same, !map2d_map2d, !zip2d_map2d_same.
  reflexivity.
Qed.

Lemma classification_mask_inv x confidence threshold p z n t :
  classification_mask x confidence threshold = Ok (p, z, n, t) ->
  derive_threshold x confidence threshold = Ok t /\
  p = map2d (pos_class t) x /\ z = map2d (zero_class t) x /\ n = map2d (neg_class t) x.
Proof.
  rewrite classification_mask_elementwise.
  destruct (derive_threshold x confidence threshold) as [t'|e]; simpl; [|discriminate].
  intro H. injection H as <- <- <- <-. auto.
Qed.

End ClassificationFacts.

Lemma Qltb_lt a b : Qltb a b = true <-> (a < b)%Q.
Proof.
  unfold Qltb. rewrite negb_true_iff. split.
  - intro H. apply Qnot_le_lt. intro Hle. apply Qle_bool_iff in Hle. congruence.
  - intro H. destruct (Qle_bool b a) eqn:E; [|reflexivity].
    apply Qle_bool_iff in E. exfalso. apply (Qlt_not_le _ _ H E).
Qed.

Lemma Qltb_ge a b : Qltb a b = false <-> (b <= a)%Q.
Proof.
  unfold Qltb. rewrite negb_false_iff. apply Qle_bool_iff.
Qed.

(** A number is in exactly one class, whatever the threshold. *)
Lemma class_partition_num t q :
  exactly_one (pos_class t (Num q)) (zero_class t (Num q)) (neg_class t (Num q)) = true.
Proof.
  unfold pos_class, neg_class.
  destruct (zero_class t (Num q)) eqn:Ez; simpl.
  - rewrite !andb_false_r. reflexivity.
  - rewrite !andb_true_r.
    unfold zero_class in Ez. apply orb_false_iff in Ez. destruct Ez as [Ez _].
    simpl in Ez. apply Qeq_bool_neq in Ez.
    unfold fgtb. simpl.
    destruct (Qltb 0 q) eqn:E1, (Qltb q 0) eqn:E2; try reflexivity.
    + apply Qltb_lt in E1. apply Qltb_lt in E2. lra.
    + apply Qltb_ge in E1. apply Qltb_ge in E2. exfalso. apply Ez. lra.
Qed.

(** NaN is in no class, whatever the threshold. *)
Lemma class_nan t :
  pos_class t NaN = false /\ zero_class t NaN = false /\ neg_class t NaN = false.
Proof. destruct t; repeat split; reflexivity. Qed.

Lemma class_partition_iff t v :
  exactly_one (pos_class t v) (zero_class t v) (neg_class t v) = true <-> v <> NaN.
Proof.
  destruct v as [q|].
  - split; [discriminate | intros _; apply class_partition_num].
  - destruct (class_nan t) as (-> & -> & ->). simpl. split; [discriminate | congruence].
Qed.

(* ================================================================== *)
(** ** The [thresholds] argument *)

(** C5.  The forms of [thresholds] that [_parse_thresholds_arg] handles:
    [None] gives two derived thresholds, a sequence of two elements gives
    its elements (each a float or [None]), a sequence of any other length
    raises [ValueError]; a bare float, which the documentation lists as
    "single float - specifies thresholds against both inputs", is not
    unpacked and raises [TypeError]. *)
Theorem parse_thresholds_cases :
  _parse_thresholds_arg ThNone = Ok (None, None) /\
  (forall t1 t2, _parse_thresholds_arg (ThSeq [t1; t2]) = Ok (t1, t2)) /\
  (forall l, length l <> 2%nat -> _parse_thresholds_arg (ThSeq l) = Raise ValueError) /\
  (forall t, _parse_thresholds_arg (ThFloat t) = Raise TypeError).
Proof.
  repeat split; try reflexivity.
  intros l Hl. destruct l as [|a [|b [|c l]]]; simpl in *; try reflexivity.
  exfalso. apply Hl. reflexivity.
Qed.

(* ================================================================== *)
(** ** The partition into sign classes *)

Section PartitionFacts.

Context {AS : ArgSort}.

(** C3 (amended).  For every input tensor and every derived or explicit
    threshold, every element of the tensor that is not NaN has exactly one
    of [pos_mask], [zero_mask], [neg_mask] set. *)
Theorem classification_partition_non_nan x confidence threshold p z n t i j v :
  classification_mask x confidence threshold = Ok (p, z, n, t) ->
  at2 x i j = Some v ->
  v <> NaN ->
  exists bp bz bn,
    at2 p i j = Some bp /\ at2 z i j = Some bz /\ at2 n i j = Some bn /\
    exactly_one bp bz bn = true.
Proof.
  intros Hm Hv Hnum.
  apply classification_mask_inv in Hm. destruct Hm as (_ & -> & -> & ->).
  exists (pos_class t v), (zero_class t v), (neg_class t v).
  rewrite !at2_map2d, Hv. simpl. repeat split.
  now apply class_partition_iff.
Qed.

(** C10.  An element that is NaN has none of the three masks set, whatever
    the threshold, so its casts to a count and its masked values are all
    zero; and an element has exactly one mask set if and only if it is not
    NaN. *)
Theorem nan_belongs_to_no_class x confidence threshold p z n t i j v :
  classification_mask x confidence threshold = Ok (p, z, n, t) ->
  at2 x i j = Some v ->
  (v = NaN ->
   at2 p i j = Some false /\ at2 z i j = Some false /\ at2 n i j = Some false /\
   at2 (tf_cast p) i j = Some (Num 0) /\ at2 (tf_cast z) i j = Some (Num 0) /\
   at2 (tf_cast n) i j = Some (Num 0) /\
   at2 (tf_where p x) i j = Some (Num 0) /\ at2 (tf_where z x) i j = Some (Num 0) /\
   at2 (tf_where n x) i j = Some (Num 0)) /\
  (forall bp bz bn,
     at2 p i j = Some bp -> at2 z i j = Some bz -> at2 n i j = Some bn ->
     (exactly_one bp bz bn = true <-> v <> NaN)).
Proof.
  intros Hm Hv.
  apply classification_mask_inv in Hm. destruct Hm as (_ & -> & -> & ->).
  unfold tf_cast, tf_where. rewrite !map2d_map2d, !zip2d_map2d_l, !at2_map2d, Hv.
  simpl. split.
  - intros ->. destruct (class_nan t) as (-> & -> & ->). repeat split.
  - intros bp bz bn [= <-] [= <-] [= <-]. apply class_partition_iff.
Qed.

End PartitionFacts.

(** C3, as stated, fails: the NaN of [[NaN, 1.0]] is in no class. *)
Lemma classification_partition_fails_on_nan :
  @classification_mask stable_argsort [[NaN; Num 1]] (95 # 100) (Some (Num (1 # 2)))
    = Ok ([[false; true]], [[false; false]], [[false; false]], Num (1 # 2)) /\
  at2 [[NaN; Num 1]] 0 0 = Some NaN /\
  exactly_one false false false = false.
Proof. repeat split. Qed.

Lemma classification_partition_non_nan_witness :
  exists bp bz bn,
    at2 [[false; true]] 0 1 = Some bp /\ at2 [[false; false]] 0 1 = Some bz /\
    at2 [[false; false]] 0 1 = Some bn /\ exactly_one bp bz bn = true.
Proof.
  apply (@classification_partition_non_nan stable_argsort [[NaN; Num 1]] (95 # 100)
           (Some (Num (1 # 2))) _ _ _ (Num (1 # 2)) 0 1 (Num 1)).
  - reflexivity.
  - reflexivity.
  - discriminate.
Defined.

Lemma nan_belongs_to_no_class_witness :
  (NaN = NaN ->
   at2 [[false; true]] 0 0 = Some false /\ at2 [[false; false]] 0 0 = Some false /\
   at2 [[false; false]] 0 0 = Some false /\
   at2 (tf_cast [[false; true]]) 0 0 = Some (Num 0) /\
   at2 (tf_cast [[false; false]]) 0 0 = Some (Num 0) /\
   at2 (tf_cast [[false; false]]) 0 0 = Some (Num 0) /\
   at2 (tf_where [[false; true]] [[NaN; Num 1]]) 0 0 = Some (Num 0) /\
   at2 (tf_where [[false; false]] [[NaN; Num 1]]) 0 0 = Some (Num 0) /\
   at2 (tf_where [[false; false]] [[NaN; Num 1]]) 0 0 = Some (Num 0)) /\
  (forall bp bz bn,
     at2 [[false; true]] 0 0 = Some bp -> at2 [[false; false]] 0 0 = Some bz ->
     at2 [[false; false]] 0 0 = Some bn ->
     (exactly_one bp bz bn = true <-> NaN <> NaN)).
Proof.
  apply (@nan_belongs_to_no_class stable_argsort [[NaN; Num 1]] (95 # 100)
           (Some (Num (1 # 2))) _ _ _ (Num (1 # 2)) 0 0 NaN).
  - reflexivity.
  - reflexivity.
Defined.

(* ================================================================== *)
(** ** Conservation: the nine partial sums add up to the product *)

Lemma is_num_exists v : is_num v -> exists q, v = Num q.
Proof. destruct v; [eauto | contradiction]. Qed.

Lemma fold_left_fadd_num l : forall acc,
  Forall is_num l ->
  exists q, fold_left fadd l (Num acc) = Num q /\ (q == acc + qsum l)%Q.
Proof.
  induction l as [|v l IH]; intros acc Hl; simpl.
  - exists acc. split; [reflexivity | lra].
  - inversion Hl as [|? ? Hv Hl']; subst.
    destruct (is_num_exists _ Hv) as [q ->]. simpl.
    destruct (IH (acc + q)%Q Hl') as (r & -> & Hr).
    exists r. split; [reflexivity | lra].
Qed.

Lemma np_sum_num l :
  Forall is_num l -> exists q, np_sum l = Num q /\ (q == qsum l)%Q.
Proof.
  intro Hl. destruct (fold_left_fadd_num _ 0 Hl) as (q & Hq & He).
  exists q. split; [exact Hq | lra].
Qed.

Lemma zip_with_fmul_num a : forall b,
  Forall is_num a -> Forall is_num b -> Forall is_num (zip_with fmul a b).
Proof.
  induction a as [|u a IH]; intros [|v b] Ha Hb; simpl; try constructor.
  - inversion Ha; inversion Hb; subst. destruct u, v; simpl in *; tauto.
  - inversion Ha; inversion Hb; subst. auto.
Qed.

Lemma masked_num c v : is_num v -> is_num (masked c v).
Proof. unfold masked. destruct (c v); simpl; tauto. Qed.

Lemma Forall_masked c l : Forall is_num l -> Forall is_num (map (masked c) l).
Proof.
  intro H. apply Forall_forall. intros v Hv. apply in_map_iff in Hv.
  destruct Hv as (u & <- & Hu). apply masked_num.
  rewrite Forall_forall in H. auto.
Qed.

(** The three classes of a threshold split a number into three parts. *)
Lemma masked_split t q :
  (qv (masked (pos_class t) (Num q)) + qv (masked (zero_class t) (Num q))
   + qv (masked (neg_class t) (Num q)) == q)%Q.
Proof.
  pose proof (class_partition_num t q) as H. unfold masked.
  destruct (pos_class t (Num q)), (zero_class t (Num q)), (neg_class t (Num q));
    simpl in *; try discriminate; lra.
Qed.

Lemma qdot_split_l t a : forall b,
  Forall is_num a -> Forall is_num b ->
  (qsum (zip_with fmul (map (masked (pos_class t)) a) b)
   + qsum (zip_with fmul (map (masked (zero_class t)) a) b)
   + qsum (zip_with fmul (map (masked (neg_class t)) a) b)
   == qsum (zip_with fmul a b))%Q.
Proof.
  induction a as [|u a IH]; intros [|v b] Ha Hb; simpl; try lra.
  inversion Ha as [|? ? Hu Ha']; inversion Hb as [|? ? Hv Hb']; subst.
  specialize (IH b Ha' Hb').
  destruct (is_num_exists _ Hu) as [p ->]. destruct (is_num_exists _ Hv) as [q ->].
  pose proof (masked_split t p) as Hs.
  unfold masked in *.
  destruct (pos_class t (Num p)), (zero_class t (Num p)), (neg_class t (Num p));
    simpl in *; nra.
Qed.

Lemma qdot_split_r t b : forall a,
  Forall is_num a -> Forall is_num b ->
  (qsum (zip_with fmul a (map (masked (pos_class t)) b))
   + qsum (zip_with fmul a (map (masked (zero_class t)) b))
   + qsum (zip_with fmul a (map (masked (neg_class t)) b))
   == qsum (zip_with fmul a b))%Q.
Proof.
  induction b as [|v b IH]; intros [|u a] Ha Hb; simpl; try lra.
  inversion Ha as [|? ? Hu Ha']; inversion Hb as [|? ? Hv Hb']; subst.
  specialize (IH a Ha' Hb').
  destruct (is_num_exists _ Hu) as [p ->]. destruct (is_num_exists _ Hv) as [q ->].
  pose proof (masked_split t q) as Hs.
  unfold masked in *.
  destruct (pos_class t (Num q)), (zero_class t (Num q)), (neg_class t (Num q));
    simpl in *; nra.
Qed.

Lemma dot_num a b :
  Forall is_num a -> Forall is_num b ->
  exists q, dot a b = Num q /\ (q == qsum (zip_with fmul a b))%Q.
Proof.
  intros Ha Hb. apply np_sum_num. now apply zip_with_fmul_num.
Qed.

(** Nine dot products of the class parts of a row and a column add up to
    the dot product of the row and the column. *)
Lemma nine_dots tx ty a b :
  Forall is_num a -> Forall is_num b ->
  feq (np_sum
         [dot (map (masked (pos_class tx)) a) (map (masked (pos_class ty)) b);
          dot (map (masked (pos_class tx)) a) (map (masked (zero_class ty)) b);
          dot (map (masked (pos_class tx)) a) (map (masked (neg_class ty)) b);
          dot (map (masked (zero_class tx)) a) (map (masked (pos_class ty)) b);
          dot (map (masked (zero_class tx)) a) (map (masked (zero_class ty)) b);
          dot (map (masked (zero_class tx)) a) (map (masked (neg_class ty)) b);
          dot (map (masked (neg_class tx)) a) (map (masked (pos_class ty)) b);
          dot (map (masked (neg_class tx)) a) (map (masked (zero_class ty)) b);
          dot (map (masked (neg_class tx)) a) (map (masked (neg_class ty)) b)])
      (dot a b).
Proof.
  intros Ha Hb.
  pose proof (Forall_masked (pos_class tx) _ Ha) as Hap.
  pose proof (Forall_masked (zero_class tx) _ Ha) as Haz.
  pose proof (Forall_masked (neg_class tx) _ Ha) as Han.
  pose proof (Forall_masked (pos_class ty) _ Hb) as Hbp.
  pose proof (Forall_masked (zero_class ty) _ Hb) as Hbz.
  pose proof (Forall_masked (neg_class ty) _ Hb) as Hbn.
  destruct (dot_num _ _ Hap Hbp) as (q1 & -> & E1).
  destruct (dot_num _ _ Hap Hbz) as (q2 & -> & E2).
  destruct (dot_num _ _ Hap Hbn) as (q3 & -> & E3).
  destruct (dot_num _ _ Haz Hbp) as (q4 & -> & E4).
  destruct (dot_num _ _ Haz Hbz) as (q5 & -> & E5).
  destruct (dot_num _ _ Haz Hbn) as (q6 & -> & E6).
  destruct (dot_num _ _ Han Hbp) as (q7 & -> & E7).
  destruct (dot_num _ _ Han Hbz) as (q8 & -> & E8).
  destruct (dot_num _ _ Han Hbn) as (q9 & -> & E9).
  destruct (dot_num _ _ Ha Hb) as (q & -> & E).
  pose proof (qdot_split_r ty _ _ Hap Hb) as Rp.
  pose proof (qdot_split_r ty _ _ Haz Hb) as Rz.
  pose proof (qdot_split_r ty _ _ Han Hb) as Rn.
  pose proof (qdot_split_l tx _ _ Ha Hb) as L.
  simpl. lra.
Qed.

Lemma tf_where_masked c x : tf_where (map2d c x) x = map2d (masked c) x.
Proof. unfold tf_where. apply zip2d_map2d_l. Qed.

Lemma rectangular_map2d (A B : Type) (f : A -> B) k x :
  rectangular k (map2d f x) = rectangular k x.
Proof.
  unfold rectangular, map2d. induction x as [|r x IH]; simpl; [reflexivity|].
  now rewrite length_map, IH.
Qed.

Lemma num_cols_map2d (A B : Type) (f : A -> B) y : num_cols (map2d f y) = num_cols y.
Proof. destruct y; simpl; [reflexivity | apply length_map]. Qed.

Lemma rectangular_in (A : Type) m (y : matrix A) r :
  rectangular m y = true -> In r y -> length r = m.
Proof.
  unfold rectangular. rewrite forallb_forall. intros H Hr.
  apply Nat.eqb_eq. now apply H.
Qed.

Lemma column_map2d g y m j :
  rectangular m y = true -> (j < m)%nat ->
  column (map2d g y) j = map g (column y j).
Proof.
  intros Hy Hj. unfold column, map2d. rewrite !map_map.
  apply map_ext_in. intros r Hr.
  rewrite (nth_indep _ (Num 0) (g (Num 0))).
  - apply map_nth.
  - rewrite length_map, (rectangular_in _ _ _ _ Hy Hr). exact Hj.
Qed.

Lemma tf_matmul_inv x y v :
  tf_matmul x y = Ok v ->
  rectangular (length y) x = true /\ rectangular (num_cols y) y = true /\
  v = map (fun xr => map (fun j => dot xr (column y j)) (seq 0 (num_cols y))) x.
Proof.
  unfold tf_matmul.
  destruct (rectangular (length y) x) eqn:Ex, (rectangular (num_cols y) y) eqn:Ey;
    simpl; try discriminate.
  intros [= <-]. auto.
Qed.

Lemma tf_matmul_map2d f g x y v :
  tf_matmul x y = Ok v ->
  tf_matmul (map2d f x) (map2d g y) =
  Ok (map (fun xr => map (fun j => dot (map f xr) (map g (column y j)))
                         (seq 0 (num_cols y))) x).
Proof.
  intro H. apply tf_matmul_inv in H. destruct H as (Hx & Hy & _).
  unfold tf_matmul.
  rewrite num_cols_map2d, !rectangular_map2d.
  unfold map2d at 1. rewrite length_map, Hx, Hy. simpl.
  f_equal. unfold map2d. rewrite map_map.
  apply map_ext. intro xr. apply map_ext_in. intros j Hj.
  apply in_seq in Hj. fold (map2d g y).
  rewrite (column_map2d g _ _ _ Hy); [reflexivity | lia].
Qed.

Lemma concat_grid (F : list fval -> nat -> fval) x m :
  concat (map (fun xr => map (fun j => F xr j) (seq 0 m)) x) =
  map (fun c => F (fst c) (snd c)) (cells x m).
Proof.
  unfold cells. induction x as [|xr x IH]; simpl; [reflexivity|].
  rewrite map_app, map_map, IH. reflexivity.
Qed.

Lemma map_nth_seq (A B : Type) (H : A -> B) (d : A) l :
  map (fun p => H (nth p l d)) (seq 0 (length l)) = map H l.
Proof.
  rewrite <- (map_map (fun p => nth p l d) H). f_equal.
  induction l as [|a l IH]; simpl; [reflexivity|].
  f_equal. rewrite <- seq_shift, map_map. exact IH.
Qed.

Lemma nth_map_in_range (A B : Type) (G : A -> B) (dA : A) (dB : B) l p :
  (p < length l)%nat -> nth p (map G l) dB = G (nth p l dA).
Proof.
  intro Hp. rewrite (nth_indep _ dB (G dA)); [apply map_nth | now rewrite length_map].
Qed.

(** [np.stack] of matrices given cell by cell. *)
Lemma np_stack_cells (C : Type) (d : C) (Ms : list (matrix fval)) (Fs : list (C -> fval))
  (cs : list C) :
  Fs <> [] ->
  map (@concat fval) Ms = map (fun F => map F cs) Fs ->
  np_stack Ms = mk_ndarray (length Ms) (map (fun c => map (fun F => F c) Fs) cs).
Proof.
  intros HF HM. unfold np_stack. rewrite HM. f_equal.
  destruct Fs as [|F0 Fs]; [congruence|].
  cbn [map]. rewrite length_map.
  rewrite <- (map_nth_seq _ _ (fun c => F0 c :: map (fun F => F c) Fs) d cs).
  apply map_ext_in. intros p Hp. apply in_seq in Hp.
  rewrite (nth_map_in_range _ _ F0 d) by lia. f_equal.
  rewrite map_map. apply map_ext. intro F.
  apply (nth_map_in_range _ _ F d). lia.
Qed.

Lemma Forall2_map_same (A B C : Type) (R : B -> C -> Prop) (f : A -> B) (g : A -> C) l :
  (forall a, In a l -> R (f a) (g a)) -> Forall2 R (map f l) (map g l).
Proof.
  induction l as [|a l IH]; intro H; simpl; constructor.
  - apply H. now left.
  - apply IH. intros b Hb. apply H. now right.
Qed.

Lemma in_cells x m c : In c (cells x m) -> In (fst c) x /\ (snd c < m)%nat.
Proof.
  unfold cells. rewrite in_flat_map. intros (xr & Hx & Hc).
  apply in_map_iff in Hc. destruct Hc as (j & <- & Hj). apply in_seq in Hj.
  simpl. split; [exact Hx | lia].
Qed.

Lemma column_num y j : Forall (Forall is_num) y -> Forall is_num (column y j).
Proof.
  intro Hy. unfold column. apply Forall_forall. intros v Hv.
  apply in_map_iff in Hv. destruct Hv as (r & <- & Hr).
  rewrite Forall_forall in Hy. specialize (Hy r Hr). rewrite Forall_forall in Hy.
  destruct (nth_in_or_default j r (Num 0)) as [Hin | ->]; [now apply Hy | exact I].
Qed.

Lemma Forall_is_num_concat x : Forall (Forall is_num) x -> Forall is_num (concat x).
Proof. intro H. now apply Forall_concat. Qed.

Lemma zip_with_map_map (A B C A' B' : Type) (f : A -> B -> C) (g : A' -> A) (h : B' -> B) a :
  forall b, zip_with f (map g a) (map h b) = zip_with (fun x y => f (g x) (h y)) a b.
Proof.
  induction a as [|x a IH]; intros [|y b]; simpl; try reflexivity.
  now rewrite IH.
Qed.

Lemma same_shape_map2d (A B A' B' : Type) (f : A -> A') (g : B -> B') x y :
  same_shape (map2d f x) (map2d g y) = same_shape x y.
Proof.
  unfold same_shape, map2d. rewrite !length_map. f_equal.
  revert y. induction x as [|r x IH]; intros [|r' y]; simpl; try reflexivity.
  now rewrite !length_map, IH.
Qed.

Lemma zip_with_combine (A B C : Type) (h : A -> B -> C) a : forall b,
  zip_with h a b = map (fun c => h (fst c) (snd c)) (combine a b).
Proof.
  induction a as [|u a IH]; intros [|v b]; simpl; try reflexivity. now rewrite IH.
Qed.

Lemma combine_app_same (A B : Type) (a a' : list A) : forall (b b' : list B),
  length a = length b -> combine (a ++ a') (b ++ b') = combine a b ++ combine a' b'.
Proof.
  induction a as [|u a IH]; intros [|v b] b' H; simpl in *; try discriminate; [reflexivity|].
  injection H as H. now rewrite IH.
Qed.

Lemma concat_zip2d (h : fval -> fval -> fval) x : forall y,
  same_shape x y = true ->
  concat (zip2d h x y) = map (fun c => h (fst c) (snd c)) (combine (concat x) (concat y)).
Proof.
  unfold same_shape, zip2d.
  induction x as [|r x IH]; intros [|r' y] H; try reflexivity;
    apply andb_true_iff in H; destruct H as [Hl H]; try discriminate.
  cbn [combine forallb fst snd] in H.
  apply andb_true_iff in H. destruct H as [Hr H]. apply Nat.eqb_eq in Hl, Hr.
  cbn [zip_with concat]. cbn [length] in Hl.
  rewrite combine_app_same by exact Hr. rewrite map_app, <- zip_with_combine.
  f_equal. apply IH. apply andb_true_iff. split; [apply Nat.eqb_eq; lia | exact H].
Qed.

Lemma stretch_map (A B : Type) (f : A -> B) n l : stretch n (map f l) = map f (stretch n l).
Proof.
  destruct l as [|a [|b l]]; simpl; try reflexivity.
  symmetry. apply map_repeat.
Qed.

Lemma broadcast_to_map2d (A B : Type) (f : A -> B) x r c :
  broadcast_to (map2d f x) r c = map2d f (broadcast_to x r c).
Proof.
  unfold broadcast_to, map2d. rewrite <- stretch_map. f_equal.
  rewrite !map_map. apply map_ext. intro row. apply stretch_map.
Qed.

Lemma broadcast_arrays_map2d (A B A' B' : Type) (f : A -> A') (g : B -> B') x y :
  broadcast_arrays (map2d f x) (map2d g y)
  = match broadcast_arrays x y with
    | Some (xb, yb) => Some (map2d f xb, map2d g yb)
    | None => None
    end.
Proof.
  unfold broadcast_arrays. rewrite !num_cols_map2d.
  unfold map2d at 1 2. rewrite !length_map.
  destruct (broadcast_dim (length x) (length y)) as [r|]; [|reflexivity].
  destruct (broadcast_dim (num_cols x) (num_cols y)) as [c|]; [|reflexivity].
  now rewrite !broadcast_to_map2d.
Qed.

Lemma stretch_length_l (A : Type) n m r (l : list A) :
  broadcast_dim n m = Some r -> length l = n -> length (stretch r l) = r.
Proof.
  unfold broadcast_dim. intros H Hl.
  destruct (Nat.eqb n m) eqn:E1.
  - injection H as <-. destruct l as [|a [|b l]]; simpl in *; try lia.
    subst n. simpl. reflexivity.
  - destruct (Nat.eqb n 1) eqn:E2.
    + injection H as <-. apply Nat.eqb_eq in E2. subst n.
      destruct l as [|a [|b l]]; simpl in *; try discriminate.
      apply repeat_length.
    + destruct (Nat.eqb m 1); [|discriminate]. injection H as <-.
      apply Nat.eqb_neq in E2.
      destruct l as [|a [|b l]]; simpl in *; lia.
Qed.

Lemma broadcast_dim_comm n m : broadcast_dim n m = broadcast_dim m n.
Proof.
  unfold broadcast_dim. rewrite (Nat.eqb_sym m n).
  destruct (Nat.eqb n m) eqn:E; [apply Nat.eqb_eq in E; now subst|].
  destruct (Nat.eqb n 1) eqn:E1, (Nat.eqb m 1) eqn:E2; try reflexivity.
  apply Nat.eqb_eq in E1, E2. apply Nat.eqb_neq in E. lia.
Qed.

Lemma stretch_length_r (A : Type) n m r (l : list A) :
  broadcast_dim n m = Some r -> length l = m -> length (stretch r l) = r.
Proof. rewrite broadcast_dim_comm. apply stretch_length_l. Qed.

Lemma stretch_in (A : Type) n (l : list A) a : In a (stretch n l) -> In a l.
Proof.
  destruct l as [|b [|b' l]]; simpl; try tauto.
  intro H. apply repeat_spec in H. now left.
Qed.

Lemma broadcast_to_Forall (A : Type) (P : A -> Prop) x r c :
  Forall (Forall P) x -> Forall (Forall P) (broadcast_to x r c).
Proof.
  intro H. unfold broadcast_to. apply Forall_forall. intros row Hrow.
  apply stretch_in, in_map_iff in Hrow. destruct Hrow as (row0 & <- & Hrow0).
  rewrite Forall_forall in H. specialize (H _ Hrow0).
  apply Forall_forall. intros a Ha. apply stretch_in in Ha.
  rewrite Forall_forall in H. auto.
Qed.

Lemma broadcast_arrays_Forall (A B : Type) (P : A -> Prop) (Q : B -> Prop) x y xb yb :
  broadcast_arrays x y = Some (xb, yb) ->
  (Forall (Forall P) x -> Forall (Forall P) xb) /\
  (Forall (Forall Q) y -> Forall (Forall Q) yb).
Proof.
  unfold broadcast_arrays.
  destruct (broadcast_dim (length x) (length y)) as [r|]; [|discriminate].
  destruct (broadcast_dim (num_cols x) (num_cols y)) as [c|]; [|discriminate].
  intros [= <- <-]. split; apply broadcast_to_Forall.
Qed.

(** A matrix of [r] rows of length [c]. *)
Lemma same_shape_grid (A B : Type) (x : matrix A) (y : matrix B) r c :
  length x = r -> Forall (fun row => length row = c) x ->
  length y = r -> Forall (fun row => length row = c) y ->
  same_shape x y = true.
Proof.
  unfold same_shape. intros Hx Hxr Hy Hyr.
  rewrite Hx, Hy, Nat.eqb_refl. simpl.
  apply forallb_forall. intros [u v] Hin. simpl.
  rewrite Forall_forall in Hxr, Hyr.
  rewrite (Hxr u (in_combine_l _ _ _ _ Hin)), (Hyr v (in_combine_r _ _ _ _ Hin)).
  apply Nat.eqb_refl.
Qed.

Lemma broadcast_to_grid_l (A : Type) (x : matrix A) n m k k' r c :
  length x = n -> rectangular k x = true ->
  broadcast_dim n m = Some r -> broadcast_dim k k' = Some c ->
  length (broadcast_to x r c) = r /\ Forall (fun row => length row = c) (broadcast_to x r c).
Proof.
  intros Hn Hk Hr Hc. unfold broadcast_to. split.
  - apply (stretch_length_l _ n m); [exact Hr | now rewrite length_map].
  - apply Forall_forall. intros row Hrow. apply stretch_in, in_map_iff in Hrow.
    destruct Hrow as (row0 & <- & Hrow0).
    apply (stretch_length_l _ k k'); [exact Hc|].
    now apply (rectangular_in _ _ x).
Qed.

Lemma broadcast_to_grid_r (A : Type) (y : matrix A) n m k k' r c :
  length y = m -> rectangular k' y = true ->
  broadcast_dim n m = Some r -> broadcast_dim k k' = Some c ->
  length (broadcast_to y r c) = r /\ Forall (fun row => length row = c) (broadcast_to y r c).
Proof.
  intros Hm Hk Hr Hc. rewrite broadcast_dim_comm in Hr, Hc.
  now apply (broadcast_to_grid_l _ y m n k' k).
Qed.

(** What [tf_multiply] returns, and what it returns on the class parts of
    its operands. *)
Lemma tf_multiply_map2d x y v :
  tf_multiply x y = Ok v ->
  exists xb yb,
    broadcast_arrays x y = Some (xb, yb) /\
    same_shape xb yb = true /\
    v = zip2d fmul xb yb /\
    forall f g : fval -> fval,
      tf_multiply (map2d f x) (map2d g y) = Ok (zip2d (fun a b => fmul (f a) (g b)) xb yb).
Proof.
  unfold tf_multiply.
  destruct (rectangular (num_cols x) x) eqn:Rx; [|discriminate].
  destruct (rectangular (num_cols y) y) eqn:Ry; [|discriminate]. cbn [andb].
  destruct (broadcast_arrays x y) as [[xb yb]|] eqn:E; [|discriminate].
  intros [= <-]. exists xb, yb. split; [reflexivity|].
  assert (Hsh : same_shape xb yb = true).
  { unfold broadcast_arrays in E.
    destruct (broadcast_dim (length x) (length y)) as [r|] eqn:Er; [|discriminate].
    destruct (broadcast_dim (num_cols x) (num_cols y)) as [c|] eqn:Ec; [|discriminate].
    injection E as <- <-.
    destruct (broadcast_to_grid_l _ x _ _ _ _ r c Logic.eq_refl Rx Er Ec) as [H1 H2].
    destruct (broadcast_to_grid_r _ y _ _ _ _ r c Logic.eq_refl Ry Er Ec) as [H3 H4].
    now apply (same_shape_grid _ _ _ _ r c). }
  split; [exact Hsh|]. split; [reflexivity|].
  intros f g. rewrite !num_cols_map2d, !rectangular_map2d, Rx, Ry. cbn [andb].
  rewrite broadcast_arrays_map2d, E. f_equal.
  unfold zip2d, map2d. rewrite zip_with_map_map.
  clear. revert yb. induction xb as [|r xb IH]; intros [|r' yb]; simpl; try reflexivity.
  now rewrite zip_with_map_map, IH.
Qed.

Lemma stretch_same (A : Type) (l : list A) : stretch (length l) l = l.
Proof. destruct l as [|a [|b l]]; reflexivity. Qed.

Lemma broadcast_dim_same n : broadcast_dim n n = Some n.
Proof. unfold broadcast_dim. now rewrite Nat.eqb_refl. Qed.

Lemma same_shape_num_cols (A B : Type) (x : matrix A) (y : matrix B) :
  same_shape x y = true -> length x = length y /\ num_cols x = num_cols y.
Proof.
  unfold same_shape. intro H. apply andb_true_iff in H. destruct H as [Hl H].
  apply Nat.eqb_eq in Hl. split; [exact Hl|].
  destruct x as [|r x], y as [|r' y]; simpl in *; try discriminate; [reflexivity|].
  apply andb_true_iff in H. destruct H as [H _]. now apply Nat.eqb_eq in H.
Qed.

Lemma broadcast_to_same (A : Type) (x : matrix A) :
  rectangular (num_cols x) x = true -> broadcast_to x (length x) (num_cols x) = x.
Proof.
  intro R. unfold broadcast_to.
  assert (E : map (stretch (num_cols x)) x = x).
  { transitivity (map (fun row : list A => row) x); [|apply map_id].
    apply map_ext_in. intros row Hrow.
    rewrite <- (rectangular_in _ _ _ _ R Hrow). apply stretch_same. }
  rewrite E. apply stretch_same.
Qed.

(** Operands of one shape are not changed by broadcasting. *)
Lemma broadcast_arrays_same_shape (A B : Type) (x : matrix A) (y : matrix B) :
  rectangular (num_cols x) x = true -> rectangular (num_cols y) y = true ->
  same_shape x y = true ->
  broadcast_arrays x y = Some (x, y).
Proof.
  intros Rx Ry H. destruct (same_shape_num_cols _ _ _ _ H) as [Hl Hc].
  unfold broadcast_arrays. rewrite <- Hl, <- Hc, !broadcast_dim_same.
  rewrite (broadcast_to_same _ x Rx).
  rewrite Hl, Hc, (broadcast_to_same _ y Ry). reflexivity.
Qed.

(** Nine products of the class parts of two numbers add up to their
    product. *)
Lemma nine_products tx ty u v :
  is_num u -> is_num v ->
  feq (np_sum
         [fmul (masked (pos_class tx) u) (masked (pos_class ty) v);
          fmul (masked (pos_class tx) u) (masked (zero_class ty) v);
          fmul (masked (pos_class tx) u) (masked (neg_class ty) v);
          fmul (masked (zero_class tx) u) (masked (pos_class ty) v);
          fmul (masked (zero_class tx) u) (masked (zero_class ty) v);
          fmul (masked (zero_class tx) u) (masked (neg_class ty) v);
          fmul (masked (neg_class tx) u) (masked (pos_class ty) v);
          fmul (masked (neg_class tx) u) (masked (zero_class ty) v);
          fmul (masked (neg_class tx) u) (masked (neg_class ty) v)])
      (fmul u v).
Proof.
  intros Hu Hv.
  destruct (is_num_exists _ Hu) as [p ->]. destruct (is_num_exists _ Hv) as [q ->].
  pose proof (class_partition_num tx p) as Hp. pose proof (class_partition_num ty q) as Hq.
  unfold masked.
  destruct (pos_class tx (Num p)), (zero_class tx (Num p)), (neg_class tx (Num p));
    simpl in Hp; try discriminate;
    destruct (pos_class ty (Num q)), (zero_class ty (Num q)), (neg_class ty (Num q));
    simpl in Hq; try discriminate; simpl; lra.
Qed.

(** The three class parts of a number add up to the number. *)
Lemma three_parts t v :
  is_num v ->
  feq (np_sum [masked (pos_class t) v; masked (zero_class t) v; masked (neg_class t) v]) v.
Proof.
  intro Hv. destruct (is_num_exists _ Hv) as [q ->].
  pose proof (masked_split t q) as H. unfold masked in *.
  destruct (pos_class t (Num q)), (zero_class t (Num q)), (neg_class t (Num q));
    simpl in *; lra.
Qed.

Section Conservation.

Context {AS : ArgSort}.

Lemma percentile_total x q : x <> [] -> exists t, percentile x q = Ok t.
Proof. destruct x; [congruence | intros _; simpl; eauto]. Qed.

Lemma derive_threshold_total x confidence threshold :
  concat x <> [] -> exists t, derive_threshold x confidence threshold = Ok t.
Proof.
  intro Hx. destruct threshold as [t|]; simpl; [eauto|].
  apply percentile_total. unfold tf_abs, map2d. rewrite <- concat_map.
  intro H. apply map_eq_nil in H. contradiction.
Qed.

(** Conservation for [matmul_classify]. *)
Lemma matmul_conservation x y confidence thresholds t1 t2 v :
  Forall (Forall is_num) x ->
  Forall (Forall is_num) y ->
  concat x <> [] ->
  concat y <> [] ->
  _parse_thresholds_arg thresholds = Ok (t1, t2) ->
  tf_matmul x y = Ok v ->
  exists counts sums thr,
    matmul_classify x y confidence thresholds = Ok (counts, sums, thr) /\
    channels sums = 9%nat /\
    Forall (fun row => length row = 9%nat) (positions sums) /\
    Forall2 feq (map np_sum (positions sums)) (concat v).
Proof.
  intros Hx Hy Hxe Hye Hparse Hv.
  unfold matmul_classify, classify_with. rewrite Hparse. simpl bind.
  rewrite !classification_mask_elementwise.
  destruct (derive_threshold_total x confidence t1 Hxe) as [tx ->].
  destruct (derive_threshold_total y confidence t2 Hye) as [ty ->].
  simpl bind. unfold tf_cast. rewrite !map2d_map2d.
  rewrite !(tf_matmul_map2d _ _ _ _ _ Hv). simpl bind.
  rewrite !tf_where_masked, !(tf_matmul_map2d _ _ _ _ _ Hv). simpl bind.
  do 3 eexists. split; [reflexivity|].
  set (m := num_cols y).
  set (Fs := [
    (fun c : list fval * nat =>
       dot (map (masked (pos_class tx)) (fst c)) (map (masked (pos_class ty)) (column y (snd c))));
    (fun c => dot (map (masked (pos_class tx)) (fst c)) (map (masked (zero_class ty)) (column y (snd c))));
    (fun c => dot (map (masked (pos_class tx)) (fst c)) (map (masked (neg_class ty)) (column y (snd c))));
    (fun c => dot (map (masked (zero_class tx)) (fst c)) (map (masked (pos_class ty)) (column y (snd c))));
    (fun c => dot (map (masked (zero_class tx)) (fst c)) (map (masked (zero_class ty)) (column y (snd c))));
    (fun c => dot (map (masked (zero_class tx)) (fst c)) (map (masked (neg_class ty)) (column y (snd c))));
    (fun c => dot (map (masked (neg_class tx)) (fst c)) (map (masked (pos_class ty)) (column y (snd c))));
    (fun c => dot (map (masked (neg_class tx)) (fst c)) (map (masked (zero_class ty)) (column y (snd c))));
    (fun c => dot (map (masked (neg_class tx)) (fst c)) (map (masked (neg_class ty)) (column y (snd c))))]).
  rewrite (np_stack_cells _ ([], 0%nat) _ Fs (cells x m)).
  - simpl channels. simpl positions. split; [reflexivity|]. split.
    + apply Forall_forall. intros row Hrow. apply in_map_iff in Hrow.
      destruct Hrow as (c & <- & _). reflexivity.
    + apply tf_matmul_inv in Hv. destruct Hv as (_ & _ & ->). fold m.
      rewrite (concat_grid (fun xr j => dot xr (column y j))), map_map.
      apply Forall2_map_same. intros c Hc. apply in_cells in Hc. destruct Hc as [Hc _].
      unfold Fs. cbn [map]. apply nine_dots.
      * rewrite Forall_forall in Hx. now apply Hx.
      * now apply column_num.
  - discriminate.
  - unfold Fs. cbn [map].
    rewrite !(concat_grid (fun xr j => dot (map _ xr) (map _ (column y j)))).
    reflexivity.
Qed.

(** Conservation for [multiply_classify]. *)
Lemma multiply_conservation x y confidence thresholds t1 t2 v :
  Forall (Forall is_num) x ->
  Forall (Forall is_num) y ->
  concat x <> [] ->
  concat y <> [] ->
  _parse_thresholds_arg thresholds = Ok (t1, t2) ->
  tf_multiply x y = Ok v ->
  exists counts sums thr,
    multiply_classify x y confidence thresholds = Ok (counts, sums, thr) /\
    channels sums = 9%nat /\
    Forall (fun row => length row = 9%nat) (positions sums) /\
    Forall2 feq (map np_sum (positions sums)) (concat v).
Proof.
  intros Hx Hy Hxe Hye Hparse Hv.
  unfold multiply_classify, classify_with. rewrite Hparse. simpl bind.
  rewrite !classification_mask_elementwise.
  destruct (derive_threshold_total x confidence t1 Hxe) as [tx ->].
  destruct (derive_threshold_total y confidence t2 Hye) as [ty ->].
  simpl bind. unfold tf_cast. rewrite !map2d_map2d.
  destruct (tf_multiply_map2d x y v Hv) as (xb & yb & Hb & Hsh & -> & Hm).
  destruct (broadcast_arrays_Forall _ _ is_num is_num _ _ _ _ Hb) as [Hxb Hyb].
  specialize (Hxb Hx). specialize (Hyb Hy).
  rewrite !Hm. simpl bind. rewrite !tf_where_masked, !Hm. simpl bind.
  do 3 eexists. split; [reflexivity|].
  set (Fs := [
    (fun c : fval * fval => fmul (masked (pos_class tx) (fst c)) (masked (pos_class ty) (snd c)));
    (fun c => fmul (masked (pos_class tx) (fst c)) (masked (zero_class ty) (snd c)));
    (fun c => fmul (masked (pos_class tx) (fst c)) (masked (neg_class ty) (snd c)));
    (fun c => fmul (masked (zero_class tx) (fst c)) (masked (pos_class ty) (snd c)));
    (fun c => fmul (masked (zero_class tx) (fst c)) (masked (zero_class ty) (snd c)));
    (fun c => fmul (masked (zero_class tx) (fst c)) (masked (neg_class ty) (snd c)));
    (fun c => fmul (masked (neg_class tx) (fst c)) (masked (pos_class ty) (snd c)));
    (fun c => fmul (masked (neg_class tx) (fst c)) (masked (zero_class ty) (snd c)));
    (fun c => fmul (masked (neg_class tx) (fst c)) (masked (neg_class ty) (snd c)))]).
  rewrite (np_stack_cells _ (Num 0, Num 0) _ Fs (combine (concat xb) (concat yb))).
  - simpl channels. simpl positions. split; [reflexivity|]. split.
    + apply Forall_forall. intros row Hrow. apply in_map_iff in Hrow.
      destruct Hrow as (c & <- & _). reflexivity.
    + rewrite (concat_zip2d fmul xb yb Hsh), map_map.
      apply Forall2_map_same. intros [u w] Hc.
      unfold Fs. cbn [map fst snd]. apply nine_products.
      * apply in_combine_l in Hc.
        pose proof (Forall_is_num_concat xb Hxb) as H. rewrite Forall_forall in H. auto.
      * apply in_combine_r in Hc.
        pose proof (Forall_is_num_concat yb Hyb) as H. rewrite Forall_forall in H. auto.
  - discriminate.
  - unfold Fs. cbn [map].
    rewrite !(concat_zip2d (fun a b => fmul (masked _ a) (masked _ b)) xb yb Hsh).
    reflexivity.
Qed.

(** Conservation for [tensor_classify]. *)
Lemma tensor_conservation x confidence threshold :
  Forall (Forall is_num) x ->
  concat x <> [] ->
  exists counts sums thr,
    tensor_classify x confidence threshold = Ok (counts, sums, thr) /\
    channels sums = 3%nat /\
    Forall (fun row => length row = 3%nat) (positions sums) /\
    Forall2 feq (map np_sum (positions sums)) (concat x).
Proof.
  intros Hx Hxe. unfold tensor_classify.
  rewrite classification_mask_elementwise.
  destruct (derive_threshold_total x confidence threshold Hxe) as [t ->].
  simpl bind. rewrite !tf_where_masked.
  do 3 eexists. split; [reflexivity|].
  set (Fs := [masked (pos_class t); masked (zero_class t); masked (neg_class t)]).
  rewrite (np_stack_cells _ (Num 0) _ Fs (concat x)).
  - simpl channels. simpl positions. split; [reflexivity|]. split.
    + apply Forall_forall. intros row Hrow. apply in_map_iff in Hrow.
      destruct Hrow as (c & <- & _). reflexivity.
    + rewrite map_map. rewrite <- (map_id (concat x)) at 2.
      apply Forall2_map_same. intros v Hv.
      unfold Fs. cbn [map]. apply three_parts.
      pose proof (Forall_is_num_concat x Hx) as H. rewrite Forall_forall in H. auto.
  - discriminate.
  - unfold Fs, map2d. cbn [map]. now rewrite <- !concat_map.
Qed.

Lemma nth_masked c l i : nth i (map (masked c) l) (Num 0) = masked c (nth i l (Num 0)).
Proof.
  assert (E : masked c (Num 0) = Num 0) by (unfold masked; now destruct (c (Num 0))).
  rewrite <- E at 1. apply map_nth.
Qed.

Lemma gather_num (A : Type) (g : A -> nat) l (ps : list A) :
  Forall is_num l -> Forall is_num (map (fun p => nth (g p) l (Num 0)) ps).
Proof.
  intro Hl. apply Forall_forall. intros v Hv. apply in_map_iff in Hv.
  destruct Hv as (p & <- & _).
  destruct (nth_in_or_default (g p) l (Num 0)) as [Hin | ->]; [|exact I].
  rewrite Forall_forall in Hl. now apply Hl.
Qed.

(** A multiply-accumulate operation on the class parts of its operands. *)
Lemma multiply_accumulate_map layout (f g : fval -> fval) x y out_shape pairs :
  layout (shape x) (shape y) = Some (out_shape, pairs) ->
  multiply_accumulate layout (mk_tensor (shape x) (map f (values x)))
                             (mk_tensor (shape y) (map g (values y)))
  = Ok (mk_tensor out_shape
          (map (fun ps => dot (map (fun p => nth (fst p) (map f (values x)) (Num 0)) ps)
                              (map (fun p => nth (snd p) (map g (values y)) (Num 0)) ps))
               pairs)).
Proof.
  intro H. unfold multiply_accumulate. cbn [shape values].
  now rewrite H.
Qed.

(** Conservation for the nine-term construction over a multiply-accumulate
    operation, whatever its index structure. *)
Lemma tensors_conservation layout x y confidence thresholds t1 t2 v :
  Forall is_num (values x) ->
  Forall is_num (values y) ->
  values x <> [] ->
  values y <> [] ->
  _parse_thresholds_arg thresholds = Ok (t1, t2) ->
  multiply_accumulate layout x y = Ok v ->
  exists counts sums thr,
    classify_tensors (multiply_accumulate layout) x y confidence thresholds
    = Ok (counts, sums, thr) /\
    channels sums = 9%nat /\
    Forall (fun row => length row = 9%nat) (positions sums) /\
    Forall2 feq (map np_sum (positions sums)) (values v).
Proof.
  intros Hx Hy Hxe Hye Hparse Hv.
  unfold multiply_accumulate in Hv.
  destruct (layout (shape x) (shape y)) as [[out_shape pairs]|] eqn:Hl; [|discriminate].
  injection Hv as <-.
  unfold classify_tensors, classify_with. rewrite Hparse. cbn [bind].
  rewrite !classification_mask_elementwise.
  destruct (derive_threshold_total [values x] confidence t1) as [tx ->].
  { simpl. now rewrite app_nil_r. }
  destruct (derive_threshold_total [values y] confidence t2) as [ty ->].
  { simpl. now rewrite app_nil_r. }
  cbn [bind]. unfold tf_cast. rewrite !map2d_map2d, !tf_where_masked.
  unfold map2d. cbn [map concat]. rewrite !app_nil_r.
  rewrite !(multiply_accumulate_map layout _ _ x y out_shape pairs Hl).
  cbn [bind sequence values].
  do 3 eexists. split; [reflexivity|].
  set (A := fun ps : list (nat * nat) => map (fun p => nth (fst p) (values x) (Num 0)) ps).
  set (B := fun ps : list (nat * nat) => map (fun p => nth (snd p) (values y) (Num 0)) ps).
  set (Fs := [
    (fun ps => dot (map (masked (pos_class tx)) (A ps)) (map (masked (pos_class ty)) (B ps)));
    (fun ps => dot (map (masked (pos_class tx)) (A ps)) (map (masked (zero_class ty)) (B ps)));
    (fun ps => dot (map (masked (pos_class tx)) (A ps)) (map (masked (neg_class ty)) (B ps)));
    (fun ps => dot (map (masked (zero_class tx)) (A ps)) (map (masked (pos_class ty)) (B ps)));
    (fun ps => dot (map (masked (zero_class tx)) (A ps)) (map (masked (zero_class ty)) (B ps)));
    (fun ps => dot (map (masked (zero_class tx)) (A ps)) (map (masked (neg_class ty)) (B ps)));
    (fun ps => dot (map (masked (neg_class tx)) (A ps)) (map (masked (pos_class ty)) (B ps)));
    (fun ps => dot (map (masked (neg_class tx)) (A ps)) (map (masked (zero_class ty)) (B ps)));
    (fun ps => dot (map (masked (neg_class tx)) (A ps)) (map (masked (neg_class ty)) (B ps)))]).
  rewrite (np_stack_cells _ [] _ Fs pairs).
  - simpl channels. simpl positions. split; [reflexivity|]. split.
    + apply Forall_forall. intros row Hrow. apply in_map_iff in Hrow.
      destruct Hrow as (c & <- & _). reflexivity.
    + rewrite map_map.
      apply Forall2_map_same. intros ps _.
      unfold Fs. cbn [map]. apply nine_dots.
      * unfold A. now apply gather_num.
      * unfold B. now apply gather_num.
  - discriminate.
  - assert (E : forall c1 c2 ps,
               dot (map (fun p => nth (fst p) (map (masked c1) (values x)) (Num 0)) ps)
                   (map (fun p => nth (snd p) (map (masked c2) (values y)) (Num 0)) ps)
               = dot (map (masked c1) (A ps)) (map (masked c2) (B ps))).
    { intros c1 c2 ps. unfold A, B. rewrite !map_map.
      f_equal; apply map_ext; intro p; apply nth_masked. }
    unfold Fs. cbn [map concat]. rewrite !app_nil_r.
    repeat match goal with |- _ :: _ = _ :: _ => f_equal end;
      apply map_ext; intro ps; apply E.
Qed.

(** C1 (amended).  For finite inputs, whose elements are numbers, neither
    NaN nor infinite (non-empty, with a [thresholds] argument that parses),
    the sums returned by every function of the classify family hold nine
    terms per output position (three for [tensor_classify]), and their sum
    over the term axis equals the un-classified result at every output
    position, in exact arithmetic, whenever the un-classified operation
    is defined: [matmul(x, y)] for [matmul_classify], [multiply(x, y)]
    with its broadcasting for [multiply_classify], [x] itself for
    [tensor_classify], and [tensordot], the convolution and the filter
    gradient, whatever their index structure, for [tensordot_classify],
    [conv_classify] and [conv_backprop_filter_classify]. *)
Theorem classify_conservation x y a b
  tensordot_layout convolution_layout conv_backprop_filter_layout
  axes strides padding kernel_shape confidence thresholds t1 t2 :
  Forall (Forall is_num) x ->
  Forall (Forall is_num) y ->
  concat x <> [] ->
  concat y <> [] ->
  Forall is_num (values a) ->
  Forall is_num (values b) ->
  values a <> [] ->
  values b <> [] ->
  _parse_thresholds_arg thresholds = Ok (t1, t2) ->
  (forall v, tf_matmul x y = Ok v ->
     exists counts sums thr,
       matmul_classify x y confidence thresholds = Ok (counts, sums, thr) /\
       channels sums = 9%nat /\
       Forall (fun row => length row = 9%nat) (positions sums) /\
       Forall2 feq (map np_sum (positions sums)) (concat v)) /\
  (forall v, tf_multiply x y = Ok v ->
     exists counts sums thr,
       multiply_classify x y confidence thresholds = Ok (counts, sums, thr) /\
       channels sums = 9%nat /\
       Forall (fun row => length row = 9%nat) (positions sums) /\
       Forall2 feq (map np_sum (positions sums)) (concat v)) /\
  (exists counts sums thr,
     tensor_classify x confidence t1 = Ok (counts, sums, thr) /\
     channels sums = 3%nat /\
     Forall (fun row => length row = 3%nat) (positions sums) /\
     Forall2 feq (map np_sum (positions sums)) (concat x)) /\
  (forall v, tf_tensordot tensordot_layout a b axes = Ok v ->
     exists counts sums thr,
       tensordot_classify tensordot_layout a b axes confidence thresholds
       = Ok (counts, sums, thr) /\
       channels sums = 9%nat /\
       Forall (fun row => length row = 9%nat) (positions sums) /\
       Forall2 feq (map np_sum (positions sums)) (values v)) /\
  (forall v, tf_nn_convolution convolution_layout a b strides padding = Ok v ->
     exists counts sums thr,
       conv_classify convolution_layout a b strides padding confidence thresholds
       = Ok (counts, sums, thr) /\
       channels sums = 9%nat /\
       Forall (fun row => length row = 9%nat) (positions sums) /\
       Forall2 feq (map np_sum (positions sums)) (values v)) /\
  (forall v, ct_conv_backprop_filter conv_backprop_filter_layout a b kernel_shape strides padding
             = Ok v ->
     exists counts sums thr,
       conv_backprop_filter_classify conv_backprop_filter_layout a b kernel_shape strides
         padding confidence thresholds
       = Ok (counts, sums, thr) /\
       channels sums = 9%nat /\
       Forall (fun row => length row = 9%nat) (positions sums) /\
       Forall2 feq (map np_sum (positions sums)) (values v)).
Proof.
  intros Hx Hy Hxe Hye Ha Hb Hae Hbe Hparse. split; [|split; [|split; [|split; [|split]]]].
  - intros v Hv. now apply (matmul_conservation x y confidence thresholds t1 t2 v).
  - intros v Hv. now apply (multiply_conservation x y confidence thresholds t1 t2 v).
  - now apply tensor_conservation.
  - intros v Hv.
    apply (tensors_conservation (tensordot_layout axes) a b confidence thresholds t1 t2 v);
      assumption.
  - intros v Hv.
    apply (tensors_conservation (convolution_layout strides padding) a b confidence thresholds
             t1 t2 v); assumption.
  - intros v Hv.
    apply (tensors_conservation (conv_backprop_filter_layout kernel_shape strides padding) a b
             confidence thresholds t1 t2 v); assumption.
Qed.

End Conservation.

(** C1, as stated, fails: with [x = [[NaN]]] and [y = [[1.0]]] the nine sums
    are all zero while [matmul(x, y)] is NaN. *)
Lemma matmul_classify_conservation_fails_on_nan :
  exists counts sums thr,
    @matmul_classify stable_argsort [[NaN]] [[Num 1]] (95 # 100) ThNone
      = Ok (counts, sums, thr) /\
    map np_sum (positions sums) = [Num 0] /\
    @tf_matmul [[NaN]] [[Num 1]] = Ok [[NaN]] /\
    ~ feq (Num 0) NaN.
Proof.
  do 3 eexists. split; [reflexivity|]. repeat split. intros [].
Qed.

Lemma classify_conservation_witness :
  (exists v counts sums thr,
     @tf_matmul [[Num 1; Num (-2)]] [[Num 3]; [Num 4]] = Ok v /\
     @matmul_classify stable_argsort [[Num 1; Num (-2)]] [[Num 3]; [Num 4]] (95 # 100) ThNone
       = Ok (counts, sums, thr) /\
     channels sums = 9%nat /\
     Forall (fun row => length row = 9%nat) (positions sums) /\
     Forall2 feq (map np_sum (positions sums)) (concat v)) /\
  (exists v counts sums thr,
     @tf_multiply [[Num 1; Num (-2)]] [[Num 3]; [Num 4]] = Ok v /\
     @multiply_classify stable_argsort [[Num 1; Num (-2)]] [[Num 3]; [Num 4]] (95 # 100) ThNone
       = Ok (counts, sums, thr) /\
     channels sums = 9%nat /\
     Forall (fun row => length row = 9%nat) (positions sums) /\
     Forall2 feq (map np_sum (positions sums)) (concat v)) /\
  (exists counts sums thr,
     @tensor_classify stable_argsort [[Num 1; Num (-2)]] (95 # 100) None
       = Ok (counts, sums, thr) /\
     channels sums = 3%nat /\
     Forall (fun row => length row = 3%nat) (positions sums) /\
     Forall2 feq (map np_sum (positions sums)) (concat [[Num 1; Num (-2)]])) /\
  (exists v counts sums thr,
     tf_tensordot sample_tensordot_layout sample_inputs sample_kernel (AxesInt 0) = Ok v /\
     @tensordot_classify stable_argsort sample_tensordot_layout sample_inputs sample_kernel
       (AxesInt 0) (95 # 100) ThNone
       = Ok (counts, sums, thr) /\
     channels sums = 9%nat /\
     Forall (fun row => length row = 9%nat) (positions sums) /\
     Forall2 feq (map np_sum (positions sums)) (values v)) /\
  (exists v counts sums thr,
     tf_nn_convolution sample_convolution_layout sample_inputs sample_kernel
       (StridesInt 1) "VALID" = Ok v /\
     @conv_classify stable_argsort sample_convolution_layout sample_inputs sample_kernel
       (StridesInt 1) "VALID" (95 # 100) ThNone
       = Ok (counts, sums, thr) /\
     channels sums = 9%nat /\
     Forall (fun row => length row = 9%nat) (positions sums) /\
     Forall2 feq (map np_sum (positions sums)) (values v)) /\
  (exists v counts sums thr,
     ct_conv_backprop_filter sample_conv_backprop_filter_layout sample_inputs sample_kernel
       [2; 1; 1]%nat (StridesInt 1) "VALID" = Ok v /\
     @conv_backprop_filter_classify stable_argsort sample_conv_backprop_filter_layout
       sample_inputs sample_kernel [2; 1; 1]%nat (StridesInt 1) "VALID" (95 # 100) ThNone
       = Ok (counts, sums, thr) /\
     channels sums = 9%nat /\
     Forall (fun row => length row = 9%nat) (positions sums) /\
     Forall2 feq (map np_sum (positions sums)) (values v)).
Proof.
  destruct (@classify_conservation stable_argsort
              [[Num 1; Num (-2)]] [[Num 3]; [Num 4]] sample_inputs sample_kernel
              sample_tensordot_layout sample_convolution_layout
              sample_conv_backprop_filter_layout
              (AxesInt 0) (StridesInt 1) "VALID"%string [2; 1; 1]%nat (95 # 100) ThNone None None)
    as (H1 & H2 & H3 & H4 & H5 & H6).
  - repeat constructor.
  - repeat constructor.
  - discriminate.
  - discriminate.
  - repeat constructor.
  - repeat constructor.
  - discriminate.
  - discriminate.
  - reflexivity.
  - split; [|split; [|split; [|split; [|split]]]].
    + destruct (H1 _ Logic.eq_refl) as (counts & sums & thr & H).
      eexists. exists counts, sums, thr. split; [reflexivity | exact H].
    + destruct (H2 _ Logic.eq_refl) as (counts & sums & thr & H).
      eexists. exists counts, sums, thr. split; [reflexivity | exact H].
    + exact H3.
    + destruct (H4 _ Logic.eq_refl) as (counts & sums & thr & H).
      eexists. exists counts, sums, thr. split; [reflexivity | exact H].
    + destruct (H5 _ Logic.eq_refl) as (counts & sums & thr & H).
      eexists. exists counts, sums, thr. split; [reflexivity | exact H].
    + destruct (H6 _ Logic.eq_refl) as (counts & sums & thr & H).
      eexists. exists counts, sums, thr. split; [reflexivity | exact H].
Defined.

(* ================================================================== *)
(** ** [stable_argsort] is a lawful [np.argsort] *)

Section StableArgsort.

Variable K : Type.
Variable leb : K -> K -> bool.

Lemma insert_by_perm p sorted : Permutation (insert_by leb p sorted) (p :: sorted).
Proof.
  induction sorted as [|r rest IH]; simpl; [reflexivity|].
  destruct (leb (snd p) (snd r)); [reflexivity|].
  rewrite IH. apply perm_swap.
Qed.

Lemma insertion_perm ps : Permutation (fold_right (insert_by leb) [] ps) ps.
Proof.
  induction ps as [|p ps IH]; simpl; [reflexivity|].
  rewrite insert_by_perm. now constructor.
Qed.

Hypothesis leb_total : forall a b, leb a b = true \/ leb b a = true.
Hypothesis leb_trans : forall a b c, leb a b = true -> leb b c = true -> leb a c = true.

Let by_key (p q : nat * K) : Prop := leb (snd p) (snd q) = true.

Lemma insert_by_sorted p sorted :
  StronglySorted by_key sorted -> StronglySorted by_key (insert_by leb p sorted).
Proof.
  induction sorted as [|r rest IH]; intro Hs; simpl.
  - repeat constructor.
  - inversion Hs as [|? ? Hrest Hall]; subst.
    destruct (leb (snd p) (snd r)) eqn:E.
    + constructor; [exact Hs|]. constructor; [exact E|].
      eapply Forall_impl; [|exact Hall]. intros q Hq. unfold by_key in *. eauto.
    + constructor; [now apply IH|].
      apply (Permutation_Forall (Permutation_sym (insert_by_perm p rest))).
      constructor; [|exact Hall].
      unfold by_key. destruct (leb_total (snd p) (snd r)); congruence.
Qed.

Lemma insertion_sorted ps : StronglySorted by_key (fold_right (insert_by leb) [] ps).
Proof.
  induction ps as [|p ps IH]; simpl; [constructor | now apply insert_by_sorted].
Qed.

End StableArgsort.

Lemma map_fst_combine_seq (K : Type) (l : list K) :
  map fst (combine (seq 0 (length l)) l) = seq 0 (length l).
Proof.
  generalize 0%nat. induction l as [|a l IH]; intro s; simpl; [reflexivity|].
  now rewrite IH.
Qed.

Lemma in_combine_seq_nth (K : Type) (d : K) (l : list K) : forall s i k,
  In (i, k) (combine (seq s (length l)) l) -> nth (i - s) l d = k.
Proof.
  induction l as [|a l IH]; intros s i k H; simpl in *; [contradiction|].
  destruct H as [H | H].
  - injection H as <- <-. now rewrite Nat.sub_diag.
  - assert (Hi : (S s <= i)%nat).
    { apply in_combine_l in H. apply in_seq in H. lia. }
    specialize (IH _ _ _ H).
    replace (i - s)%nat with (S (i - S s)) by lia. exact IH.
Qed.

Lemma stable_argsort_spec : ArgSortSpec stable_argsort.
Proof.
  split.
  - intros K leb l. unfold argsort, stable_argsort.
    rewrite <- (map_fst_combine_seq K l) at 2.
    apply Permutation_map. apply insertion_perm.
  - intros K leb d l Htot Htrans. unfold argsort, stable_argsort.
    rewrite map_map.
    pose proof (insertion_sorted K leb Htot Htrans (combine (seq 0 (length l)) l)) as Hs.
    pose proof (insertion_perm K leb (combine (seq 0 (length l)) l)) as Hp.
    assert (Hkey : forall p, In p (fold_right (insert_by leb) [] (combine (seq 0 (length l)) l))
                             -> nth (fst p) l d = snd p).
    { intros [i k] Hin. apply (Permutation_in _ Hp) in Hin.
      apply (in_combine_seq_nth K d) in Hin. now rewrite Nat.sub_0_r in Hin. }
    revert Hs Hkey.
    generalize (fold_right (insert_by leb) [] (combine (seq 0 (length l)) l)).
    induction 1 as [|p ps Hs IH Hall]; intro Hkey; simpl; constructor.
    + apply IH. intros q Hq. apply Hkey. now right.
    + apply Forall_forall. intros k Hk. apply in_map_iff in Hk.
      destruct Hk as (q & <- & Hq). rewrite Forall_forall in Hall.
      rewrite (Hkey p (or_introl eq_refl)), (Hkey q (or_intror Hq)).
      now apply Hall.
Qed.

(* ================================================================== *)
(** ** Sorting facts *)

Lemma take_along_axis_seq (A : Type) (d : A) l :
  take_along_axis d l (seq 0 (length l)) = l.
Proof.
  unfold take_along_axis.
  rewrite (map_nth_seq A A (fun a => a) d l). apply map_id.
Qed.

Lemma take_along_axis_perm (A : Type) (d : A) l idx :
  Permutation idx (seq 0 (length l)) -> Permutation (take_along_axis d l idx) l.
Proof.
  intro H. rewrite <- (take_along_axis_seq A d l) at 2.
  unfold take_along_axis. now apply Permutation_map.
Qed.

Lemma take_along_axis_length (A : Type) (d : A) l idx :
  length (take_along_axis d l idx) = length idx.
Proof. apply length_map. Qed.

Lemma StronglySorted_nth (A : Type) (R : A -> A -> Prop) (d : A) l :
  (forall a, R a a) -> StronglySorted R l ->
  forall i j, (i <= j < length l)%nat -> R (nth i l d) (nth j l d).
Proof.
  intros Hrefl Hs. induction Hs as [|a l Hs IH Hall]; intros i j Hij; simpl in *; [lia|].
  destruct i as [|i], j as [|j]; try lia.
  - apply Hrefl.
  - rewrite Forall_forall in Hall. apply Hall. apply nth_In. lia.
  - apply IH. lia.
Qed.

Lemma fle_sort_total a b : fle_sort a b = true \/ fle_sort b a = true.
Proof.
  destruct a as [p|], b as [q|]; simpl; auto.
  destruct (Qle_bool p q) eqn:E; [now left | right].
  apply Qle_bool_iff. destruct (Qlt_le_dec q p) as [H|H]; [lra|].
  apply Qle_bool_iff in H. congruence.
Qed.

Lemma fle_sort_trans a b c :
  fle_sort a b = true -> fle_sort b c = true -> fle_sort a c = true.
Proof.
  destruct a as [p|], b as [q|], c as [r|]; simpl; try congruence.
  rewrite !Qle_bool_iff. lra.
Qed.

Lemma fle_sort_refl a : fle_sort a a = true.
Proof. destruct (fle_sort_total a a); assumption. Qed.

Section SortedFacts.

Context {AS : ArgSort} {ASS : ArgSortSpec AS}.

Lemma tf_sort_perm x : Permutation (tf_sort x) x.
Proof. apply take_along_axis_perm, argsort_perm. Qed.

Lemma tf_sort_length x : length (tf_sort x) = length x.
Proof. apply Permutation_length, tf_sort_perm. Qed.

Lemma tf_sort_sorted x : StronglySorted (fun a b => fle_sort a b = true) (tf_sort x).
Proof. apply argsort_sorted; [apply fle_sort_total | apply fle_sort_trans]. Qed.

Lemma tf_sort_nth_le x i j :
  (i <= j < length x)%nat ->
  fle_sort (nth i (tf_sort x) NaN) (nth j (tf_sort x) NaN) = true.
Proof.
  intro H. apply (StronglySorted_nth fval (fun a b => fle_sort a b = true)).
  - apply fle_sort_refl.
  - apply tf_sort_sorted.
  - now rewrite tf_sort_length.
Qed.

Lemma tf_sort_nth_in x i : (i < length x)%nat -> In (nth i (tf_sort x) NaN) x.
Proof.
  intro H. apply (Permutation_in _ (tf_sort_perm x)).
  apply nth_In. now rewrite tf_sort_length.
Qed.

End SortedFacts.

(* ================================================================== *)
(** ** The derived threshold *)

Lemma percentile_index_lt n q round : (0 < n)%nat -> (percentile_index n q round < n)%nat.
Proof. unfold percentile_index, clip. lia. Qed.

Lemma percentile_index_mono n q1 q2 round :
  (forall a b, (a <= b)%Q -> (round a <= round b)%Z) ->
  (q2 <= q1)%Q ->
  (percentile_index n q2 round <= percentile_index n q1 round)%nat.
Proof.
  intros Hr Hq. unfold percentile_index, clip.
  destruct n as [|n]; [simpl; lia|].
  assert (H : (round (inject_Z (Z.of_nat (S n) - 1) * (q2 / 100))%Q
               <= round (inject_Z (Z.of_nat (S n) - 1) * (q1 / 100))%Q)%Z).
  { apply Hr.
    assert (0 <= inject_Z (Z.of_nat (S n) - 1))%Q.
    { change 0%Q with (inject_Z 0). rewrite <- Zle_Qle. lia. }
    assert (q2 / 100 <= q1 / 100)%Q.
    { unfold Qdiv. apply Qmult_le_compat_r; [exact Hq | discriminate]. }
    nra. }
  lia.
Qed.

Lemma existsb_is_nan_false x : existsb is_nan x = false -> Forall is_num x.
Proof.
  induction x as [|v x IH]; simpl; intro H; constructor.
  - destruct v; [exact I | discriminate].
  - apply IH. destruct (is_nan v); [discriminate | exact H].
Qed.

Section ThresholdFacts.

Context {AS : ArgSort} {ASS : ArgSortSpec AS}.

Lemma percentile_unfold x q :
  x <> [] ->
  percentile x q =
  Ok (if existsb is_nan x then NaN
      else fmul (Num (1 # 2))
             (fadd (nth (percentile_index (length x) q Qfloor) (tf_sort x) NaN)
                   (nth (percentile_index (length x) q Qceiling) (tf_sort x) NaN))).
Proof. destruct x; [congruence | reflexivity]. Qed.

Lemma tf_sort_nth_num x i j :
  Forall is_num x -> (i <= j < length x)%nat ->
  exists p q, nth i (tf_sort x) NaN = Num p /\ nth j (tf_sort x) NaN = Num q /\ (p <= q)%Q.
Proof.
  intros Hx Hij. rewrite Forall_forall in Hx.
  pose proof (tf_sort_nth_le x i j Hij) as Hle.
  assert (Hi : is_num (nth i (tf_sort x) NaN)) by (apply Hx, tf_sort_nth_in; lia).
  assert (Hj : is_num (nth j (tf_sort x) NaN)) by (apply Hx, tf_sort_nth_in; lia).
  destruct (nth i (tf_sort x) NaN) as [p|]; [|contradiction].
  destruct (nth j (tf_sort x) NaN) as [q|]; [|contradiction].
  exists p, q. repeat split. now apply Qle_bool_iff.
Qed.

(** A larger percentage gives a threshold that is at least as large. *)
Lemma percentile_mono x q1 q2 :
  x <> [] -> (q2 <= q1)%Q ->
  exists a b, percentile x q1 = Ok a /\ percentile x q2 = Ok b /\ threshold_le b a.
Proof.
  intros Hx Hq. rewrite !percentile_unfold by exact Hx.
  do 2 eexists. split; [reflexivity|]. split; [reflexivity|].
  destruct (existsb is_nan x) eqn:En; [exact I|].
  apply existsb_is_nan_false in En.
  assert (Hn : (0 < length x)%nat) by (destruct x; simpl; [congruence | lia]).
  destruct (tf_sort_nth_num x (percentile_index (length x) q2 Qfloor)
              (percentile_index (length x) q1 Qfloor) En) as (p2 & p1 & -> & -> & Hp).
  { split; [apply percentile_index_mono; [apply Qfloor_resp_le | exact Hq]
           | now apply percentile_index_lt]. }
  destruct (tf_sort_nth_num x (percentile_index (length x) q2 Qceiling)
              (percentile_index (length x) q1 Qceiling) En) as (r2 & r1 & -> & -> & Hr).
  { split; [apply percentile_index_mono; [apply Qceiling_resp_le | exact Hq]
           | now apply percentile_index_lt]. }
  simpl. lra.
Qed.

End ThresholdFacts.

Lemma zero_class_mono t1 t2 v :
  threshold_le t2 t1 -> zero_class t2 v = true -> zero_class t1 v = true.
Proof.
  unfold zero_class. intros Ht H. apply orb_true_iff in H. apply orb_true_iff.
  destruct H as [H | H]; [now left | right].
  destruct v as [q|]; [|discriminate].
  destruct t2 as [p2|]; [|discriminate]. destruct t1 as [p1|]; [|contradiction].
  simpl in *. apply Qltb_lt in H. apply Qltb_lt. lra.
Qed.

Lemma count_true_mono (f g : fval -> bool) x :
  (forall v, f v = true -> g v = true) ->
  (count_true (map2d f x) <= count_true (map2d g x))%nat.
Proof.
  intro H. unfold count_true, map2d. rewrite <- !concat_map.
  induction (concat x) as [|v l IH]; simpl; [lia|].
  destruct (f v) eqn:Ef.
  - rewrite (H v Ef). simpl. lia.
  - destruct (g v); simpl; lia.
Qed.

Lemma at2_in_concat (A : Type) (x : matrix A) i j v :
  at2 x i j = Some v -> In v (concat x).
Proof.
  unfold at2. destruct (nth_error x i) as [r|] eqn:E; [|discriminate].
  intro H. apply in_concat. exists r. split; eauto using nth_error_In.
Qed.

Lemma in_concat_at2 (A : Type) (x : matrix A) v :
  In v (concat x) -> exists i j, at2 x i j = Some v.
Proof.
  intro H. apply in_concat in H. destruct H as (r & Hr & Hv).
  apply In_nth_error in Hr. destruct Hr as [i Hi].
  apply In_nth_error in Hv. destruct Hv as [j Hj].
  exists i, j. unfold at2. now rewrite Hi.
Qed.

Lemma concat_tf_abs x : concat (tf_abs x) = map fabs (concat x).
Proof. unfold tf_abs, map2d. symmetry. apply concat_map. Qed.

Lemma Forall_is_num_existsb x : Forall is_num x -> existsb is_nan x = false.
Proof.
  induction 1 as [|v x Hv _ IH]; simpl; [reflexivity|].
  destruct v; [exact IH | contradiction].
Qed.

Lemma percentile_index_top n round :
  (0 < n)%nat -> (forall z, round (inject_Z z) = z) ->
  (forall a b, (a == b)%Q -> round a = round b) ->
  percentile_index n (100 * (1 - 0)) round = (n - 1)%nat.
Proof.
  intros Hn Hz Hc. unfold percentile_index.
  rewrite (Hc _ (inject_Z (Z.of_nat n - 1))), Hz.
  - unfold clip. lia.
  - field.
Qed.

Section ThresholdClaims.

Context {AS : ArgSort} {ASS : ArgSortSpec AS}.

(** C6 (amended).  For a fixed input tensor with no explicit threshold,
    raising the confidence never raises the number (hence the fraction) of
    elements classified Near-Zero: every element that is Near-Zero at the
    higher confidence is Near-Zero at the lower one. *)
Theorem near_zero_fraction_antitone x c1 c2 :
  concat x <> [] ->
  (c1 <= c2)%Q ->
  exists p1 z1 n1 t1 p2 z2 n2 t2,
    classification_mask x c1 None = Ok (p1, z1, n1, t1) /\
    classification_mask x c2 None = Ok (p2, z2, n2, t2) /\
    (forall i j, at2 z2 i j = Some true -> at2 z1 i j = Some true) /\
    (count_true z2 <= count_true z1)%nat.
Proof.
  intros Hx Hc. rewrite !classification_mask_elementwise. simpl derive_threshold.
  destruct (percentile_mono (concat (tf_abs x)) (100 * (1 - c1)) (100 * (1 - c2)))
    as (t1 & t2 & -> & -> & Ht).
  - rewrite concat_tf_abs. intro H. apply map_eq_nil in H. contradiction.
  - lra.
  - simpl bind. do 8 eexists. split; [reflexivity|]. split; [reflexivity|]. split.
    + intros i j. rewrite !at2_map2d.
      destruct (at2 x i j) as [v|]; simpl; [|discriminate].
      intros [= H]. now rewrite (zero_class_mono t1 t2 v Ht H).
    + apply count_true_mono. intro v. now apply zero_class_mono.
Qed.

(** C7 (amended).  With [confidence = 0.0] and no explicit threshold, on an
    input free of NaN the derived threshold is the largest magnitude in the
    input (the 100th percentile of [abs(x)]), and an element is Near-Zero
    exactly when it is zero or its magnitude is strictly below that
    maximum: the elements of largest magnitude keep their sign class. *)
Theorem confidence_zero_threshold_is_max x :
  Forall (Forall is_num) x ->
  concat x <> [] ->
  exists p z n t,
    classification_mask x 0 None = Ok (p, z, n, Num t) /\
    (forall i j v, at2 x i j = Some (Num v) -> (Qabs v <= t)%Q) /\
    (exists i j v, at2 x i j = Some (Num v) /\ (Qabs v == t)%Q) /\
    (forall i j v, at2 x i j = Some (Num v) ->
       (at2 z i j = Some true <-> (v == 0 \/ Qabs v < t)%Q)).
Proof.
  intros Hnum Hx. rewrite classification_mask_elementwise. simpl derive_threshold.
  set (A := concat (tf_abs x)).
  assert (HA : A = map fabs (concat x)) by apply concat_tf_abs.
  assert (HAe : A <> []).
  { rewrite HA. intro H. apply map_eq_nil in H. contradiction. }
  assert (HAn : Forall is_num A).
  { rewrite HA. apply Forall_forall. intros a Ha. apply in_map_iff in Ha.
    destruct Ha as (u & <- & Hu).
    pose proof (Forall_is_num_concat x Hnum) as Hc. rewrite Forall_forall in Hc.
    specialize (Hc u Hu). destruct u; [exact I | contradiction]. }
  assert (Hlen : (0 < length A)%nat) by (destruct A; simpl; [congruence | lia]).
  rewrite (percentile_unfold A _ HAe), (Forall_is_num_existsb A HAn).
  rewrite (percentile_index_top _ Qfloor Hlen Qfloor_Z Qfloor_comp).
  rewrite (percentile_index_top _ Qceiling Hlen Qceiling_Z Qceiling_comp).
  destruct (tf_sort_nth_num A (length A - 1) (length A - 1) HAn) as (m & m' & Em & Em' & _);
    [lia|].
  assert (Hin : In (Num m) A) by (rewrite <- Em; apply tf_sort_nth_in; lia).
  assert (Hmax : forall a, In (Num a) A -> (a <= m)%Q).
  { intros a Ha. apply (Permutation_in _ (Permutation_sym (tf_sort_perm A))) in Ha.
    apply (In_nth _ _ NaN) in Ha. destruct Ha as (i & Hi & Ei).
    rewrite tf_sort_length in Hi.
    destruct (tf_sort_nth_num A i (length A - 1) HAn) as (a' & m'' & Ea & Em'' & Hle);
      [lia|].
    rewrite Ei in Ea. rewrite Em in Em''. injection Ea as <-. injection Em'' as <-.
    exact Hle. }
  rewrite Em. simpl bind.
  exists (map2d (pos_class (Num ((1 # 2) * (m + m)))) x),
         (map2d (zero_class (Num ((1 # 2) * (m + m)))) x),
         (map2d (neg_class (Num ((1 # 2) * (m + m)))) x),
         ((1 # 2) * (m + m))%Q.
  split; [reflexivity|]. split; [|split].
  - intros i j v Hv. apply at2_in_concat in Hv.
    assert (Ha : In (Num (Qabs v)) A).
    { rewrite HA. apply in_map_iff. exists (Num v). split; [reflexivity | exact Hv]. }
    specialize (Hmax _ Ha). lra.
  - rewrite HA in Hin. apply in_map_iff in Hin. destruct Hin as (u & Eu & Hu).
    destruct u as [v|]; [|discriminate]. simpl in Eu. injection Eu as Eu.
    apply in_concat_at2 in Hu. destruct Hu as (i & j & Hij).
    exists i, j, v. split; [exact Hij|]. rewrite Eu. lra.
  - intros i j v Hv. rewrite at2_map2d, Hv. simpl.
    unfold zero_class. simpl. split.
    + intros [= H]. apply orb_true_iff in H. destruct H as [H | H].
      * left. now apply Qeq_bool_iff.
      * right. now apply Qltb_lt.
    + intros [H | H]; f_equal; apply orb_true_iff.
      * left. now apply Qeq_bool_iff.
      * right. now apply Qltb_lt.
Qed.

End ThresholdClaims.

(** C6, as stated, fails: on [[1.0, 2.0]] one element is Near-Zero at
    confidence 0 and none is at confidence 1. *)
Lemma near_zero_fraction_decreases :
  exists p1 z1 n1 t1 p2 z2 n2 t2,
    @classification_mask stable_argsort [[Num 1; Num 2]] 0 None = Ok (p1, z1, n1, t1) /\
    @classification_mask stable_argsort [[Num 1; Num 2]] 1 None = Ok (p2, z2, n2, t2) /\
    (0 <= 1)%Q /\
    count_true z1 = 1%nat /\ count_true z2 = 0%nat.
Proof.
  do 8 eexists. split; [reflexivity|]. split; [reflexivity|].
  split; [discriminate|]. split; reflexivity.
Qed.

Lemma near_zero_fraction_antitone_witness :
  exists p1 z1 n1 t1 p2 z2 n2 t2,
    @classification_mask stable_argsort [[Num 1; Num 2]] 0 None = Ok (p1, z1, n1, t1) /\
    @classification_mask stable_argsort [[Num 1; Num 2]] 1 None = Ok (p2, z2, n2, t2) /\
    (forall i j, at2 z2 i j = Some true -> at2 z1 i j = Some true) /\
    (count_true z2 <= count_true z1)%nat.
Proof.
  apply (@near_zero_fraction_antitone stable_argsort stable_argsort_spec
           [[Num 1; Num 2]] 0 1).
  - discriminate.
  - discriminate.
Defined.

(** C7, as stated, fails: at confidence 0 the element 2.0 of [[1.0, 2.0]]
    is classified Positive, not Near-Zero. *)
Lemma confidence_zero_keeps_largest_element :
  @classification_mask stable_argsort [[Num 1; Num 2]] 0 None
    = Ok ([[false; true]], [[true; false]], [[false; false]], Num (4 # 2)) /\
  at2 [[true; false]] 0 1 = Some false.
Proof. split; reflexivity. Qed.

Lemma confidence_zero_threshold_is_max_witness :
  exists p z n t,
    @classification_mask stable_argsort [[Num 1; Num 2]] 0 None = Ok (p, z, n, Num t) /\
    (forall i j v, at2 [[Num 1; Num 2]] i j = Some (Num v) -> (Qabs v <= t)%Q) /\
    (exists i j v, at2 [[Num 1; Num 2]] i j = Some (Num v) /\ (Qabs v == t)%Q) /\
    (forall i j v, at2 [[Num 1; Num 2]] i j = Some (Num v) ->
       (at2 z i j = Some true <-> (v == 0 \/ Qabs v < t)%Q)).
Proof.
  apply (@confidence_zero_threshold_is_max stable_argsort stable_argsort_spec
           [[Num 1; Num 2]]).
  - repeat constructor.
  - discriminate.
Defined.


(* ================================================================== *)
(** ** Index permutations *)

Lemma is_perm_length n idx : is_perm n idx -> length idx = n.
Proof. intro H. apply Permutation_length in H. now rewrite length_seq in H. Qed.

Lemma is_perm_range n idx : is_perm n idx -> Forall (fun i => (i < n)%nat) idx.
Proof.
  intro H. apply Forall_forall. intros i Hi.
  apply (Permutation_in _ H) in Hi. apply in_seq in Hi. lia.
Qed.

Lemma is_perm_NoDup n idx : is_perm n idx -> NoDup idx.
Proof.
  intro H. apply (Permutation_NoDup (Permutation_sym H)). apply seq_NoDup.
Qed.

Lemma is_perm_rev n idx : is_perm n idx -> is_perm n (rev idx).
Proof. intro H. unfold is_perm. now rewrite <- Permutation_rev. Qed.

Lemma is_perm_take n idx idx' :
  is_perm n idx -> is_perm n idx' -> is_perm n (take_along_axis 0%nat idx idx').
Proof.
  intros H H'. unfold is_perm. rewrite <- H. apply take_along_axis_perm.
  now rewrite (is_perm_length n idx H).
Qed.

Lemma take_along_axis_rev (A : Type) (d : A) l idx :
  np_flip (take_along_axis d l idx) = take_along_axis d l (rev idx).
Proof. unfold np_flip, take_along_axis. symmetry. apply map_rev. Qed.

Lemma take_along_axis_take (A : Type) (d : A) l idx idx' :
  Forall (fun i => (i < length idx)%nat) idx' ->
  take_along_axis d (take_along_axis d l idx) idx' =
  take_along_axis d l (take_along_axis 0%nat idx idx').
Proof.
  intro H. unfold take_along_axis. rewrite map_map.
  apply map_ext_in. intros i Hi. rewrite Forall_forall in H.
  apply (nth_map_in_range nat A (fun j => nth j l d) 0%nat d idx i). now apply H.
Qed.

Lemma nth_zip_with (A B C : Type) (f : A -> B -> C) dA dB dC a : forall b i,
  (i < length a)%nat -> (i < length b)%nat ->
  nth i (zip_with f a b) dC = f (nth i a dA) (nth i b dB).
Proof.
  induction a as [|x a IH]; intros [|y b] [|i] Ha Hb; simpl in *; try lia.
  - reflexivity.
  - apply IH; lia.
Qed.

Lemma zip_with_length (A B C : Type) (f : A -> B -> C) a : forall b,
  length (zip_with f a b) = Nat.min (length a) (length b).
Proof.
  induction a as [|x a IH]; intros [|y b]; simpl; try reflexivity.
  now rewrite IH.
Qed.

Lemma zip_with_diag (A C : Type) (f : A -> A -> C) l :
  zip_with f l l = map (fun x => f x x) l.
Proof. induction l as [|x l IH]; simpl; [reflexivity | now rewrite IH]. Qed.

Lemma take_along_axis_zip_with (A B C : Type) (f : A -> B -> C) dA dB dC a b idx :
  Forall (fun i => (i < length a)%nat) idx ->
  length a = length b ->
  take_along_axis dC (zip_with f a b) idx =
  zip_with f (take_along_axis dA a idx) (take_along_axis dB b idx).
Proof.
  intros H Hab. unfold take_along_axis.
  rewrite zip_with_map_map, zip_with_diag.
  apply map_ext_in. intros i Hi. rewrite Forall_forall in H. specialize (H i Hi).
  apply nth_zip_with; lia.
Qed.

Lemma take_along_axis_inj (A : Type) (d : A) l : forall idx idx',
  NoDup l ->
  Forall (fun i => (i < length l)%nat) idx ->
  Forall (fun i => (i < length l)%nat) idx' ->
  take_along_axis d l idx = take_along_axis d l idx' ->
  idx = idx'.
Proof.
  intros idx idx' Hnd. revert idx'.
  induction idx as [|i idx IH]; intros [|j idx'] Hi Hj H; simpl in *;
    try discriminate; [reflexivity|].
  inversion Hi; inversion Hj; subst. injection H as Hij H.
  f_equal; [|now apply IH].
  now apply (proj1 (NoDup_nth l d) Hnd).
Qed.

(** Two sorted arrangements of the same elements coincide when the order
    is antisymmetric. *)
Lemma sorted_perm_unique (A : Type) (R : A -> A -> Prop) :
  (forall a b, R a b -> R b a -> a = b) ->
  forall l1 l2, StronglySorted R l1 -> StronglySorted R l2 -> Permutation l1 l2 ->
  l1 = l2.
Proof.
  intros Hanti l1. induction l1 as [|a l1 IH]; intros l2 H1 H2 Hp.
  - apply Permutation_nil in Hp. now subst.
  - destruct l2 as [|b l2].
    { apply Permutation_sym, Permutation_nil in Hp. discriminate. }
    inversion H1 as [|? ? Hs1 Ha]; inversion H2 as [|? ? Hs2 Hb]; subst.
    assert (Hab : a = b).
    { assert (Hin1 : In a (b :: l2)) by (apply (Permutation_in _ Hp); now left).
      assert (Hin2 : In b (a :: l1))
        by (apply (Permutation_in _ (Permutation_sym Hp)); now left).
      destruct Hin1 as [-> | Hin1]; [reflexivity|].
      destruct Hin2 as [-> | Hin2]; [reflexivity|].
      rewrite Forall_forall in Ha, Hb. apply Hanti; auto. }
    subst b. f_equal. apply IH; auto.
    now apply Permutation_cons_inv in Hp.
Qed.

(* ================================================================== *)
(** ** [_fixargsort] recovers the reference order *)

Lemma string_leb_trans a : forall b c,
  String.leb a b = true -> String.leb b c = true -> String.leb a c = true.
Proof.
  unfold String.leb.
  induction a as [|x a IH]; intros [|y b] [|z c]; simpl; try congruence.
  unfold Ascii.compare.
  destruct (N.compare_spec (N_of_ascii x) (N_of_ascii y)) as [E1|E1|E1];
    destruct (N.compare_spec (N_of_ascii y) (N_of_ascii z)) as [E2|E2|E2];
    destruct (N.compare_spec (N_of_ascii x) (N_of_ascii z)) as [E3|E3|E3];
    try congruence; try lia.
  apply IH.
Qed.

Lemma nat_leb_total a b : Nat.leb a b = true \/ Nat.leb b a = true.
Proof. rewrite !Nat.leb_le. lia. Qed.

Lemma nat_leb_trans a b c :
  Nat.leb a b = true -> Nat.leb b c = true -> Nat.leb a c = true.
Proof. rewrite !Nat.leb_le. lia. Qed.

Lemma seq_sorted n s : StronglySorted (fun a b => Nat.leb a b = true) (seq s n).
Proof.
  revert s. induction n as [|n IH]; intro s; simpl; constructor.
  - apply IH.
  - apply Forall_forall. intros i Hi. apply in_seq in Hi. apply Nat.leb_le. lia.
Qed.

Section OrderNormalisation.

Context {AS : ArgSort} {ASS : ArgSortSpec AS}.

(** Sorting an index permutation gives the identity. *)
Lemma argsort_inverts n idx :
  is_perm n idx ->
  take_along_axis 0%nat idx (argsort Nat.leb idx) = seq 0 n.
Proof.
  intro H.
  apply (sorted_perm_unique nat (fun a b => Nat.leb a b = true)).
  - intros a b Hab Hba. apply Nat.leb_le in Hab, Hba. lia.
  - apply argsort_sorted; [apply nat_leb_total | apply nat_leb_trans].
  - apply seq_sorted.
  - rewrite <- H. apply take_along_axis_perm, argsort_perm.
Qed.

Lemma _fixargsort_is_perm a reference :
  length a = length reference ->
  is_perm (length reference) (_fixargsort a reference).
Proof.
  intro Hlen. unfold _fixargsort. apply is_perm_take.
  - unfold is_perm. rewrite <- Hlen. apply argsort_perm.
  - pose proof (@argsort_perm _ _ nat Nat.leb (argsort String.leb reference)) as Hm.
    rewrite (is_perm_length _ _ (@argsort_perm _ _ string String.leb reference)) in Hm.
    exact Hm.
Qed.

(** [_fixargsort(a, reference)] reorders [a] into [reference]. *)
Lemma _fixargsort_correct a reference :
  Permutation a reference ->
  take_along_axis EmptyString a (_fixargsort a reference) = reference.
Proof.
  intro Hp. unfold _fixargsort.
  pose proof (Permutation_length Hp) as Hlen.
  pose proof (@argsort_perm _ _ string String.leb reference) as Hr.
  pose proof (@argsort_perm _ _ string String.leb a) as Ha.
  pose proof (@argsort_perm _ _ nat Nat.leb (argsort String.leb reference)) as Hm.
  rewrite (Permutation_length Hr), length_seq in Hm.
  rewrite <- take_along_axis_take.
  2:{ rewrite (Permutation_length Ha), length_seq, Hlen.
      apply (is_perm_range _ _ Hm). }
  assert (Hs : take_along_axis EmptyString a (argsort String.leb a)
               = take_along_axis EmptyString reference (argsort String.leb reference)).
  { apply (sorted_perm_unique string (fun x y => String.leb x y = true)).
    - apply String.leb_antisym.
    - apply argsort_sorted; [apply String.leb_total | apply string_leb_trans].
    - apply argsort_sorted; [apply String.leb_total | apply string_leb_trans].
    - rewrite (take_along_axis_perm string EmptyString a _ Ha).
      rewrite (take_along_axis_perm string EmptyString reference _ Hr).
      exact Hp. }
  rewrite Hs, take_along_axis_take.
  2:{ rewrite (Permutation_length Hr), length_seq. apply (is_perm_range _ _ Hm). }
  rewrite (argsort_inverts (length reference)); [apply take_along_axis_seq | exact Hr].
Qed.

End OrderNormalisation.

(* ================================================================== *)
(** ** Sums of rationals under masks *)


Lemma Qsum_app l l' : (Qsum (l ++ l') == Qsum l + Qsum l')%Q.
Proof. induction l as [|x l IH]; simpl; lra. Qed.



Lemma zip_with_rev (A B C : Type) (f : A -> B -> C) a b :
  length a = length b ->
  zip_with f (rev a) (rev b) = rev (zip_with f a b).
Proof.
  revert b. induction a as [|x a IH]; intros [|y b] H; simpl in *; try discriminate;
    [reflexivity|].
  injection H as H. rewrite <- (IH b H).
  assert (Hl : length (rev a) = length (rev b)) by (now rewrite !length_rev).
  generalize (rev a) (rev b) Hl. clear.
  intros l. induction l as [|u l IH]; intros [|v l'] H; simpl in *; try discriminate;
    [reflexivity|].
  injection H as H. now rewrite IH.
Qed.



Lemma droppedQ_nonneg w : forall mask,
  Forall (fun x => (0 <= x)%Q) w -> (0 <= droppedQ w mask)%Q.
Proof.
  unfold droppedQ.
  induction w as [|x w IH]; intros [|b mask] H; simpl; try lra.
  inversion H; subst. specialize (IH mask H3). destruct b; lra.
Qed.




(* ================================================================== *)
(** ** Positive and negative parts of the sums *)







Lemma Forall_is_num_map (f : fval -> fval) l :
  (forall v, is_num v -> is_num (f v)) -> Forall is_num l -> Forall is_num (map f l).
Proof.
  intros Hf H. induction H as [|v l Hv _ IH]; simpl; constructor; auto.
Qed.






Lemma map_take (A B : Type) (f : A -> B) (d : A) l idx :
  map f (take_along_axis d l idx) = take_along_axis (f d) (map f l) idx.
Proof.
  unfold take_along_axis. rewrite map_map. apply map_ext. intro i.
  symmetry. apply map_nth.
Qed.


Lemma Qsum_map_nonneg (A : Type) (f : A -> Q) l :
  (forall a, (0 <= f a)%Q) -> (0 <= Qsum (map f l))%Q.
Proof. intro H. induction l as [|a l IH]; simpl; [lra | specialize (H a); lra]. Qed.





(* ================================================================== *)
(** ** Threshold masks and what they drop *)










Lemma cumsum_from_length a l : length (cumsum_from a l) = length l.
Proof. revert a. induction l as [|v l IH]; intro a; simpl; [reflexivity | now rewrite IH]. Qed.

Lemma np_cumsum_length l : length (np_cumsum l) = length l.
Proof. destruct l; simpl; [reflexivity | now rewrite cumsum_from_length]. Qed.

Lemma mul_mask_length a m : length a = length m -> length (mul_mask a m) = length a.
Proof. intro H. unfold mul_mask. rewrite zip_with_length, <- H. apply Nat.min_id. Qed.






Lemma mul_mask_is_num vals : forall mask,
  Forall is_num vals -> Forall is_num (mul_mask vals mask).
Proof.
  unfold mul_mask. intros mask Hv. revert mask.
  induction Hv as [|v vals Hv _ IH]; intros [|b mask]; simpl; constructor; auto.
  destruct v; [exact I | contradiction].
Qed.


Lemma np_flip_length (A : Type) (l : list A) : length (np_flip l) = length l.
Proof. apply length_rev. Qed.

Section FilterFacts.
Context {AS : ArgSort} {ASS : ArgSortSpec AS}.


End FilterFacts.

(* ================================================================== *)
(** ** Round trip through [filter_classifications] and [standardize] *)

Section RoundTrip.

Context {AS : ArgSort} {ASS : ArgSortSpec AS}.

(** The two phases reorder counts, sums and terms by one index
    permutation. *)
Lemma filter_phases_structure counts sums terms comp :
  length sums = length counts -> length terms = length counts ->
  exists idx masks,
    is_perm (length counts) idx /\ length masks = length counts /\
    filter_phases_at counts sums terms comp =
    (take_along_axis (Num 0) counts idx, take_along_axis (Num 0) sums idx,
     take_along_axis EmptyString terms idx, masks).
Proof.
  intros Hls Hlt.
  unfold filter_phases_at, _partial_filter_by_sum, _partial_filter_by_count.
  cbv zeta.
  set (n := length counts).
  set (o1 := argsort fle_sort (map fabs sums)).
  assert (Ho1 : is_perm n o1).
  { unfold is_perm, o1, n. rewrite <- Hls, <- (length_map fabs). apply argsort_perm. }
  rewrite !take_along_axis_rev.
  set (r1 := rev o1).
  assert (Hr1 : is_perm n r1) by (now apply is_perm_rev).
  set (c1 := take_along_axis (Num 0) counts r1).
  assert (Hlc1 : length c1 = n)
    by (unfold c1; rewrite take_along_axis_length; now apply is_perm_length).
  set (o2 := argsort fle_sort c1).
  assert (Ho2 : is_perm n o2).
  { unfold is_perm, o2. rewrite <- Hlc1. apply argsort_perm. }
  assert (Hr2 : is_perm n (rev o2)) by (now apply is_perm_rev).
  assert (Hrange : Forall (fun i => (i < length r1)%nat) (rev o2)).
  { rewrite (is_perm_length n r1 Hr1). now apply is_perm_range. }
  unfold c1. rewrite !take_along_axis_take by exact Hrange.
  eexists. eexists. split; [|split; [|reflexivity]].
  - now apply is_perm_take.
  - unfold np_flip. rewrite length_rev, zip_with_length, length_map, np_cumsum_length.
    rewrite !take_along_axis_length, (is_perm_length n o2 Ho2). apply Nat.min_id.
Qed.

(** Putting the terms back into their original order puts the counts,
    the sums and the retained flags back with them. *)
Lemma standardize_filter_at counts sums terms comp c3 s3 t3 :
  NoDup terms ->
  length sums = length counts -> length terms = length counts ->
  filter_classifications_at counts sums terms comp = (c3, s3, t3) ->
  take_along_axis (Num 0) c3 (_fixargsort t3 terms)
    = mul_mask counts (retained_at counts sums terms comp) /\
  take_along_axis (Num 0) s3 (_fixargsort t3 terms)
    = mul_mask sums (retained_at counts sums terms comp) /\
  take_along_axis EmptyString t3 (_fixargsort t3 terms) = terms.
Proof.
  intros Hnd Hls Hlt.
  unfold filter_classifications_at, retained_at.
  destruct (filter_phases_structure counts sums terms comp Hls Hlt)
    as (pi & m2 & Hpi & Hlm & ->).
  set (n := length counts) in *.
  set (c2 := take_along_axis (Num 0) counts pi).
  set (s2 := take_along_axis (Num 0) sums pi).
  set (t2 := take_along_axis EmptyString terms pi).
  set (o3 := argsort fle_sort (map fneg (mul_mask c2 m2))).
  intro H. injection H as <- <- <-.
  pose proof (is_perm_length n pi Hpi) as Hlpi.
  assert (Hlc2 : length c2 = n) by (unfold c2; now rewrite take_along_axis_length).
  assert (Hls2 : length s2 = n) by (unfold s2; now rewrite take_along_axis_length).
  assert (Ho3 : is_perm n o3).
  { assert (Hlcm : length (map fneg (mul_mask c2 m2)) = n)
      by (rewrite length_map, mul_mask_length; congruence).
    unfold is_perm, o3. rewrite <- Hlcm. apply argsort_perm. }
  pose proof (is_perm_length n o3 Ho3) as Hlo3.
  (* the terms after the final sort, and after the phases *)
  assert (Hpt2 : Permutation t2 terms).
  { apply take_along_axis_perm. rewrite Hlt. exact Hpi. }
  assert (Hlt2 : length t2 = n) by (rewrite (Permutation_length Hpt2); exact Hlt).
  set (t3 := take_along_axis EmptyString t2 o3).
  assert (Hpt3 : Permutation t3 terms).
  { rewrite <- Hpt2. apply take_along_axis_perm. rewrite Hlt2. exact Ho3. }
  set (idx := _fixargsort t3 terms). set (idx2 := _fixargsort t2 terms).
  assert (Hidx : is_perm n idx).
  { rewrite <- Hlt. apply _fixargsort_is_perm. apply (Permutation_length Hpt3). }
  assert (Hidx2 : is_perm n idx2).
  { rewrite <- Hlt. apply _fixargsort_is_perm. apply (Permutation_length Hpt2). }
  pose proof (_fixargsort_correct t3 terms Hpt3) as Hfix3. fold idx in Hfix3.
  pose proof (_fixargsort_correct t2 terms Hpt2) as Hfix2. fold idx2 in Hfix2.
  (* the index list that undoes the final sort is the one that undoes the phases *)
  set (kappa := take_along_axis 0%nat o3 idx).
  assert (Hkappa : is_perm n kappa) by (now apply is_perm_take).
  assert (Hr_idx : Forall (fun i => (i < length o3)%nat) idx)
    by (rewrite Hlo3; now apply is_perm_range).
  assert (Hr_kappa : Forall (fun i => (i < length pi)%nat) kappa)
    by (rewrite Hlpi; now apply is_perm_range).
  assert (Hr_idx2 : Forall (fun i => (i < length pi)%nat) idx2)
    by (rewrite Hlpi; now apply is_perm_range).
  assert (Hseq : forall l, is_perm n l ->
            take_along_axis EmptyString terms (take_along_axis 0%nat pi l) = terms ->
            take_along_axis 0%nat pi l = seq 0 n).
  { intros l Hl Heq.
    apply (take_along_axis_inj string EmptyString terms); [exact Hnd | | |].
    - rewrite Hlt. apply is_perm_range. now apply is_perm_take.
    - rewrite Hlt. apply Forall_forall. intros i Hi. apply in_seq in Hi. lia.
    - rewrite Heq, <- Hlt. symmetry. apply take_along_axis_seq. }
  assert (Hk : take_along_axis 0%nat pi kappa = seq 0 n).
  { apply Hseq; [exact Hkappa|].
    unfold kappa. rewrite <- !take_along_axis_take by assumption.
    exact Hfix3. }
  assert (Hk2 : take_along_axis 0%nat pi idx2 = seq 0 n).
  { apply Hseq; [exact Hidx2|].
    rewrite <- take_along_axis_take by assumption. exact Hfix2. }
  assert (Hsame : kappa = idx2).
  { apply (take_along_axis_inj nat 0%nat pi); try assumption.
    - now apply (is_perm_NoDup n).
    - congruence. }
  assert (Hback : forall vals, length vals = n ->
            take_along_axis (Num 0)
              (take_along_axis (Num 0) (mul_mask (take_along_axis (Num 0) vals pi) m2) o3) idx
            = mul_mask vals (take_along_axis false m2 idx2)).
  { intros vals Hv.
    rewrite take_along_axis_take by exact Hr_idx. fold kappa.
    unfold mul_mask.
    rewrite (take_along_axis_zip_with fval bool fval _ (Num 0) false).
    - rewrite take_along_axis_take by exact Hr_kappa.
      rewrite Hk, Hsame. rewrite <- Hv. now rewrite take_along_axis_seq.
    - rewrite take_along_axis_length, Hlpi. now apply is_perm_range.
    - rewrite take_along_axis_length. congruence. }
  split; [|split].
  - apply Hback. reflexivity.
  - apply Hback. exact Hls.
  - exact Hfix3.
Qed.

End RoundTrip.

(* ================================================================== *)
(** ** Whole arrays *)

Lemma map_zip3_const (A B C D : Type) (H : A * B * C -> D) (t : C) a : forall b,
  map H (zip3 a b (map (fun _ => t) a)) = zip_with (fun c s => H (c, s, t)) a b.
Proof.
  induction a as [|x a IH]; intros [|y b]; simpl; try reflexivity.
  now rewrite IH.
Qed.

Lemma zip3_zip_with (A B C D E F : Type) (f : A -> B -> C) (g : A -> B -> D)
  (h : A -> B -> E) (H : C * D * E -> F) a : forall b,
  map H (zip3 (zip_with f a b) (zip_with g a b) (zip_with h a b))
  = zip_with (fun x y => H (f x y, g x y, h x y)) a b.
Proof.
  induction a as [|x a IH]; intros [|y b]; simpl; try reflexivity.
  now rewrite IH.
Qed.

Lemma zip_with_ext_in (A B C : Type) (f g : A -> B -> C) a : forall b,
  (forall x y, In x a -> In y b -> f x y = g x y) ->
  zip_with f a b = zip_with g a b.
Proof.
  induction a as [|x a IH]; intros [|y b] H; simpl; try reflexivity.
  f_equal.
  - apply H; now left.
  - apply IH. intros u v Hu Hv. apply H; now right.
Qed.


Lemma classify_terms_cases (A : Type) (a : ndarray A) :
  (channels a = 3 \/ channels a = 9)%nat ->
  exists terms_list,
    classify_terms (Some a) = Ok terms_list /\
    NoDup terms_list /\ length terms_list = channels a.
Proof.
  intros [H | H]; unfold classify_terms; rewrite H; simpl.
  - exists terms_one_tensor. repeat split.
    repeat (constructor; [simpl; intuition discriminate|]). constructor.
  - exists terms_two_tensors. repeat split.
    repeat (constructor; [simpl; intuition discriminate|]). constructor.
Qed.

Section WholeArrays.

Context {AS : ArgSort}.

Lemma filter_classifications_rows counts sums completeness terms_list :
  classify_terms (Some counts) = Ok terms_list ->
  same_nd_shape counts sums = true ->
  filter_classifications counts sums completeness =
  Ok (mk_ndarray (channels counts)
        (zip_with (fun c s => fst (fst (filter_classifications_at c s terms_list completeness)))
                  (positions counts) (positions sums)),
      mk_ndarray (channels sums)
        (zip_with (fun c s => snd (fst (filter_classifications_at c s terms_list completeness)))
                  (positions counts) (positions sums)),
      mk_ndarray (length terms_list)
        (zip_with (fun c s => snd (filter_classifications_at c s terms_list completeness))
                  (positions counts) (positions sums))).
Proof.
  intros Ht Hsh. unfold filter_classifications, classify_terms_retain_shape.
  rewrite Ht. simpl bind. rewrite Hsh. simpl channels. simpl positions.
  rewrite !map_map.
  rewrite !map_zip3_const. reflexivity.
Qed.

End WholeArrays.

Lemma same_nd_shape_inv (A B : Type) (a : ndarray A) (b : ndarray B) :
  same_nd_shape a b = true ->
  channels a = channels b /\ length (positions a) = length (positions b).
Proof.
  unfold same_nd_shape. intro H. apply andb_true_iff in H.
  destruct H as [H1 H2]. now apply Nat.eqb_eq in H1, H2.
Qed.

Lemma well_shaped_row (A : Type) (a : ndarray A) row :
  well_shaped a -> In row (positions a) -> length row = channels a.
Proof. unfold well_shaped. rewrite Forall_forall. auto. Qed.

Lemma standardize_with_terms {AS : ArgSort} (c' s' : ndarray fval) (t' : ndarray string) tl :
  same_nd_shape c' s' = true ->
  same_nd_shape t' c' = true ->
  classify_terms (Some c') = Ok tl ->
  standardize c' s' (Some t') None true =
  Ok (mk_ndarray (channels c')
        (map (fun r : list fval * list fval * list string =>
                take_along_axis (Num 0) (fst (fst r)) (_fixargsort (snd r) tl))
             (zip3 (positions c') (positions s') (positions t'))),
      mk_ndarray (channels s')
        (map (fun r : list fval * list fval * list string =>
                take_along_axis (Num 0) (snd (fst r)) (_fixargsort (snd r) tl))
             (zip3 (positions c') (positions s') (positions t'))),
      TermsList tl).
Proof.
  intros H1 H2 Ht. unfold standardize, _standardize_order.
  rewrite H1, H2, Ht. cbn [negb bind].
  change (classify_terms
            (Some (mk_ndarray (channels c')
               (map (fun r : list fval * list fval * list string => fst (fst r))
                  (map (fun '(c, s, t) =>
                          (take_along_axis (Num 0) c (_fixargsort t tl),
                           take_along_axis (Num 0) s (_fixargsort t tl),
                           take_along_axis EmptyString t (_fixargsort t tl)))
                       (zip3 (positions c') (positions s') (positions t')))))))
    with (classify_terms (Some c')).
  rewrite Ht. cbn [bind]. rewrite !map_map.
  f_equal. f_equal. f_equal.
  - f_equal. apply map_ext. intros [[c s] t]. reflexivity.
  - f_equal. apply map_ext. intros [[c s] t]. reflexivity.
Qed.

Section CoverageClaims.

Context {AS : ArgSort} {ASS : ArgSortSpec AS}.



End CoverageClaims.



(* ================================================================== *)
(** ** Summaries of concrete classifications *)

Lemma filter_perm (A : Type) (f : A -> bool) l l' :
  Permutation l l' -> Permutation (filter f l) (filter f l').
Proof.
  induction 1 as [|x l l' _ IH|x y l|l l' l'' _ IH1 _ IH2]; simpl.
  - constructor.
  - destruct (f x); [now constructor | exact IH].
  - destruct (f x), (f y); try reflexivity. apply perm_swap.
  - now rewrite IH1.
Qed.

Lemma combine_map_seq (A B : Type) (dA : A) (dB : B) a : forall b,
  length a = length b ->
  combine a b = map (fun i => (nth i a dA, nth i b dB)) (seq 0 (length a)).
Proof.
  induction a as [|x a IH]; intros [|y b] H; simpl in *; try discriminate; [reflexivity|].
  injection H as H. f_equal. rewrite <- seq_shift, map_map. now apply IH.
Qed.

Lemma combine_take (A B : Type) (dA : A) (dB : B) a b idx :
  combine (take_along_axis dA a idx) (take_along_axis dB b idx)
  = map (fun i => (nth i a dA, nth i b dB)) idx.
Proof.
  unfold take_along_axis. induction idx as [|i idx IH]; simpl; [reflexivity | now rewrite IH].
Qed.

(** Boolean-mask indexing after a common reordering keeps the same
    elements. *)
Lemma compress_take_perm (A : Type) (d : A) (L : list A) (K : list fval)
  (g : fval -> bool) idx :
  length L = length K -> is_perm (length K) idx ->
  Permutation
    (compress (take_along_axis d L idx) (map g (take_along_axis (Num 0) K idx)))
    (compress L (map g K)).
Proof.
  intros Hlen Hp. unfold compress.
  rewrite (map_take fval bool g (Num 0)).
  rewrite combine_take.
  rewrite (combine_map_seq A bool d (g (Num 0)) L (map g K)) by (now rewrite length_map).
  apply Permutation_map, filter_perm, Permutation_map.
  rewrite Hlen. exact Hp.
Qed.

Lemma compress_take_short (A : Type) (d : A) (L : list A) (K : list fval)
  (g : fval -> bool) idx :
  length L = length K -> is_perm (length K) idx ->
  (length (compress L (map g K)) <= 1)%nat ->
  compress (take_along_axis d L idx) (map g (take_along_axis (Num 0) K idx))
  = compress L (map g K).
Proof.
  intros Hlen Hp Hshort.
  pose proof (compress_take_perm A d L K g idx Hlen Hp) as H.
  destruct (compress L (map g K)) as [|x [|y l]]; simpl in Hshort.
  - now apply Permutation_nil, Permutation_sym.
  - now apply Permutation_length_1_inv, Permutation_sym.
  - lia.
Qed.

Section SummaryClaims.
Context {AS : ArgSort} {ASS : ArgSortSpec AS}.

Lemma argsort_singleton (K : Type) (leb : K -> K -> bool) (a : K) :
  argsort leb [a] = [0%nat].
Proof.
  pose proof (@argsort_perm _ _ K leb [a]) as H. simpl in H.
  apply Permutation_sym in H. now apply Permutation_length_1_inv in H.
Qed.

Lemma percentile_singleton a q :
  percentile [Num a] q = Ok (Num ((1 # 2) * (a + a))).
Proof.
  unfold percentile, tf_sort. rewrite argsort_singleton.
  cbn [length existsb is_nan orb take_along_axis map nth].
  replace (Z.to_nat (clip (Qfloor _) 0 (Z.of_nat 1 - 1))) with 0%nat
    by (unfold clip; lia).
  replace (Z.to_nat (clip (Qceiling _) 0 (Z.of_nat 1 - 1))) with 0%nat
    by (unfold clip; lia).
  reflexivity.
Qed.

Lemma matmul_classify_example :
  matmul_classify [[Num 5]] [[Num (-5)]] 1 ThNone
  = Ok (example_counts, example_sums, (Num ((1 # 2) * (Qabs 5 + Qabs 5)),
                                      Num ((1 # 2) * (Qabs (-5) + Qabs (-5))))).
Proof.
  unfold matmul_classify, classify_with, classification_mask.
  cbn [_parse_thresholds_arg bind].
  change (concat (tf_abs [[Num 5]])) with [Num (Qabs 5)].
  change (concat (tf_abs [[Num (-5)]])) with [Num (Qabs (-5))].
  rewrite !percentile_singleton. reflexivity.
Qed.

Lemma matmul_classify_zero_pair :
  matmul_classify [[Num 0]] [[Num 0]] (95 # 100) ThNone
  = Ok (zero_counts, zero_sums, (Num ((1 # 2) * (Qabs 0 + Qabs 0)),
                                 Num ((1 # 2) * (Qabs 0 + Qabs 0)))).
Proof.
  unfold matmul_classify, classify_with, classification_mask.
  cbn [_parse_thresholds_arg bind].
  change (concat (tf_abs [[Num 0]])) with [Num (Qabs 0)].
  rewrite !percentile_singleton. reflexivity.
Qed.

(** Evaluation of [summarise] on arrays whose per-term totals leave at
    most one term: the reductions are computed, and the reordering by
    [np.argsort] drops out of every boolean-mask indexing. *)
Ltac summarise_short counts :=
  repeat match goal with
         | |- context [sequence ?l] =>
             let v := eval vm_compute in (sequence l) in
             change (sequence l) with v; cbv beta iota
         end;
  let K := fresh "K" in
  let idx := fresh "idx" in
  let Hidx := fresh "Hidx" in
  set (K := reduce_value_axes np_sum counts);
  set (idx := rev (argsort fle_sort K));
  assert (Hidx : is_perm (length K) idx) by (apply is_perm_rev, argsort_perm);
  repeat match goal with
         | |- context [compress (take_along_axis ?d ?L idx)
                                (map ?g (take_along_axis (Num 0) K idx))] =>
             rewrite (compress_take_short _ d L K g idx Logic.eq_refl Hidx)
               by (vm_compute; lia)
         end;
  clear Hidx; clear idx; subst K.

(** C9 (amended).  For the 1x1 inputs [[5.0]] and [[-5.0]] with
    [confidence = 1.0], [matmul_classify] gives count 1 and sum -25 in the
    PN slot and zero in the eight other slots, and [summarise] of that
    result is ["PN: 1.0 = Σ -25.00"]: the count is printed as the float it
    is. *)
Theorem summarise_example :
  (exists thr,
     matmul_classify [[Num 5]] [[Num (-5)]] 1 ThNone
       = Ok (example_counts, example_sums, thr)) /\
  summarise example_counts example_sums None None false false false
    = Ok "PN: 1.0 = Σ -25.00"%string.
Proof.
  split; [eexists; apply matmul_classify_example|].
  unfold summarise.
  assert (Hst : standardize example_counts example_sums None None true
                = Ok (example_counts, example_sums, TermsList terms_two_tensors))
    by reflexivity.
  rewrite Hst. cbv beta iota zeta delta [bind].
  summarise_short example_counts.
  vm_compute. reflexivity.
Qed.

(** C8.  For the all-zero input pair only ZZ has a count; [summarise] of
    that classification with a mask that excludes the only position does
    not return ["<empty>"]: it raises [ValueError], from [np.max] of the
    empty array of surviving sums. *)
Theorem summarise_empty_raises :
  (exists thr,
     matmul_classify [[Num 0]] [[Num 0]] (95 # 100) ThNone
       = Ok (zero_counts, zero_sums, thr)) /\
  summarise zero_counts zero_sums None (Some [false]) false false false
    = Raise ValueError /\
  summarise zero_counts zero_sums None (Some [false]) false false true
    = Raise ValueError.
Proof.
  split; [eexists; apply matmul_classify_zero_pair|].
  assert (Hst : standardize zero_counts zero_sums None (Some [false]) true
                = Ok (mul_position_mask zero_counts [false],
                      mul_position_mask zero_sums [false],
                      TermsList terms_two_tensors))
    by reflexivity.
  split; unfold summarise; rewrite Hst; cbv beta iota zeta delta [bind].
  - summarise_short (mul_position_mask zero_counts [false]).
    vm_compute. reflexivity.
  - summarise_short (mul_position_mask zero_counts [false]).
    vm_compute. reflexivity.
Qed.

End SummaryClaims.

(** C9, as stated, fails: the summary is not ["PN: 1 = Σ -25.00"]. *)
Lemma summarise_example_prints_float_count :
  (exists thr,
     @matmul_classify stable_argsort [[Num 5]] [[Num (-5)]] 1 ThNone
       = Ok (example_counts, example_sums, thr)) /\
  @summarise stable_argsort example_counts example_sums None None false false false
    <> Ok "PN: 1 = Σ -25.00"%string.
Proof. split; [eexists; reflexivity | vm_compute; discriminate]. Qed.

Lemma summarise_example_witness :
  (exists thr,
     @matmul_classify stable_argsort [[Num 5]] [[Num (-5)]] 1 ThNone
       = Ok (example_counts, example_sums, thr)) /\
  @summarise stable_argsort example_counts example_sums None None false false false
    = Ok "PN: 1.0 = Σ -25.00"%string.
Proof. exact (@summarise_example stable_argsort stable_argsort_spec). Defined.

Lemma summarise_empty_raises_witness :
  (exists thr,
     @matmul_classify stable_argsort [[Num 0]] [[Num 0]] (95 # 100) ThNone
       = Ok (zero_counts, zero_sums, thr)) /\
  @summarise stable_argsort zero_counts zero_sums None (Some [false]) false false false
    = Raise ValueError /\
  @summarise stable_argsort zero_counts zero_sums None (Some [false]) false false true
    = Raise ValueError.
Proof. exact (@summarise_empty_raises stable_argsort stable_argsort_spec). Defined.

(* ================================================================== *)
(** ** Term lists *)

(** X1.  [classify_terms] accepts exactly the examples with three or nine
    terms. *)
Theorem classify_terms_accepts_three_or_nine (A : Type) (a : ndarray A) :
  @classify_terms A None = Ok terms_two_tensors /\
  @classify_terms_retain_shape A None = Raise ValueError /\
  ((channels a = 3%nat \/ channels a = 9%nat) /\
   (exists terms_list terms,
      classify_terms (Some a) = Ok terms_list /\
      NoDup terms_list /\ length terms_list = channels a /\
      classify_terms_retain_shape (Some a) = Ok terms /\
      same_nd_shape terms a = true /\
      Forall (fun row => row = terms_list) (positions terms))
   \/
   (channels a <> 3%nat /\ channels a <> 9%nat /\
    classify_terms (Some a) = Raise ValueError /\
    classify_terms_retain_shape (Some a) = Raise ValueError)).
Proof.
  split; [reflexivity|]. split; [reflexivity|].
  unfold classify_terms_retain_shape, classify_terms.
  destruct (Nat.eqb (channels a) 3) eqn:E3.
  - apply Nat.eqb_eq in E3. left. split; [now left|].
    do 2 eexists. simpl bind. split; [reflexivity|].
    split; [repeat constructor; simpl; intuition discriminate|].
    split; [now rewrite E3|]. split; [reflexivity|]. split.
    + unfold same_nd_shape. simpl. rewrite E3, length_map, Nat.eqb_refl. reflexivity.
    + simpl. apply Forall_forall. intros row Hrow. apply in_map_iff in Hrow.
      now destruct Hrow as (? & <- & _).
  - destruct (Nat.eqb (channels a) 9) eqn:E9.
    + apply Nat.eqb_eq in E9. left. split; [now right|].
      do 2 eexists. simpl bind. split; [reflexivity|].
      split; [repeat constructor; simpl; intuition discriminate|].
      split; [now rewrite E9|]. split; [reflexivity|]. split.
      * unfold same_nd_shape. simpl. rewrite E9, length_map, Nat.eqb_refl. reflexivity.
      * simpl. apply Forall_forall. intros row Hrow. apply in_map_iff in Hrow.
        now destruct Hrow as (? & <- & _).
    + right. apply Nat.eqb_neq in E3, E9. repeat split; assumption.
Qed.

(* ================================================================== *)
(** ** Order normalisation and the checks of [standardize] *)

Section OrderContracts.

Context {AS : ArgSort} {ASS : ArgSortSpec AS}.

(** X2.  [_fixargsort(a, reference)] returns indices, each position of
    [reference] once, that bring [a] into the order of [reference],
    whenever [a] holds the values of [reference] in some order. *)
Theorem fixargsort_restores_reference a reference :
  Permutation a reference ->
  is_perm (length reference) (_fixargsort a reference) /\
  take_along_axis EmptyString a (_fixargsort a reference) = reference.
Proof.
  intro H. split.
  - apply _fixargsort_is_perm. now apply Permutation_length.
  - now apply _fixargsort_correct.
Qed.

End OrderContracts.

Lemma fixargsort_restores_reference_witness :
  is_perm (length terms_one_tensor)
    (@_fixargsort stable_argsort ["Z"; "N"; "P"]%string terms_one_tensor) /\
  take_along_axis EmptyString ["Z"; "N"; "P"]%string
    (@_fixargsort stable_argsort ["Z"; "N"; "P"]%string terms_one_tensor)
  = terms_one_tensor.
Proof.
  apply (@fixargsort_restores_reference stable_argsort stable_argsort_spec).
  unfold terms_one_tensor.
  apply Permutation_sym, (Permutation_cons_app ["Z"; "N"]%string [] "P"%string).
  reflexivity.
Defined.

Section StandardizeChecks.

Context {AS : ArgSort}.

(** [standardize] on flattened arrays, by what [standardize_accepts]
    says of its arguments. *)
Lemma standardize_cases counts sums terms mask return_terms_as_list :
  (standardize_accepts counts sums terms mask = true ->
   exists c s t,
     standardize counts sums terms mask return_terms_as_list = Ok (c, s, t) /\
     same_nd_shape c counts = true /\ same_nd_shape s sums = true) /\
  (standardize_accepts counts sums terms mask = false ->
   standardize counts sums terms mask return_terms_as_list = Raise ValueError).
Proof.
  unfold standardize_accepts, standardize. split.
  - intro H. apply andb_true_iff in H. destruct H as [H Hch].
    apply andb_true_iff in H. destruct H as [H Hm].
    apply andb_true_iff in H. destruct H as [Hs Ht].
    assert (Hc : (channels counts = 3 \/ channels counts = 9)%nat).
    { apply orb_true_iff in Hch. destruct Hch as [E | E]; apply Nat.eqb_eq in E; auto. }
    rewrite Hs. simpl negb. cbv iota.
    destruct (classify_terms_cases _ counts Hc) as (tl & Etl & _).
    destruct terms as [t|].
    + rewrite Ht. simpl negb. cbv iota.
      assert (Hmm : match mask with
                    | Some m => negb (Nat.eqb (length m) (length (positions counts)))
                    | None => false
                    end = false).
      { destruct mask; [now rewrite Hm | reflexivity]. }
      rewrite Hmm.
      unfold _standardize_order. rewrite Hs, Ht. simpl negb. cbv iota.
      rewrite Etl. simpl bind. cbn [channels].
      assert (Etl' : forall p : list (list fval),
                 classify_terms (Some (mk_ndarray (channels counts) p)) = Ok tl).
      { intro p. exact Etl. }
      rewrite Etl'. simpl bind.
      apply same_nd_shape_inv in Hs, Ht. destruct Hs as [Hs1 Hs2]. destruct Ht as [Ht1 Ht2].
      assert (Hlen : length (zip3 (positions counts) (positions sums) (positions t))
                     = length (positions counts)).
      { clear -Hs2 Ht2.
        revert Hs2 Ht2. generalize (positions sums), (positions t).
        induction (positions counts) as [|c cs IH]; intros [|s ss] [|u us] H1 H2;
          simpl in *; try discriminate; try reflexivity.
        f_equal. apply IH; congruence. }
      destruct mask as [m|]; destruct return_terms_as_list; do 3 eexists;
        (split; [reflexivity|]); unfold same_nd_shape, mul_position_mask; cbn [channels positions];
        rewrite ?zip_with_length, ?length_map, ?Hlen, ?Nat.eqb_refl; simpl;
        try (apply Nat.eqb_eq in Hm; rewrite ?Hm, ?Nat.min_id).
      all: rewrite ?Hs2, ?Nat.min_id, ?Nat.eqb_refl; try reflexivity.
      all: try (rewrite <- Hs2, Hm, Nat.min_id, Nat.eqb_refl; reflexivity).
      all: try (split; reflexivity).
    + assert (Hmm : match mask with
                    | Some m => negb (Nat.eqb (length m) (length (positions counts)))
                    | None => false
                    end = false).
      { destruct mask; [now rewrite Hm | reflexivity]. }
      rewrite Hmm. unfold classify_terms_retain_shape. rewrite Etl.
      apply same_nd_shape_inv in Hs. destruct Hs as [Hs1 Hs2].
      destruct return_terms_as_list; simpl negb; cbv iota; simpl bind; rewrite ?Etl; simpl bind;
        destruct mask as [m|]; do 3 eexists; (split; [reflexivity|]);
        unfold same_nd_shape, mul_position_mask; cbn [channels positions];
        rewrite ?zip_with_length, ?Nat.eqb_refl; simpl;
        try (apply Nat.eqb_eq in Hm; rewrite ?Hm, ?Nat.min_id).
      all: rewrite ?Hs2, ?Nat.min_id, ?Nat.eqb_refl; try reflexivity.
      all: try (rewrite <- Hs2, Hm, Nat.min_id, Nat.eqb_refl; reflexivity).
      all: try (split; reflexivity).
  - intro H.
    destruct (same_nd_shape counts sums) eqn:Hs; [|reflexivity]. simpl negb. cbv iota.
    destruct (match terms with Some t => same_nd_shape t counts | None => true end) eqn:Ht.
    2:{ destruct terms as [t|]; [|discriminate]. now rewrite Ht. }
    assert (Ht' : match terms with Some t => negb (same_nd_shape t counts) | None => false end
                  = false).
    { destruct terms; [now rewrite Ht | reflexivity]. }
    rewrite Ht'.
    destruct (match mask with
              | Some m => Nat.eqb (length m) (length (positions counts))
              | None => true end) eqn:Hm.
    2:{ destruct mask as [m|]; [|discriminate]. now rewrite Hm. }
    assert (Hm' : match mask with
                  | Some m => negb (Nat.eqb (length m) (length (positions counts)))
                  | None => false end = false).
    { destruct mask; [now rewrite Hm | reflexivity]. }
    rewrite Hm'. simpl in H. apply orb_false_iff in H. destruct H as [E3 E9].
    assert (Ect : classify_terms (Some counts) = Raise ValueError).
    { unfold classify_terms. now rewrite E3, E9. }
    destruct terms as [t|].
    + unfold _standardize_order. rewrite Hs, Ht. simpl negb. cbv iota. now rewrite Ect.
    + unfold classify_terms_retain_shape. rewrite Ect.
      destruct return_terms_as_list; simpl; rewrite ?Ect; reflexivity.
Qed.

(** X3.  What [standardize] refuses.  It raises [ValueError] whenever
    [counts] and [sums] differ in the number of terms or in the number of
    positions, [terms], when given, differ from [counts] in one of them,
    the [mask], when given, does not hold one entry per position, or the
    number of terms is neither 3 nor 9.  A call that returns had none of
    these mismatches, and the counts and sums it returns have the numbers
    of terms and of positions of the ones it was given. *)
Theorem standardize_refuses_mismatches counts sums terms mask return_terms_as_list :
  (standardize_accepts counts sums terms mask = false ->
   standardize counts sums terms mask return_terms_as_list = Raise ValueError) /\
  (forall c s t,
     standardize counts sums terms mask return_terms_as_list = Ok (c, s, t) ->
     standardize_accepts counts sums terms mask = true /\
     same_nd_shape c counts = true /\ same_nd_shape s sums = true).
Proof.
  destruct (standardize_cases counts sums terms mask return_terms_as_list) as [Hok Hraise].
  split; [exact Hraise|].
  intros c s t H.
  destruct (standardize_accepts counts sums terms mask) eqn:E.
  - destruct (Hok Logic.eq_refl) as (c' & s' & t' & H' & Hc & Hs).
    rewrite H in H'. injection H' as -> -> ->. auto.
  - rewrite (Hraise Logic.eq_refl) in H. discriminate H.
Qed.

End StandardizeChecks.

(* ================================================================== *)
(** ** The threshold at full confidence *)

Lemma percentile_index_bottom n round :
  (0 < n)%nat -> (forall z, round (inject_Z z) = z) ->
  (forall a b, (a == b)%Q -> round a = round b) ->
  percentile_index n (100 * (1 - 1)) round = 0%nat.
Proof.
  intros Hn Hz Hc. unfold percentile_index.
  rewrite (Hc _ (inject_Z 0)), Hz.
  - unfold clip. lia.
  - unfold Qdiv. change (inject_Z 0) with 0%Q. ring.
Qed.

Section FullConfidence.

Context {AS : ArgSort} {ASS : ArgSortSpec AS}.

(** X4.  with [confidence = 1.0] and no explicit threshold, on an input
    free of NaN the derived threshold is the smallest magnitude in the
    input, and only the elements equal to zero are Near-Zero. *)
Theorem confidence_one_only_exact_zeros x :
  Forall (Forall is_num) x ->
  concat x <> [] ->
  exists p z n t,
    classification_mask x 1 None = Ok (p, z, n, Num t) /\
    (forall i j v, at2 x i j = Some (Num v) -> (t <= Qabs v)%Q) /\
    (exists i j v, at2 x i j = Some (Num v) /\ (Qabs v == t)%Q) /\
    (forall i j v, at2 x i j = Some (Num v) ->
       (at2 z i j = Some true <-> (v == 0)%Q) /\
       (at2 p i j = Some true <-> (0 < v)%Q) /\
       (at2 n i j = Some true <-> (v < 0)%Q)).
Proof.
  intros Hnum Hx. rewrite classification_mask_elementwise. simpl derive_threshold.
  set (A := concat (tf_abs x)).
  assert (HA : A = map fabs (concat x)) by apply concat_tf_abs.
  assert (HAe : A <> []).
  { rewrite HA. intro H. apply map_eq_nil in H. contradiction. }
  assert (HAn : Forall is_num A).
  { rewrite HA. apply Forall_forall. intros a Ha. apply in_map_iff in Ha.
    destruct Ha as (u & <- & Hu).
    pose proof (Forall_is_num_concat x Hnum) as Hc. rewrite Forall_forall in Hc.
    specialize (Hc u Hu). destruct u; [exact I | contradiction]. }
  assert (Hlen : (0 < length A)%nat) by (destruct A; simpl; [congruence | lia]).
  rewrite (percentile_unfold A _ HAe), (Forall_is_num_existsb A HAn).
  rewrite (percentile_index_bottom _ Qfloor Hlen Qfloor_Z Qfloor_comp).
  rewrite (percentile_index_bottom _ Qceiling Hlen Qceiling_Z Qceiling_comp).
  destruct (tf_sort_nth_num A 0 0 HAn) as (m & m' & Em & Em' & _); [lia|].
  assert (Hin : In (Num m) A) by (rewrite <- Em; apply tf_sort_nth_in; lia).
  assert (Hmin : forall a, In (Num a) A -> (m <= a)%Q).
  { intros a Ha. apply (Permutation_in _ (Permutation_sym (tf_sort_perm A))) in Ha.
    apply (In_nth _ _ NaN) in Ha. destruct Ha as (i & Hi & Ei).
    rewrite tf_sort_length in Hi.
    destruct (tf_sort_nth_num A 0 i HAn) as (m'' & a' & Em'' & Ea & Hle); [lia|].
    rewrite Ei in Ea. rewrite Em in Em''. injection Ea as <-. injection Em'' as <-.
    exact Hle. }
  assert (Habs : forall i j v, at2 x i j = Some (Num v) -> (m <= Qabs v)%Q).
  { intros i j v Hv. apply at2_in_concat in Hv. apply Hmin.
    rewrite HA. apply in_map_iff. exists (Num v). split; [reflexivity | exact Hv]. }
  rewrite Em. simpl bind.
  exists (map2d (pos_class (Num ((1 # 2) * (m + m)))) x),
         (map2d (zero_class (Num ((1 # 2) * (m + m)))) x),
         (map2d (neg_class (Num ((1 # 2) * (m + m)))) x),
         ((1 # 2) * (m + m))%Q.
  split; [reflexivity|]. split; [|split].
  - intros i j v Hv. specialize (Habs i j v Hv). lra.
  - rewrite HA in Hin. apply in_map_iff in Hin. destruct Hin as (u & Eu & Hu).
    destruct u as [v|]; [|discriminate]. simpl in Eu. injection Eu as Eu.
    apply in_concat_at2 in Hu. destruct Hu as (i & j & Hij).
    exists i, j, v. split; [exact Hij|]. rewrite Eu. lra.
  - intros i j v Hv. specialize (Habs i j v Hv). rewrite !at2_map2d, Hv. simpl.
    assert (Hz : zero_class (Num ((1 # 2) * (m + m))) (Num v) = true <-> (v == 0)%Q).
    { unfold zero_class. simpl. rewrite orb_true_iff, Qeq_bool_iff, Qltb_lt.
      split; [intros [H | H]; [exact H | lra] | now left]. }
    assert (Hz' : zero_class (Num ((1 # 2) * (m + m))) (Num v) = false <-> ~ (v == 0)%Q).
    { rewrite <- Hz. destruct (zero_class _ _); split; congruence. }
    unfold pos_class, neg_class, fgtb. cbn [fltb].
    repeat split.
    + intros [= H]. now apply Hz.
    + intro H. f_equal. now apply Hz.
    + intros [= H]. apply andb_true_iff in H. destruct H as [H _]. now apply Qltb_lt.
    + intro H. f_equal. apply andb_true_iff. split; [now apply Qltb_lt|].
      apply negb_true_iff, Hz'. lra.
    + intros [= H]. apply andb_true_iff in H. destruct H as [H _]. now apply Qltb_lt.
    + intro H. f_equal. apply andb_true_iff. split; [now apply Qltb_lt|].
      apply negb_true_iff, Hz'. lra.
Qed.

End FullConfidence.

Lemma confidence_one_only_exact_zeros_witness :
  exists p z n t,
    @classification_mask stable_argsort [[Num 0; Num (-2)]; [Num 3; Num 1]] 1 None
      = Ok (p, z, n, Num t) /\
    (forall i j v, at2 [[Num 0; Num (-2)]; [Num 3; Num 1]] i j = Some (Num v) -> (t <= Qabs v)%Q) /\
    (exists i j v, at2 [[Num 0; Num (-2)]; [Num 3; Num 1]] i j = Some (Num v) /\ (Qabs v == t)%Q) /\
    (forall i j v, at2 [[Num 0; Num (-2)]; [Num 3; Num 1]] i j = Some (Num v) ->
       (at2 z i j = Some true <-> (v == 0)%Q) /\
       (at2 p i j = Some true <-> (0 < v)%Q) /\
       (at2 n i j = Some true <-> (v < 0)%Q)).
Proof.
  apply (@confidence_one_only_exact_zeros stable_argsort stable_argsort_spec
           [[Num 0; Num (-2)]; [Num 3; Num 1]]).
  - repeat constructor.
  - discriminate.
Defined.

(* ================================================================== *)
(** ** What the counts count *)

Lemma inject_S n : (inject_Z (Z.of_nat (S n)) == 1 + inject_Z (Z.of_nat n))%Q.
Proof. rewrite Nat2Z.inj_succ, <- Z.add_1_l, inject_Z_plus. reflexivity. Qed.

Lemma qdot_indicators (c1 c2 : fval -> bool) a : forall b,
  (qsum (zip_with fmul (map (fun u => of_bool (c1 u)) a) (map (fun w => of_bool (c2 w)) b))
   == inject_Z (Z.of_nat (pair_count c1 c2 a b)))%Q.
Proof.
  unfold pair_count.
  induction a as [|u a IH]; intros [|w b]; try reflexivity.
  specialize (IH b). unfold qsum in *.
  cbn [map zip_with fold_right combine filter fst snd].
  set (n := length (filter (fun p : fval * fval => c1 (fst p) && c2 (snd p)) (combine a b))) in *.
  pose proof (inject_S n) as HS.
  destruct (c1 u), (c2 w); cbn [andb of_bool fmul qv length]; fold n; lra.
Qed.

Lemma Forall_of_bool (c : fval -> bool) l : Forall is_num (map (fun u => of_bool (c u)) l).
Proof.
  apply Forall_forall. intros v Hv. apply in_map_iff in Hv.
  now destruct Hv as (u & <- & _).
Qed.

Lemma dot_indicators c1 c2 a b :
  feq (dot (map (fun u => of_bool (c1 u)) a) (map (fun w => of_bool (c2 w)) b))
      (of_nat (pair_count c1 c2 a b)).
Proof.
  destruct (dot_num _ _ (Forall_of_bool c1 a) (Forall_of_bool c2 b)) as (q & -> & Hq).
  unfold of_nat. simpl. rewrite Hq. apply qdot_indicators.
Qed.

(** On numbers, every index pair falls into exactly one of the nine pairs
    of classes. *)
Lemma pair_count_total tx ty a : forall b,
  Forall is_num a -> Forall is_num b ->
  fold_right Nat.add 0%nat
    (map (fun cc : (fval -> fval -> bool) * (fval -> fval -> bool) =>
            pair_count (fst cc tx) (snd cc ty) a b) class_pairs)
  = Nat.min (length a) (length b).
Proof.
  unfold pair_count, class_pairs. cbn [map fold_right fst snd].
  induction a as [|u a IH]; intros [|w b] Ha Hb; try reflexivity.
  inversion Ha as [|? ? Hu Ha']; inversion Hb as [|? ? Hw Hb']; subst.
  specialize (IH b Ha' Hb').
  destruct (is_num_exists _ Hu) as [p ->]. destruct (is_num_exists _ Hw) as [q ->].
  pose proof (class_partition_num tx p) as Hp. pose proof (class_partition_num ty q) as Hq.
  cbn [combine filter fst snd length Nat.min].
  destruct (pos_class tx (Num p)), (zero_class tx (Num p)), (neg_class tx (Num p));
    simpl in Hp; try discriminate;
    destruct (pos_class ty (Num q)), (zero_class ty (Num q)), (neg_class ty (Num q));
    simpl in Hq; try discriminate; cbn [andb length]; lia.
Qed.

Lemma tf_matmul_shape_only (f g : fval -> fval) x y w :
  tf_matmul (map2d f x) (map2d g y) = Ok w -> exists v, tf_matmul x y = Ok v.
Proof.
  unfold tf_matmul. rewrite num_cols_map2d, !rectangular_map2d.
  unfold map2d at 1. rewrite length_map.
  destruct (rectangular (length y) x && rectangular (num_cols y) y); [eauto | discriminate].
Qed.

Section ClassifyExplicit.

Context {AS : ArgSort}.

(** The arrays [matmul_classify] returns, cell by cell. *)
Lemma matmul_classify_explicit x y confidence thresholds t1 t2 tx ty v :
  _parse_thresholds_arg thresholds = Ok (t1, t2) ->
  derive_threshold x confidence t1 = Ok tx ->
  derive_threshold y confidence t2 = Ok ty ->
  tf_matmul x y = Ok v ->
  matmul_classify x y confidence thresholds =
  Ok (mk_ndarray 9
        (map (fun c : list fval * nat =>
                map (fun cc : (fval -> fval -> bool) * (fval -> fval -> bool) =>
                       dot (map (fun u => of_bool (fst cc tx u)) (fst c))
                           (map (fun w => of_bool (snd cc ty w)) (column y (snd c))))
                    class_pairs)
             (cells x (num_cols y))),
      mk_ndarray 9
        (map (fun c : list fval * nat =>
                map (fun cc : (fval -> fval -> bool) * (fval -> fval -> bool) =>
                       dot (map (masked (fst cc tx)) (fst c))
                           (map (masked (snd cc ty)) (column y (snd c))))
                    class_pairs)
             (cells x (num_cols y))),
      (tx, ty)).
Proof.
  intros Hparse Htx Hty Hv.
  unfold matmul_classify, classify_with. rewrite Hparse. simpl bind.
  rewrite !classification_mask_elementwise, Htx, Hty.
  simpl bind. unfold tf_cast. rewrite !map2d_map2d.
  rewrite !(tf_matmul_map2d _ _ _ _ _ Hv). simpl bind.
  rewrite !tf_where_masked, !(tf_matmul_map2d _ _ _ _ _ Hv). simpl bind.
  set (m := num_cols y).
  set (Fc := map (fun cc : (fval -> fval -> bool) * (fval -> fval -> bool) =>
                    fun c : list fval * nat =>
                      dot (map (fun u => of_bool (fst cc tx u)) (fst c))
                          (map (fun w => of_bool (snd cc ty w)) (column y (snd c))))
                 class_pairs).
  set (Fs := map (fun cc : (fval -> fval -> bool) * (fval -> fval -> bool) =>
                    fun c : list fval * nat =>
                      dot (map (masked (fst cc tx)) (fst c))
                          (map (masked (snd cc ty)) (column y (snd c))))
                 class_pairs).
  rewrite (np_stack_cells _ ([], 0%nat) _ Fc (cells x m)).
  - rewrite (np_stack_cells _ ([], 0%nat) _ Fs (cells x m)).
    + reflexivity.
    + discriminate.
    + unfold Fs, class_pairs. cbn [map fst snd].
      rewrite !(concat_grid (fun xr j => dot (map _ xr) (map _ (column y j)))).
      reflexivity.
  - discriminate.
  - unfold Fc, class_pairs. cbn [map fst snd].
    rewrite !(concat_grid (fun xr j => dot (map _ xr) (map _ (column y j)))).
    reflexivity.
Qed.

(** A successful [matmul_classify] has parsed its thresholds, derived
    both of them and multiplied matrices of matching shapes. *)
Lemma matmul_classify_inv x y confidence thresholds counts sums thr :
  matmul_classify x y confidence thresholds = Ok (counts, sums, thr) ->
  exists t1 t2 v,
    _parse_thresholds_arg thresholds = Ok (t1, t2) /\
    derive_threshold x confidence t1 = Ok (fst thr) /\
    derive_threshold y confidence t2 = Ok (snd thr) /\
    tf_matmul x y = Ok v.
Proof.
  unfold matmul_classify, classify_with.
  destruct (_parse_thresholds_arg thresholds) as [[t1 t2]|] eqn:Hp; [|discriminate].
  simpl bind. rewrite !classification_mask_elementwise.
  destruct (derive_threshold x confidence t1) as [tx|] eqn:Hx; [|discriminate].
  simpl bind.
  destruct (derive_threshold y confidence t2) as [ty|] eqn:Hy; [|discriminate].
  simpl bind. unfold tf_cast. rewrite !map2d_map2d.
  destruct (tf_matmul (map2d (fun a => of_bool (pos_class tx a)) x)
                      (map2d (fun a => of_bool (pos_class ty a)) y)) as [w|] eqn:Hw.
  - destruct (tf_matmul_shape_only _ _ _ _ _ Hw) as [v Hv].
    intro H. exists t1, t2, v.
    rewrite <- Hw in H.
    pose proof (matmul_classify_explicit x y confidence thresholds t1 t2 tx ty v Hp Hx Hy Hv) as E.
    unfold matmul_classify, classify_with in E. rewrite Hp in E. simpl bind in E.
    rewrite !classification_mask_elementwise, Hx, Hy in E. simpl bind in E.
    unfold tf_cast in E. rewrite !map2d_map2d in E. rewrite E in H.
    injection H as <- <- <-. auto.
  - simpl. discriminate.
Qed.

End ClassifyExplicit.

Lemma tf_multiply_shape_only (f g : fval -> fval) x y w :
  tf_multiply (map2d f x) (map2d g y) = Ok w -> exists v, tf_multiply x y = Ok v.
Proof.
  unfold tf_multiply. rewrite !num_cols_map2d, !rectangular_map2d, broadcast_arrays_map2d.
  destruct (rectangular (num_cols x) x && rectangular (num_cols y) y); [|discriminate].
  destruct (broadcast_arrays x y) as [[xb yb]|]; [eauto | discriminate].
Qed.

Lemma tf_multiply_rectangular x y v :
  tf_multiply x y = Ok v ->
  rectangular (num_cols x) x = true /\ rectangular (num_cols y) y = true.
Proof.
  unfold tf_multiply.
  destruct (rectangular (num_cols x) x), (rectangular (num_cols y) y);
    simpl; try discriminate. auto.
Qed.

Lemma cells_length x m : length (cells x m) = (length x * m)%nat.
Proof.
  unfold cells. induction x as [|xr x IH]; simpl; [reflexivity|].
  now rewrite length_app, length_map, length_seq, IH.
Qed.

Section ClassifyExplicitElementwise.

Context {AS : ArgSort}.

(** The arrays [multiply_classify] returns, element by element. *)
Lemma multiply_classify_explicit x y confidence thresholds t1 t2 tx ty v xb yb :
  _parse_thresholds_arg thresholds = Ok (t1, t2) ->
  derive_threshold x confidence t1 = Ok tx ->
  derive_threshold y confidence t2 = Ok ty ->
  tf_multiply x y = Ok v ->
  broadcast_arrays x y = Some (xb, yb) ->
  multiply_classify x y confidence thresholds =
  Ok (mk_ndarray 9
        (map (fun c : fval * fval =>
                map (fun cc : (fval -> fval -> bool) * (fval -> fval -> bool) =>
                       fmul (of_bool (fst cc tx (fst c))) (of_bool (snd cc ty (snd c))))
                    class_pairs)
             (combine (concat xb) (concat yb))),
      mk_ndarray 9
        (map (fun c : fval * fval =>
                map (fun cc : (fval -> fval -> bool) * (fval -> fval -> bool) =>
                       fmul (masked (fst cc tx) (fst c)) (masked (snd cc ty) (snd c)))
                    class_pairs)
             (combine (concat xb) (concat yb))),
      (tx, ty)).
Proof.
  intros Hparse Htx Hty Hv Hb.
  unfold multiply_classify, classify_with. rewrite Hparse. simpl bind.
  rewrite !classification_mask_elementwise, Htx, Hty.
  simpl bind. unfold tf_cast. rewrite !map2d_map2d.
  destruct (tf_multiply_map2d x y v Hv) as (xb' & yb' & Hb' & Hsh & _ & Hm).
  rewrite Hb in Hb'. injection Hb' as <- <-.
  rewrite !Hm. simpl bind. rewrite !tf_where_masked, !Hm. simpl bind.
  set (Fc := map (fun cc : (fval -> fval -> bool) * (fval -> fval -> bool) =>
                    fun c : fval * fval =>
                      fmul (of_bool (fst cc tx (fst c))) (of_bool (snd cc ty (snd c))))
                 class_pairs).
  set (Fs := map (fun cc : (fval -> fval -> bool) * (fval -> fval -> bool) =>
                    fun c : fval * fval =>
                      fmul (masked (fst cc tx) (fst c)) (masked (snd cc ty) (snd c)))
                 class_pairs).
  rewrite (np_stack_cells _ (Num 0, Num 0) _ Fc (combine (concat xb) (concat yb))).
  - rewrite (np_stack_cells _ (Num 0, Num 0) _ Fs (combine (concat xb) (concat yb))).
    + reflexivity.
    + discriminate.
    + unfold Fs, class_pairs. cbn [map fst snd].
      rewrite !(fun h => concat_zip2d h xb yb Hsh).
      reflexivity.
  - discriminate.
  - unfold Fc, class_pairs. cbn [map fst snd].
    rewrite !(fun h => concat_zip2d h xb yb Hsh).
    reflexivity.
Qed.

Lemma multiply_classify_inv x y confidence thresholds counts sums thr :
  multiply_classify x y confidence thresholds = Ok (counts, sums, thr) ->
  exists t1 t2 v xb yb,
    _parse_thresholds_arg thresholds = Ok (t1, t2) /\
    derive_threshold x confidence t1 = Ok (fst thr) /\
    derive_threshold y confidence t2 = Ok (snd thr) /\
    tf_multiply x y = Ok v /\
    broadcast_arrays x y = Some (xb, yb) /\
    counts = mk_ndarray 9
               (map (fun c : fval * fval =>
                       map (fun cc : (fval -> fval -> bool) * (fval -> fval -> bool) =>
                              fmul (of_bool (fst cc (fst thr) (fst c)))
                                   (of_bool (snd cc (snd thr) (snd c))))
                           class_pairs)
                    (combine (concat xb) (concat yb))).
Proof.
  unfold multiply_classify, classify_with.
  destruct (_parse_thresholds_arg thresholds) as [[t1 t2]|] eqn:Hp; [|discriminate].
  simpl bind. rewrite !classification_mask_elementwise.
  destruct (derive_threshold x confidence t1) as [tx|] eqn:Hx; [|discriminate].
  simpl bind.
  destruct (derive_threshold y confidence t2) as [ty|] eqn:Hy; [|discriminate].
  simpl bind. unfold tf_cast. rewrite !map2d_map2d.
  destruct (tf_multiply (map2d (fun a => of_bool (pos_class tx a)) x)
                        (map2d (fun a => of_bool (pos_class ty a)) y)) as [w|] eqn:Hw.
  - destruct (tf_multiply_shape_only _ _ _ _ _ Hw) as [v Hv].
    destruct (tf_multiply_map2d x y v Hv) as (xb & yb & Hb & _).
    intro H. exists t1, t2, v, xb, yb.
    rewrite <- Hw in H.
    pose proof (multiply_classify_explicit x y confidence thresholds t1 t2 tx ty v xb yb
                  Hp Hx Hy Hv Hb) as E.
    unfold multiply_classify, classify_with in E. rewrite Hp in E. simpl bind in E.
    rewrite !classification_mask_elementwise, Hx, Hy in E. simpl bind in E.
    unfold tf_cast in E. rewrite !map2d_map2d in E. rewrite E in H.
    injection H as <- <- <-. simpl. auto 10.
  - simpl. discriminate.
Qed.

(** The arrays [tensor_classify] returns, element by element. *)
Lemma tensor_classify_explicit x confidence threshold t :
  derive_threshold x confidence threshold = Ok t ->
  tensor_classify x confidence threshold =
  Ok (mk_ndarray 3
        (map (fun v => map (fun c : fval -> fval -> bool => of_bool (c t v)) class_tests)
             (concat x)),
      mk_ndarray 3
        (map (fun v => map (fun c : fval -> fval -> bool => masked (c t) v) class_tests)
             (concat x)),
      t).
Proof.
  intros Ht. unfold tensor_classify.
  rewrite classification_mask_elementwise, Ht. simpl bind.
  unfold tf_cast. rewrite !map2d_map2d, !tf_where_masked.
  set (Fc := map (fun c : fval -> fval -> bool => fun v => of_bool (c t v)) class_tests).
  set (Fs := map (fun c : fval -> fval -> bool => fun v => masked (c t) v) class_tests).
  rewrite (np_stack_cells _ (Num 0) _ Fc (concat x)).
  - rewrite (np_stack_cells _ (Num 0) _ Fs (concat x)).
    + reflexivity.
    + discriminate.
    + unfold Fs, class_tests, map2d. cbn [map]. now rewrite <- !concat_map.
  - discriminate.
  - unfold Fc, class_tests, map2d. cbn [map]. now rewrite <- !concat_map.
Qed.

End ClassifyExplicitElementwise.

Lemma Forall2_map_left (A B : Type) (R : B -> A -> Prop) (f : A -> B) l :
  (forall a, In a l -> R (f a) a) -> Forall2 R (map f l) l.
Proof.
  induction l as [|a l IH]; intro H; simpl; constructor.
  - apply H. now left.
  - apply IH. intros b Hb. apply H. now right.
Qed.

Lemma column_length y j : length (column y j) = length y.
Proof. unfold column. apply length_map. Qed.

Lemma np_sum_indicators tx ty a b :
  Forall is_num a -> Forall is_num b ->
  feq (np_sum
         (map (fun cc : (fval -> fval -> bool) * (fval -> fval -> bool) =>
                 dot (map (fun u => of_bool (fst cc tx u)) a)
                     (map (fun w => of_bool (snd cc ty w)) b))
              class_pairs))
      (of_nat (Nat.min (length a) (length b))).
Proof.
  intros Ha Hb.
  pose proof (pair_count_total tx ty a b Ha Hb) as Htot.
  unfold class_pairs in *. cbn [map fst snd fold_right] in *.
  rewrite <- Htot. clear Htot.
  repeat match goal with
         | |- context [dot (map (fun u => of_bool (?c1 u)) a) (map (fun w => of_bool (?c2 w)) b)] =>
             let q := fresh "q" in
             let E := fresh "E" in
             destruct (dot_num _ _ (Forall_of_bool c1 a) (Forall_of_bool c2 b)) as (q & -> & E);
             rewrite (qdot_indicators c1 c2 a b) in E
         end.
  unfold of_nat. simpl.
  rewrite !Nat2Z.inj_add, !inject_Z_plus. simpl (Z.of_nat 0). change (inject_Z 0) with 0%Q.
  lra.
Qed.

Lemma dot_indicators_nonneg (c1 c2 : fval -> bool) a b :
  is_num (dot (map (fun u => of_bool (c1 u)) a) (map (fun w => of_bool (c2 w)) b)) /\
  (0 <= qv (dot (map (fun u => of_bool (c1 u)) a) (map (fun w => of_bool (c2 w)) b)))%Q.
Proof.
  pose proof (dot_indicators c1 c2 a b) as Hd.
  destruct (dot _ _) as [q|]; [|contradiction].
  split; [exact I|]. unfold of_nat in Hd. simpl in *. rewrite Hd.
  change 0%Q with (inject_Z 0). rewrite <- Zle_Qle. lia.
Qed.

Section ClassifyCounts.

Context {AS : ArgSort}.

(** X5.  the counts of [matmul_classify] count.  The result holds one row
    per cell of the product, in C order, and in the row of cell [(i, j)]
    the entry of each term is the number of indices [l] at which [x[i, l]]
    is in the first class of the term and [y[l, j]] in the second. *)
Theorem matmul_classify_counts_count x y confidence thresholds counts sums tx ty :
  matmul_classify x y confidence thresholds = Ok (counts, sums, (tx, ty)) ->
  channels counts = 9%nat /\
  Forall2
    (fun row (c : list fval * nat) =>
       Forall2
         (fun count (cc : (fval -> fval -> bool) * (fval -> fval -> bool)) =>
            feq count (of_nat (pair_count (fst cc tx) (snd cc ty) (fst c) (column y (snd c)))))
         row class_pairs)
    (positions counts) (cells x (num_cols y)).
Proof.
  intro H. destruct (matmul_classify_inv _ _ _ _ _ _ _ H) as (t1 & t2 & v & Hp & Hx & Hy & Hv).
  simpl in Hx, Hy.
  rewrite (matmul_classify_explicit _ _ _ _ _ _ _ _ _ Hp Hx Hy Hv) in H.
  injection H as <- _. split; [reflexivity|]. cbn [positions].
  apply Forall2_map_left. intros c _.
  unfold class_pairs. repeat (constructor; [apply dot_indicators|]). constructor.
Qed.

(** X6.  on inputs free of NaN the nine counts of every cell add up to the
    length of the contracted dimension. *)
Theorem matmul_classify_counts_total x y confidence thresholds counts sums thr :
  Forall (Forall is_num) x ->
  Forall (Forall is_num) y ->
  matmul_classify x y confidence thresholds = Ok (counts, sums, thr) ->
  Forall (fun row => feq (np_sum row) (of_nat (length y))) (positions counts) /\
  Forall (Forall (fun count => is_num count /\ (0 <= qv count)%Q)) (positions counts).
Proof.
  intros Hnx Hny H.
  destruct (matmul_classify_inv _ _ _ _ _ _ _ H) as (t1 & t2 & v & Hp & Hx & Hy & Hv).
  destruct thr as [tx ty]. simpl in Hx, Hy.
  rewrite (matmul_classify_explicit _ _ _ _ _ _ _ _ _ Hp Hx Hy Hv) in H.
  injection H as <- _. cbn [positions].
  apply tf_matmul_inv in Hv. destruct Hv as (Hrx & _ & _).
  split.
  - apply Forall_forall. intros row Hrow. apply in_map_iff in Hrow.
    destruct Hrow as (c & <- & Hc). apply in_cells in Hc. destruct Hc as [Hc _].
    pose proof (np_sum_indicators tx ty (fst c) (column y (snd c))) as Hs.
    rewrite column_length, (rectangular_in _ _ _ _ Hrx Hc), Nat.min_id in Hs.
    apply Hs.
    + rewrite Forall_forall in Hnx. now apply Hnx.
    + now apply column_num.
  - apply Forall_forall. intros row Hrow. apply in_map_iff in Hrow.
    destruct Hrow as (c & <- & _).
    repeat (constructor; [apply dot_indicators_nonneg|]). constructor.
Qed.

(** X7.  the counts of the elementwise classifiers are indicators.  For
    [tensor_classify] the row of an element holds 1 under the class of the
    element and 0 elsewhere; for [multiply_classify] the row of a pair of
    elements, taken from the two operands broadcast to their common shape
    (the operands themselves when they have one shape), holds the product
    of the two indicators; on inputs free of NaN every row adds up to 1. *)
Theorem elementwise_counts_are_indicators x y confidence :
  (forall threshold counts sums t,
     tensor_classify x confidence threshold = Ok (counts, sums, t) ->
     positions counts
     = map (fun v => [of_bool (pos_class t v); of_bool (zero_class t v); of_bool (neg_class t v)])
           (concat x) /\
     (Forall (Forall is_num) x ->
      Forall (fun row => feq (np_sum row) (Num 1)) (positions counts))) /\
  (forall thresholds counts sums tx ty,
     multiply_classify x y confidence thresholds = Ok (counts, sums, (tx, ty)) ->
     exists xb yb,
       broadcast_arrays x y = Some (xb, yb) /\
       (same_shape x y = true -> xb = x /\ yb = y) /\
       positions counts
       = map (fun c : fval * fval =>
                map (fun cc : (fval -> fval -> bool) * (fval -> fval -> bool) =>
                       fmul (of_bool (fst cc tx (fst c))) (of_bool (snd cc ty (snd c))))
                    class_pairs)
             (combine (concat xb) (concat yb)) /\
       (Forall (Forall is_num) x -> Forall (Forall is_num) y ->
        Forall (fun row => feq (np_sum row) (Num 1)) (positions counts))).
Proof.
  split.
  - intros threshold counts sums t H.
    assert (Ht : derive_threshold x confidence threshold = Ok t).
    { unfold tensor_classify in H. rewrite classification_mask_elementwise in H.
      destruct (derive_threshold x confidence threshold) as [t'|]; [|discriminate].
      simpl in H. now injection H as _ _ <-. }
    rewrite (tensor_classify_explicit _ _ _ _ Ht) in H. injection H as <- _.
    split; [reflexivity|]. intro Hn. cbn [positions].
    apply Forall_forall. intros row Hrow. apply in_map_iff in Hrow.
    destruct Hrow as (v & <- & Hv).
    pose proof (Forall_is_num_concat x Hn) as Hc. rewrite Forall_forall in Hc.
    destruct (is_num_exists _ (Hc v Hv)) as [q ->].
    pose proof (class_partition_num t q) as Hq.
    unfold class_tests. cbn [map].
    destruct (pos_class t (Num q)), (zero_class t (Num q)), (neg_class t (Num q));
      simpl in Hq; try discriminate; simpl; lra.
  - intros thresholds counts sums tx ty H.
    destruct (multiply_classify_inv _ _ _ _ _ _ _ H)
      as (t1 & t2 & v & xb & yb & Hp & Hx & Hy & Hv & Hb & ->).
    simpl in Hx, Hy. exists xb, yb. split; [exact Hb|]. split.
    { intro Hsh. destruct (tf_multiply_rectangular _ _ _ Hv) as [Rx Ry].
      rewrite (broadcast_arrays_same_shape _ _ x y Rx Ry Hsh) in Hb.
      now injection Hb as <- <-. }
    split; [reflexivity|]. intros Hnx Hny. cbn [positions fst snd].
    destruct (broadcast_arrays_Forall _ _ is_num is_num _ _ _ _ Hb) as [Hxb Hyb].
    specialize (Hxb Hnx). specialize (Hyb Hny).
    apply Forall_forall. intros row Hrow. apply in_map_iff in Hrow.
    destruct Hrow as ([u w] & <- & Hc).
    pose proof (Forall_is_num_concat xb Hxb) as Hcx. rewrite Forall_forall in Hcx.
    pose proof (Forall_is_num_concat yb Hyb) as Hcy. rewrite Forall_forall in Hcy.
    destruct (is_num_exists _ (Hcx u (in_combine_l _ _ _ _ Hc))) as [p ->].
    destruct (is_num_exists _ (Hcy w (in_combine_r _ _ _ _ Hc))) as [q ->].
    pose proof (class_partition_num tx p) as Hp'. pose proof (class_partition_num ty q) as Hq'.
    unfold class_pairs. cbn [map fst snd].
    destruct (pos_class tx (Num p)), (zero_class tx (Num p)), (neg_class tx (Num p));
      simpl in Hp'; try discriminate;
      destruct (pos_class ty (Num q)), (zero_class ty (Num q)), (neg_class ty (Num q));
      simpl in Hq'; try discriminate; simpl; lra.
Qed.

End ClassifyCounts.

Lemma matmul_classify_counts_count_witness :
  exists counts sums tx ty,
    @matmul_classify stable_argsort [[Num 1; Num (-2)]] [[Num 3]; [Num 4]] (95 # 100) ThNone
      = Ok (counts, sums, (tx, ty)) /\
    channels counts = 9%nat /\
    Forall2
      (fun row (c : list fval * nat) =>
         Forall2
           (fun count (cc : (fval -> fval -> bool) * (fval -> fval -> bool)) =>
              feq count (of_nat (pair_count (fst cc tx) (snd cc ty) (fst c)
                                            (column [[Num 3]; [Num 4]] (snd c)))))
           row class_pairs)
      (positions counts) (cells [[Num 1; Num (-2)]] (num_cols [[Num 3]; [Num 4]])).
Proof.
  do 4 eexists. split; [reflexivity|].
  eapply (@matmul_classify_counts_count stable_argsort
           [[Num 1; Num (-2)]] [[Num 3]; [Num 4]] (95 # 100) ThNone).
  reflexivity.
Defined.

Lemma matmul_classify_counts_total_witness :
  exists counts sums thr,
    @matmul_classify stable_argsort [[Num 1; Num (-2)]] [[Num 3]; [Num 4]] (95 # 100) ThNone
      = Ok (counts, sums, thr) /\
    Forall (fun row => feq (np_sum row) (of_nat (length [[Num 3]; [Num 4]]))) (positions counts) /\
    Forall (Forall (fun count => is_num count /\ (0 <= qv count)%Q)) (positions counts).
Proof.
  do 3 eexists. split; [reflexivity|].
  eapply (@matmul_classify_counts_total stable_argsort
           [[Num 1; Num (-2)]] [[Num 3]; [Num 4]] (95 # 100) ThNone).
  - repeat constructor.
  - repeat constructor.
  - reflexivity.
Defined.

(* ================================================================== *)
(** ** From a classifier to [standardize] and [filter_classifications] *)

Lemma standardize_plain {AS : ArgSort} (c s : list (list fval)) n tl :
  length c = length s ->
  classify_terms (Some (mk_ndarray n c)) = Ok tl ->
  standardize (mk_ndarray n c) (mk_ndarray n s) None None true
  = Ok (mk_ndarray n c, mk_ndarray n s, TermsList tl).
Proof.
  intros Hl Ht. unfold standardize, same_nd_shape. cbn [channels positions].
  rewrite Hl, !Nat.eqb_refl. simpl. now rewrite Ht.
Qed.

Lemma filter_classifications_total {AS : ArgSort} (c s : list (list fval)) n tl completeness :
  length c = length s ->
  classify_terms (Some (mk_ndarray n c)) = Ok tl ->
  exists c' s' t',
    filter_classifications (mk_ndarray n c) (mk_ndarray n s) completeness = Ok (c', s', t').
Proof.
  intros Hl Ht. unfold filter_classifications, classify_terms_retain_shape, same_nd_shape.
  rewrite Ht. cbn [bind channels positions]. rewrite Hl, !Nat.eqb_refl. simpl. eauto.
Qed.

Section ClassifyCompose.

Context {AS : ArgSort}.

(** X8.  what a classifier returns is accepted by [standardize] and by
    [filter_classifications].  [standardize] of the counts and sums of
    [matmul_classify], [multiply_classify] or [tensor_classify] returns
    them unchanged, with the nine (three) terms in their fixed order. *)
Theorem classify_results_are_standard x y confidence :
  (forall thresholds counts sums thr,
     matmul_classify x y confidence thresholds = Ok (counts, sums, thr) ->
     standardize counts sums None None true = Ok (counts, sums, TermsList terms_two_tensors) /\
     forall completeness, exists c s t,
       filter_classifications counts sums completeness = Ok (c, s, t)) /\
  (forall thresholds counts sums thr,
     multiply_classify x y confidence thresholds = Ok (counts, sums, thr) ->
     standardize counts sums None None true = Ok (counts, sums, TermsList terms_two_tensors) /\
     forall completeness, exists c s t,
       filter_classifications counts sums completeness = Ok (c, s, t)) /\
  (forall threshold counts sums t,
     tensor_classify x confidence threshold = Ok (counts, sums, t) ->
     standardize counts sums None None true = Ok (counts, sums, TermsList terms_one_tensor) /\
     forall completeness, exists c s t,
       filter_classifications counts sums completeness = Ok (c, s, t)).
Proof.
  split; [|split].
  - intros thresholds counts sums [tx ty] H.
    destruct (matmul_classify_inv _ _ _ _ _ _ _ H) as (t1 & t2 & v & Hp & Hx & Hy & Hv).
    simpl in Hx, Hy.
    rewrite (matmul_classify_explicit _ _ _ _ _ _ _ _ _ Hp Hx Hy Hv) in H.
    injection H as <- <-. split.
    + apply standardize_plain; [now rewrite !length_map | reflexivity].
    + intro completeness.
      apply (filter_classifications_total _ _ _ terms_two_tensors);
        [now rewrite !length_map | reflexivity].
  - intros thresholds counts sums [tx ty] H.
    destruct (multiply_classify_inv _ _ _ _ _ _ _ H)
      as (t1 & t2 & v & xb & yb & Hp & Hx & Hy & Hv & Hb & _).
    simpl in Hx, Hy.
    rewrite (multiply_classify_explicit _ _ _ _ _ _ _ _ _ _ _ Hp Hx Hy Hv Hb) in H.
    injection H as <- <-. split.
    + apply standardize_plain; [now rewrite !length_map | reflexivity].
    + intro completeness.
      apply (filter_classifications_total _ _ _ terms_two_tensors);
        [now rewrite !length_map | reflexivity].
  - intros threshold counts sums t H.
    assert (Ht : derive_threshold x confidence threshold = Ok t).
    { unfold tensor_classify in H. rewrite classification_mask_elementwise in H.
      destruct (derive_threshold x confidence threshold) as [t'|]; [|discriminate].
      simpl in H. now injection H as _ _ <-. }
    rewrite (tensor_classify_explicit _ _ _ _ Ht) in H. injection H as <- <-. split.
    + apply standardize_plain; [now rewrite !length_map | reflexivity].
    + intro completeness.
      apply (filter_classifications_total _ _ _ terms_one_tensor);
        [now rewrite !length_map | reflexivity].
Qed.

End ClassifyCompose.

(* ================================================================== *)
(** ** The order and the contents of filtered classifications *)

Lemma StronglySorted_fneg l :
  Forall is_num l ->
  StronglySorted (fun a b => fle_sort a b = true) (map fneg l) ->
  StronglySorted (fun a b => fle b a) l.
Proof.
  induction l as [|a l IH]; intros Hn Hs; [constructor|].
  inversion Hn as [|? ? Ha Hl]; subst. simpl in Hs.
  inversion Hs as [|? ? Hs' Hall]; subst.
  constructor; [now apply IH|].
  rewrite Forall_forall in *. intros b Hb.
  specialize (Hall (fneg b) (in_map fneg _ _ Hb)). specialize (Hl b Hb).
  destruct a as [p|]; [|contradiction]. destruct b as [q|]; [|contradiction].
  simpl in *. apply Qle_bool_iff in Hall. lra.
Qed.

Lemma StronglySorted_snoc (A : Type) (R : A -> A -> Prop) l a :
  StronglySorted R l -> Forall (fun x => R x a) l -> StronglySorted R (l ++ [a]).
Proof.
  induction 1 as [|b l Hs IH Hb]; intro Hall; simpl.
  - repeat constructor.
  - inversion Hall as [|? ? Hba Hl]; subst. constructor; [now apply IH|].
    apply Forall_app. split; [exact Hb | now constructor].
Qed.

Lemma StronglySorted_rev (A : Type) (R : A -> A -> Prop) l :
  StronglySorted R l -> StronglySorted (fun a b => R b a) (rev l).
Proof.
  induction 1 as [|a l Hs IH Ha]; simpl; [constructor|].
  apply StronglySorted_snoc; [exact IH|].
  apply Forall_rev. exact Ha.
Qed.

Lemma StronglySorted_impl (A : Type) (R S : A -> A -> Prop) l :
  (forall a b, In a l -> In b l -> R a b -> S a b) ->
  StronglySorted R l -> StronglySorted S l.
Proof.
  intros H Hs. induction Hs as [|a l Hs IH Ha]; constructor.
  - apply IH. intros x y Hx Hy. apply H; now right.
  - rewrite Forall_forall in *. intros b Hb. apply H; [now left | now right | now apply Ha].
Qed.

Lemma fle_sort_num a b : is_num a -> is_num b -> fle_sort a b = true -> fle a b.
Proof.
  destruct a, b; simpl; try contradiction. intros _ _ H. now apply Qle_bool_iff.
Qed.

Lemma take_any_is_num l idx : Forall is_num l -> Forall is_num (take_along_axis (Num 0) l idx).
Proof.
  intro H. apply Forall_forall. intros v Hv. apply in_map_iff in Hv.
  destruct Hv as (i & <- & _).
  destruct (nth_in_or_default i l (Num 0)) as [Hin | ->]; [|exact I].
  rewrite Forall_forall in H. now apply H.
Qed.

Section FilterOrder.

Context {AS : ArgSort} {ASS : ArgSortSpec AS}.

Lemma filter_phases_counts_num counts sums terms comp c2 s2 t2 m2 :
  Forall is_num counts ->
  filter_phases_at counts sums terms comp = (c2, s2, t2, m2) ->
  Forall is_num c2.
Proof.
  intros Hn. unfold filter_phases_at, _partial_filter_by_sum, _partial_filter_by_count.
  cbv zeta. intro H. injection H as <- _ _ _.
  unfold np_flip. apply Forall_rev, take_any_is_num, Forall_rev, take_any_is_num, Hn.
Qed.

Lemma filter_at_sorted counts sums terms comp c3 s3 t3 :
  Forall is_num counts ->
  filter_classifications_at counts sums terms comp = (c3, s3, t3) ->
  StronglySorted (fun a b => fle b a) c3.
Proof.
  intros Hn. unfold filter_classifications_at.
  destruct (filter_phases_at counts sums terms comp) as [[[c2 s2] t2] m2] eqn:E.
  pose proof (filter_phases_counts_num _ _ _ _ _ _ _ _ Hn E) as Hc2.
  intro H. injection H as <- _ _.
  set (cm := mul_mask c2 m2).
  assert (Hcm : Forall is_num cm) by (now apply mul_mask_is_num).
  apply StronglySorted_fneg; [now apply take_any_is_num|].
  rewrite (map_take _ _ fneg (Num 0)).
  apply (argsort_sorted (K := fval)).
  - exact fle_sort_total.
  - exact fle_sort_trans.
Qed.

Lemma filter_at_terms_perm counts sums terms comp c3 s3 t3 :
  length sums = length counts -> length terms = length counts ->
  filter_classifications_at counts sums terms comp = (c3, s3, t3) ->
  Permutation t3 terms /\ length c3 = length counts /\ length s3 = length counts.
Proof.
  intros Hls Hlt. unfold filter_classifications_at.
  destruct (filter_phases_structure counts sums terms comp Hls Hlt)
    as (pi & m2 & Hpi & Hlm & ->).
  set (n := length counts) in *.
  set (c2 := take_along_axis (Num 0) counts pi).
  set (t2 := take_along_axis EmptyString terms pi).
  set (o3 := argsort fle_sort (map fneg (mul_mask c2 m2))).
  intro H. injection H as <- <- <-.
  pose proof (is_perm_length n pi Hpi) as Hlpi.
  assert (Hlc2 : length c2 = n) by (unfold c2; now rewrite take_along_axis_length).
  assert (Ho3 : is_perm n o3).
  { assert (Hlcm : length (map fneg (mul_mask c2 m2)) = n)
      by (rewrite length_map, mul_mask_length; congruence).
    unfold is_perm, o3. rewrite <- Hlcm. apply argsort_perm. }
  assert (Hpt2 : Permutation t2 terms).
  { apply take_along_axis_perm. rewrite Hlt. exact Hpi. }
  assert (Hlt2 : length t2 = n) by (rewrite (Permutation_length Hpt2); exact Hlt).
  split; [|split].
  - rewrite <- Hpt2. apply take_along_axis_perm. rewrite Hlt2. exact Ho3.
  - rewrite take_along_axis_length. now apply is_perm_length.
  - rewrite take_along_axis_length. now apply is_perm_length.
Qed.

(** X9.  [filter_classifications] returns, at every position, the counts
    in descending order (counts free of NaN). *)
Theorem filter_classifications_sorted_by_count counts sums completeness :
  (channels counts = 3 \/ channels counts = 9)%nat ->
  same_nd_shape counts sums = true ->
  Forall (Forall is_num) (positions counts) ->
  exists counts' sums' terms',
    filter_classifications counts sums completeness = Ok (counts', sums', terms') /\
    length (positions counts') = length (positions counts) /\
    Forall (StronglySorted (fun a b => fle b a)) (positions counts').
Proof.
  intros Hch Hsh Hc.
  destruct (classify_terms_cases fval counts Hch) as (tl & Htl & _ & _).
  destruct (same_nd_shape_inv _ _ counts sums Hsh) as [_ Hlen].
  rewrite (filter_classifications_rows counts sums completeness tl Htl Hsh).
  do 3 eexists. split; [reflexivity|]. cbn [positions]. split.
  - rewrite zip_with_length, <- Hlen. apply Nat.min_id.
  - rewrite zip_with_combine. apply Forall_forall. intros row Hrow.
    apply in_map_iff in Hrow. destruct Hrow as ([c s] & <- & Hcs).
    apply in_combine_l in Hcs. cbn [fst snd].
    destruct (filter_classifications_at c s tl completeness) as [[c3 s3] t3] eqn:E.
    cbn [fst]. apply (filter_at_sorted c s tl completeness c3 s3 t3); [|exact E].
    rewrite Forall_forall in Hc. now apply Hc.
Qed.

(** X10.  [filter_classifications] drops no term.  The terms it returns
    hold, at every position, each term of the term list exactly once, in
    the order of the returned counts and sums, and the three arrays keep
    the shape of the input. *)
Theorem filter_classifications_keeps_every_term counts sums completeness :
  (channels counts = 3 \/ channels counts = 9)%nat ->
  same_nd_shape counts sums = true ->
  well_shaped counts ->
  well_shaped sums ->
  exists counts' sums' terms' terms_list,
    classify_terms (Some counts) = Ok terms_list /\
    filter_classifications counts sums completeness = Ok (counts', sums', terms') /\
    same_nd_shape counts' counts = true /\ same_nd_shape sums' counts = true /\
    same_nd_shape terms' counts = true /\
    well_shaped counts' /\ well_shaped sums' /\
    Forall (fun row => Permutation row terms_list) (positions terms').
Proof.
  intros Hch Hsh Hwc Hws.
  destruct (classify_terms_cases fval counts Hch) as (tl & Htl & Hnd & Hltl).
  destruct (same_nd_shape_inv _ _ counts sums Hsh) as [Hch2 Hlen].
  rewrite (filter_classifications_rows counts sums completeness tl Htl Hsh).
  do 4 eexists. split; [exact Htl|]. split; [reflexivity|].
  assert (Hlz : forall (C : Type) (f : list fval -> list fval -> C),
            length (zip_with f (positions counts) (positions sums))
            = length (positions counts)).
  { intros C f. rewrite zip_with_length, <- Hlen. apply Nat.min_id. }
  assert (Hrow : forall c s, In (c, s) (combine (positions counts) (positions sums)) ->
            forall c3 s3 t3, filter_classifications_at c s tl completeness = (c3, s3, t3) ->
            Permutation t3 tl /\ length c3 = channels counts /\ length s3 = channels counts).
  { intros c s Hcs c3 s3 t3 E.
    pose proof (well_shaped_row _ counts c Hwc (in_combine_l _ _ _ _ Hcs)) as Hlc.
    pose proof (well_shaped_row _ sums s Hws (in_combine_r _ _ _ _ Hcs)) as Hls.
    rewrite <- Hlc.
    apply (filter_at_terms_perm c s tl completeness c3 s3 t3); [congruence | congruence | exact E]. }
  unfold same_nd_shape, well_shaped. cbn [channels positions].
  rewrite !Hlz, <- Hch2, Hltl, !Nat.eqb_refl.
  repeat split.
  - rewrite zip_with_combine. apply Forall_forall. intros row Hr.
    apply in_map_iff in Hr. destruct Hr as ([c s] & <- & Hcs). cbn [fst snd].
    destruct (filter_classifications_at c s tl completeness) as [[c3 s3] t3] eqn:E.
    now destruct (Hrow c s Hcs c3 s3 t3 E) as (_ & ? & _).
  - rewrite zip_with_combine. apply Forall_forall. intros row Hr.
    apply in_map_iff in Hr. destruct Hr as ([c s] & <- & Hcs). cbn [fst snd].
    destruct (filter_classifications_at c s tl completeness) as [[c3 s3] t3] eqn:E.
    now destruct (Hrow c s Hcs c3 s3 t3 E) as (_ & _ & ?).
  - rewrite zip_with_combine. apply Forall_forall. intros row Hr.
    apply in_map_iff in Hr. destruct Hr as ([c s] & <- & Hcs). cbn [fst snd].
    destruct (filter_classifications_at c s tl completeness) as [[c3 s3] t3] eqn:E.
    now destruct (Hrow c s Hcs c3 s3 t3 E) as (? & _ & _).
Qed.

End FilterOrder.

Lemma filter_classifications_sorted_by_count_witness :
  exists counts' sums' terms',
    @filter_classifications stable_argsort sample_counts sample_sums (3 # 4)
      = Ok (counts', sums', terms') /\
    length (positions counts') = length (positions sample_counts) /\
    Forall (StronglySorted (fun a b => fle b a)) (positions counts').
Proof.
  apply (@filter_classifications_sorted_by_count stable_argsort stable_argsort_spec
           sample_counts sample_sums (3 # 4)).
  - right. reflexivity.
  - reflexivity.
  - repeat constructor.
Defined.

Lemma filter_classifications_keeps_every_term_witness :
  exists counts' sums' terms' terms_list,
    classify_terms (Some sample_counts) = Ok terms_list /\
    @filter_classifications stable_argsort sample_counts sample_sums (3 # 4)
      = Ok (counts', sums', terms') /\
    same_nd_shape counts' sample_counts = true /\ same_nd_shape sums' sample_counts = true /\
    same_nd_shape terms' sample_counts = true /\
    well_shaped counts' /\ well_shaped sums' /\
    Forall (fun row => Permutation row terms_list) (positions terms').
Proof.
  apply (@filter_classifications_keeps_every_term stable_argsort stable_argsort_spec
           sample_counts sample_sums (3 # 4)).
  - right. reflexivity.
  - reflexivity.
  - repeat constructor.
  - repeat constructor.
Defined.

(* ================================================================== *)
(** ** The two filter phases *)

Lemma Forall2_orb_r (a : list bool) : forall b,
  length a = length b ->
  Forall2 (fun kept kept' : bool => kept = true -> kept' = true) b (zip_with orb a b).
Proof.
  induction a as [|x a IH]; intros [|y b] H; simpl in *; try discriminate; constructor.
  - intros ->. apply orb_true_r.
  - apply IH. congruence.
Qed.

Section FilterPhases.

Context {AS : ArgSort} {ASS : ArgSortSpec AS}.

(** X11.  what one filter phase does.  [_partial_filter_by_count] reorders
    counts, sums, terms and masks by one permutation of the term positions,
    the counts come out in descending order, and a term flagged as retained
    before the phase is still flagged after it; [_partial_filter_by_sum]
    does the same with the sums in descending order of magnitude. *)
Theorem partial_filters_reorder_and_keep_flags counts sums terms masks completeness :
  Forall is_num counts ->
  Forall is_num sums ->
  (exists idx,
     is_perm (length counts) idx /\
     exists masks',
       _partial_filter_by_count counts sums terms masks completeness
       = (take_along_axis (Num 0) counts idx, take_along_axis (Num 0) sums idx,
          take_along_axis EmptyString terms idx, masks') /\
       StronglySorted (fun a b => fle b a) (take_along_axis (Num 0) counts idx) /\
       Forall2 (fun kept kept' : bool => kept = true -> kept' = true)
         (take_along_axis false masks idx) masks') /\
  (exists idx,
     is_perm (length sums) idx /\
     exists masks',
       _partial_filter_by_sum counts sums terms masks completeness
       = (take_along_axis (Num 0) counts idx, take_along_axis (Num 0) sums idx,
          take_along_axis EmptyString terms idx, masks') /\
       StronglySorted (fun a b => fle (fabs b) (fabs a)) (take_along_axis (Num 0) sums idx) /\
       Forall2 (fun kept kept' : bool => kept = true -> kept' = true)
         (take_along_axis false masks idx) masks').
Proof.
  intros Hn Hns. split.
  - unfold _partial_filter_by_count. cbv zeta.
    set (so := argsort fle_sort counts).
    assert (Hso : is_perm (length counts) so) by apply argsort_perm.
    rewrite !take_along_axis_rev.
    exists (rev so). split; [now apply is_perm_rev|].
    eexists. split; [reflexivity|]. split.
    + rewrite <- take_along_axis_rev. apply StronglySorted_rev.
      apply (StronglySorted_impl _ (fun a b => fle_sort a b = true)).
      * intros a b Ha Hb. apply fle_sort_num.
        -- pose proof (take_any_is_num counts so Hn) as H. rewrite Forall_forall in H. auto.
        -- pose proof (take_any_is_num counts so Hn) as H. rewrite Forall_forall in H. auto.
      * apply (argsort_sorted (K := fval)); [exact fle_sort_total | exact fle_sort_trans].
    + rewrite <- take_along_axis_rev. unfold np_flip.
      rewrite <- zip_with_rev.
      * apply Forall2_orb_r.
        rewrite !length_rev, length_map, np_cumsum_length, !take_along_axis_length. reflexivity.
      * rewrite length_map, np_cumsum_length, !take_along_axis_length. reflexivity.
  - clear Hn. rename Hns into Hn. unfold _partial_filter_by_sum. cbv zeta.
    set (so := argsort fle_sort (map fabs sums)).
    assert (Hso : is_perm (length sums) so).
    { unfold is_perm, so. rewrite <- (length_map fabs). apply argsort_perm. }
    rewrite !take_along_axis_rev.
    exists (rev so). split; [now apply is_perm_rev|].
    eexists. split; [reflexivity|]. split.
    + rewrite <- take_along_axis_rev. apply StronglySorted_rev.
      assert (Habs : Forall is_num (map fabs (take_along_axis (Num 0) sums so))).
      { apply Forall_is_num_map; [intros [q|] Hv; [exact I | contradiction]|].
        now apply take_any_is_num. }
      assert (Hsorted : StronglySorted (fun a b => fle_sort a b = true)
                          (map fabs (take_along_axis (Num 0) sums so))).
      { rewrite (map_take _ _ fabs (Num 0)).
        apply (argsort_sorted (K := fval)); [exact fle_sort_total | exact fle_sort_trans]. }
      clear -Habs Hsorted.
      induction (take_along_axis (Num 0) sums so) as [|a l IH]; [constructor|].
      simpl in *. inversion Habs as [|? ? Ha Hl]; subst.
      inversion Hsorted as [|? ? Hs Hall]; subst.
      constructor; [now apply IH|].
      rewrite Forall_forall in *. intros b Hb.
      apply fle_sort_num; [exact Ha | apply Hl; now apply in_map | apply Hall; now apply in_map].
    + rewrite <- take_along_axis_rev. unfold np_flip.
      rewrite <- zip_with_rev.
      * apply Forall2_orb_r.
        rewrite !length_rev, length_map, zip_with_length, length_map, !np_cumsum_length.
        rewrite !mul_mask_length by (now rewrite length_map).
        rewrite !take_along_axis_length. apply Nat.min_id.
      * rewrite length_map, zip_with_length, length_map, !np_cumsum_length.
        rewrite !mul_mask_length by (now rewrite length_map).
        rewrite !take_along_axis_length. apply Nat.min_id.
Qed.

End FilterPhases.

Lemma partial_filters_reorder_and_keep_flags_witness :
  (exists idx,
     is_perm (length [Num 1; Num 3; Num 0]) idx /\
     exists masks',
       @_partial_filter_by_count stable_argsort [Num 1; Num 3; Num 0] [Num (-5); Num 2; Num 0]
         terms_one_tensor [true; false; false] (3 # 4)
       = (take_along_axis (Num 0) [Num 1; Num 3; Num 0] idx,
          take_along_axis (Num 0) [Num (-5); Num 2; Num 0] idx,
          take_along_axis EmptyString terms_one_tensor idx, masks') /\
       StronglySorted (fun a b => fle b a) (take_along_axis (Num 0) [Num 1; Num 3; Num 0] idx) /\
       Forall2 (fun kept kept' : bool => kept = true -> kept' = true)
         (take_along_axis false [true; false; false] idx) masks') /\
  (exists idx,
     is_perm (length [Num (-5); Num 2; Num 0]) idx /\
     exists masks',
       @_partial_filter_by_sum stable_argsort [Num 1; Num 3; Num 0] [Num (-5); Num 2; Num 0]
         terms_one_tensor [true; false; false] (3 # 4)
       = (take_along_axis (Num 0) [Num 1; Num 3; Num 0] idx,
          take_along_axis (Num 0) [Num (-5); Num 2; Num 0] idx,
          take_along_axis EmptyString terms_one_tensor idx, masks') /\
       StronglySorted (fun a b => fle (fabs b) (fabs a))
         (take_along_axis (Num 0) [Num (-5); Num 2; Num 0] idx) /\
       Forall2 (fun kept kept' : bool => kept = true -> kept' = true)
         (take_along_axis false [true; false; false] idx) masks').
Proof.
  apply (@partial_filters_reorder_and_keep_flags stable_argsort stable_argsort_spec).
  - repeat constructor.
  - repeat constructor.
Defined.

(* ================================================================== *)
(** ** Filtering with full completeness *)

Lemma cumsum_from_nonneg l : forall acc,
  (0 <= acc)%Q ->
  Forall (fun v => is_num v /\ (0 <= qv v)%Q) l ->
  Forall (fun v => is_num v /\ (0 <= qv v)%Q) (cumsum_from (Num acc) l).
Proof.
  induction l as [|v l IH]; intros acc Hacc Hl; simpl; [constructor|].
  inversion Hl as [|? ? [Hv Hv0] Hl']; subst.
  destruct v as [q|]; [|contradiction]. simpl in *.
  constructor; [split; [exact I | simpl; lra]|].
  apply IH; [lra | exact Hl'].
Qed.

Lemma np_cumsum_nonneg l :
  Forall (fun v => is_num v /\ (0 <= qv v)%Q) l ->
  Forall (fun v => is_num v /\ (0 <= qv v)%Q) (np_cumsum l).
Proof.
  destruct l as [|v l]; intro Hl; [constructor|].
  inversion Hl as [|? ? [Hv Hv0] Hl']; subst.
  destruct v as [q|]; [|contradiction]. simpl in *.
  constructor; [now split|]. now apply cumsum_from_nonneg.
Qed.

Lemma take_any_nonneg l idx :
  Forall (fun v => is_num v /\ (0 <= qv v)%Q) l ->
  Forall (fun v => is_num v /\ (0 <= qv v)%Q) (take_along_axis (Num 0) l idx).
Proof.
  intro H. apply Forall_forall. intros v Hv. apply in_map_iff in Hv.
  destruct Hv as (i & <- & _).
  destruct (nth_in_or_default i l (Num 0)) as [Hin | ->].
  - rewrite Forall_forall in H. now apply H.
  - split; [exact I | simpl; lra].
Qed.

Lemma zip_with_orb_all_true (a : list bool) : forall b,
  Forall (fun x => x = true) a -> Forall (fun x => x = true) (zip_with orb a b).
Proof.
  induction a as [|x a IH]; intros [|y b] H; simpl; try constructor.
  - inversion H; subst. reflexivity.
  - inversion H; subst. now apply IH.
Qed.

Lemma all_true_repeat (l : list bool) :
  Forall (fun x => x = true) l -> l = repeat true (length l).
Proof. induction 1 as [|x l -> _ IH]; simpl; [reflexivity | now f_equal]. Qed.

Lemma mul_mask_all_true l :
  Forall is_num l -> Forall2 feq (mul_mask l (repeat true (length l))) l.
Proof.
  induction 1 as [|v l Hv _ IH]; simpl; constructor; [|exact IH].
  destruct v as [q|]; [|contradiction]. simpl. ring.
Qed.

Lemma Forall2_zip_with_l (A B C : Type) (R : C -> A -> Prop) (f : A -> B -> C) a : forall b,
  length a = length b ->
  (forall x y, In x a -> In y b -> R (f x y) x) ->
  Forall2 R (zip_with f a b) a.
Proof.
  induction a as [|x a IH]; intros [|y b] Hl H; simpl in *; try discriminate; constructor.
  - apply H; now left.
  - apply IH; [congruence|]. intros u v Hu Hv. apply H; now right.
Qed.

Lemma Forall2_zip_with_r (A B C : Type) (R : C -> B -> Prop) (f : A -> B -> C) a : forall b,
  length a = length b ->
  (forall x y, In x a -> In y b -> R (f x y) y) ->
  Forall2 R (zip_with f a b) b.
Proof.
  induction a as [|x a IH]; intros [|y b] Hl H; simpl in *; try discriminate; constructor.
  - apply H; now left.
  - apply IH; [congruence|]. intros u v Hu Hv. apply H; now right.
Qed.

Section FullCompleteness.

Context {AS : ArgSort} {ASS : ArgSortSpec AS}.

(** With completeness 1 the count phase flags every term. *)
Lemma filter_phases_all_retained counts sums terms c2 s2 t2 m2 :
  Forall (fun v => is_num v /\ (0 <= qv v)%Q) counts ->
  filter_phases_at counts sums terms 1 = (c2, s2, t2, m2) ->
  Forall (fun x => x = true) m2.
Proof.
  intro Hc. unfold filter_phases_at, _partial_filter_by_sum, _partial_filter_by_count.
  cbv zeta. intro H. injection H as _ _ _ <-.
  unfold np_flip at 1. apply Forall_rev, zip_with_orb_all_true.
  set (c1 := np_flip (take_along_axis (Num 0) counts (argsort fle_sort (map fabs sums)))).
  assert (Hc1 : Forall (fun v => is_num v /\ (0 <= qv v)%Q) c1).
  { unfold c1, np_flip. now apply Forall_rev, take_any_nonneg. }
  assert (Hn1 : Forall is_num c1).
  { apply (Forall_impl _ (fun v (H : is_num v /\ (0 <= qv v)%Q) => proj1 H) Hc1). }
  destruct (np_sum_num c1 Hn1) as (k & -> & _).
  pose proof (np_cumsum_nonneg _ (take_any_nonneg c1 (argsort fle_sort c1) Hc1)) as Hcum.
  apply Forall_forall. intros b Hb. apply in_map_iff in Hb.
  destruct Hb as (m & <- & Hm).
  rewrite Forall_forall in Hcum. destruct (Hcum m Hm) as [Hmn Hm0].
  destruct m as [q|]; [|contradiction]. simpl in *.
  apply Qle_bool_iff. lra.
Qed.

Lemma retained_at_full counts sums terms :
  Forall (fun v => is_num v /\ (0 <= qv v)%Q) counts ->
  length sums = length counts -> length terms = length counts ->
  retained_at counts sums terms 1 = repeat true (length counts).
Proof.
  intros Hc Hls Hlt. unfold retained_at.
  destruct (filter_phases_at counts sums terms 1) as [[[c2 s2] t2] m2] eqn:E.
  pose proof (filter_phases_all_retained _ _ _ _ _ _ _ Hc E) as Hm.
  destruct (filter_phases_structure counts sums terms 1 Hls Hlt)
    as (pi & m2' & Hpi & Hlm & E').
  rewrite E in E'. injection E' as -> -> -> <-.
  set (idx := _fixargsort (take_along_axis EmptyString terms pi) terms).
  assert (Hidx : is_perm (length counts) idx).
  { rewrite <- Hlt. apply _fixargsort_is_perm.
    rewrite take_along_axis_length, Hlt. now apply is_perm_length. }
  assert (Hall : Forall (fun x => x = true) (take_along_axis false m2 idx)).
  { apply Forall_forall. intros b Hb. apply in_map_iff in Hb.
    destruct Hb as (i & <- & Hi).
    pose proof (is_perm_range _ _ Hidx) as Hr. rewrite Forall_forall in Hr.
    specialize (Hr i Hi). rewrite Forall_forall in Hm. apply Hm, nth_In. lia. }
  rewrite (all_true_repeat _ Hall), take_along_axis_length.
  now rewrite (is_perm_length _ _ Hidx).
Qed.

(** [standardize] after [filter_classifications], row by row. *)
Lemma standardize_filter_rows counts sums completeness :
  (channels counts = 3 \/ channels counts = 9)%nat ->
  same_nd_shape counts sums = true ->
  well_shaped counts ->
  well_shaped sums ->
  exists counts' sums' terms' terms_list,
    classify_terms (Some counts) = Ok terms_list /\
    length terms_list = channels counts /\
    filter_classifications counts sums completeness = Ok (counts', sums', terms') /\
    standardize counts' sums' (Some terms') None true =
    Ok (mk_ndarray (channels counts)
          (zip_with (fun c s => mul_mask c (retained_at c s terms_list completeness))
                    (positions counts) (positions sums)),
        mk_ndarray (channels counts)
          (zip_with (fun c s => mul_mask s (retained_at c s terms_list completeness))
                    (positions counts) (positions sums)),
        TermsList terms_list).
Proof.
  intros Hch Hsh Hwc Hws.
  destruct (classify_terms_cases fval counts Hch) as (tl & Htl & Hnd & Hltl).
  destruct (same_nd_shape_inv _ _ counts sums Hsh) as [Hch2 Hlen].
  rewrite (filter_classifications_rows counts sums completeness tl Htl Hsh).
  do 4 eexists. split; [exact Htl|]. split; [exact Hltl|]. split; [reflexivity|].
  assert (Hlz : forall (C : Type) (f : list fval -> list fval -> C),
            length (zip_with f (positions counts) (positions sums))
            = length (positions counts)).
  { intros C f. rewrite zip_with_length, <- Hlen. apply Nat.min_id. }
  rewrite (standardize_with_terms _ _ _ tl).
  - cbn [channels positions]. rewrite !zip3_zip_with, <- Hch2.
    f_equal. f_equal. f_equal.
    + f_equal. apply zip_with_ext_in. intros c s Hinc Hins.
      destruct (filter_classifications_at c s tl completeness) as [[c3 s3] t3] eqn:E.
      cbn [fst snd]. apply (standardize_filter_at c s tl completeness c3 s3 t3); auto.
      * rewrite (well_shaped_row _ sums s Hws Hins), (well_shaped_row _ counts c Hwc Hinc).
        congruence.
      * rewrite (well_shaped_row _ counts c Hwc Hinc). exact Hltl.
    + f_equal. apply zip_with_ext_in. intros c s Hinc Hins.
      destruct (filter_classifications_at c s tl completeness) as [[c3 s3] t3] eqn:E.
      cbn [fst snd]. apply (standardize_filter_at c s tl completeness c3 s3 t3); auto.
      * rewrite (well_shaped_row _ sums s Hws Hins), (well_shaped_row _ counts c Hwc Hinc).
        congruence.
      * rewrite (well_shaped_row _ counts c Hwc Hinc). exact Hltl.
  - unfold same_nd_shape. cbn [channels positions].
    now rewrite !Hlz, Hch2, !Nat.eqb_refl.
  - unfold same_nd_shape. cbn [channels positions].
    now rewrite !Hlz, Hltl, !Nat.eqb_refl.
  - exact Htl.
Qed.

(** X12.  with [completeness = 1.0] nothing is filtered.  For finite
    values and non-negative counts, [filter_classifications] followed by
    [standardize] gives back the counts and the sums it was given. *)
Theorem full_completeness_keeps_everything counts sums :
  (channels counts = 3 \/ channels counts = 9)%nat ->
  same_nd_shape counts sums = true ->
  well_shaped counts ->
  well_shaped sums ->
  Forall (Forall (fun v => is_num v /\ (0 <= qv v)%Q)) (positions counts) ->
  Forall (Forall is_num) (positions sums) ->
  exists counts' sums' terms' counts'' sums'' terms_list,
    filter_classifications counts sums 1 = Ok (counts', sums', terms') /\
    standardize counts' sums' (Some terms') None true
      = Ok (counts'', sums'', TermsList terms_list) /\
    Forall2 (Forall2 feq) (positions counts'') (positions counts) /\
    Forall2 (Forall2 feq) (positions sums'') (positions sums).
Proof.
  intros Hch Hsh Hwc Hws Hc Hs.
  destruct (standardize_filter_rows counts sums 1 Hch Hsh Hwc Hws)
    as (c' & s' & t' & tl & Htl & Hltl & Hf & Hst).
  destruct (same_nd_shape_inv _ _ counts sums Hsh) as [Hch2 Hlen].
  do 6 eexists. split; [exact Hf|]. split; [exact Hst|].
  rewrite Forall_forall in Hc, Hs. cbn [positions].
  assert (Hret : forall c s, In c (positions counts) -> In s (positions sums) ->
            retained_at c s tl 1 = repeat true (length c) /\ length s = length c).
  { intros c s Hinc Hins.
    pose proof (well_shaped_row _ counts c Hwc Hinc) as Hlc.
    pose proof (well_shaped_row _ sums s Hws Hins) as Hls.
    split; [|congruence].
    apply retained_at_full; [now apply Hc | congruence | congruence]. }
  split.
  - apply Forall2_zip_with_l; [exact Hlen|]. intros c s Hinc Hins.
    destruct (Hret c s Hinc Hins) as [-> _].
    apply mul_mask_all_true.
    apply (Forall_impl _ (fun v (H : is_num v /\ (0 <= qv v)%Q) => proj1 H) (Hc c Hinc)).
  - apply Forall2_zip_with_r; [exact Hlen|]. intros c s Hinc Hins.
    destruct (Hret c s Hinc Hins) as [-> <-].
    apply mul_mask_all_true. now apply Hs.
Qed.

End FullCompleteness.

Lemma full_completeness_keeps_everything_witness :
  exists counts' sums' terms' counts'' sums'' terms_list,
    @filter_classifications stable_argsort sample_counts sample_sums 1
      = Ok (counts', sums', terms') /\
    @standardize stable_argsort counts' sums' (Some terms') None true
      = Ok (counts'', sums'', TermsList terms_list) /\
    Forall2 (Forall2 feq) (positions counts'') (positions sample_counts) /\
    Forall2 (Forall2 feq) (positions sums'') (positions sample_sums).
Proof.
  apply (@full_completeness_keeps_everything stable_argsort stable_argsort_spec
           sample_counts sample_sums).
  - right. reflexivity.
  - reflexivity.
  - repeat constructor.
  - repeat constructor.
  - repeat constructor; simpl; lra.
  - repeat constructor.
Defined.

(* ================================================================== *)
(** ** The text of a summary *)

Lemma contains_char_app c a b :
  contains_char c (a ++ b) = contains_char c a || contains_char c b.
Proof.
  induction a as [|x a IH]; simpl; [reflexivity|].
  now rewrite IH, orb_assoc.
Qed.

Lemma bind_fold_not_empty (X : Type) (F : result string -> X -> result string) (Z : list X) :
  Z <> [] ->
  (forall acc x, match F acc x with
                 | Ok s => contains_char ":" s = true
                 | Raise _ => True
                 end) ->
  (summary <- fold_left F Z (Ok EmptyString) ;;
   Ok (if Nat.eqb (String.length summary) 0 then "<empty>"%string else summary))
  <> Ok "<empty>"%string.
Proof.
  intros HZ HF. destruct (exists_last HZ) as (Z' & x & ->).
  rewrite fold_left_app. simpl fold_left.
  specialize (HF (fold_left F Z' (Ok EmptyString)) x).
  destruct (F (fold_left F Z' (Ok EmptyString)) x) as [s|e]; cbn [bind]; [|discriminate].
  destruct s as [|a s]; [discriminate HF|]. simpl Nat.eqb. cbv iota.
  intros [= H1 H2]. rewrite H1, H2 in HF. discriminate HF.
Qed.

Lemma compress_length (A : Type) (a : list A) : forall mask,
  length a = length mask ->
  length (compress a mask) = length (filter (fun b : bool => b) mask).
Proof.
  unfold compress. induction a as [|x a IH]; intros [|b mask] H; simpl in *;
    try discriminate; [reflexivity|].
  injection H as H. destruct b; simpl; rewrite IH; auto.
Qed.

Lemma zip3_nonempty (A B C : Type) (a : list A) (b : list B) (c : list C) :
  length a = length b -> length c = length b -> b <> [] -> zip3 a b c <> [].
Proof.
  destruct a, b, c; simpl; intros; try discriminate; congruence.
Qed.

Lemma zip5_nonempty (A B C D E : Type) (a : list A) (b : list B) (c : list C) (d : list D)
  (e : list E) :
  length a = length c -> length b = length c -> length d = length c -> length e = length c ->
  c <> [] -> zip5 a b c d e <> [].
Proof.
  destruct a, b, c, d, e; simpl; intros; try discriminate; congruence.
Qed.

Lemma np_max_ok_nonempty a v : np_max a = Ok v -> a <> [].
Proof. destruct a; [discriminate | discriminate]. Qed.

Ltac summary_lengths :=
  unfold _safe_divide;
  rewrite ?length_map, ?zip_with_length, ?take_along_axis_length, ?Nat.min_id;
  reflexivity.

Section SummaryText.

Context {AS : ArgSort}.

(** X13.  [summarise] never returns the text ["<empty>"], whatever its
    arguments: it returns another text or raises. *)
Theorem summarise_never_returns_empty counts sums terms mask
  show_percentages show_means show_ranges :
  summarise counts sums terms mask show_percentages show_means show_ranges
  <> Ok "<empty>"%string.
Proof.
  unfold summarise.
  destruct (standardize counts sums terms mask true) as [[[c s] tout]|]; cbn [bind];
    [|discriminate].
  destruct (sequence (reduce_value_axes np_min c)) as [minc|]; cbn [bind]; [|discriminate].
  destruct (sequence (reduce_value_axes np_max c)) as [maxc|]; cbn [bind]; [|discriminate].
  destruct (sequence (reduce_value_axes np_min s)) as [mins|]; cbn [bind]; [|discriminate].
  destruct (sequence (reduce_value_axes np_max s)) as [maxs|]; cbn [bind]; [|discriminate].
  set (so := rev (argsort fle_sort (reduce_value_axes np_sum c))).
  destruct show_means, show_percentages, show_ranges; cbv beta iota zeta.
  all: match goal with
       | |- bind ?L _ <> _ =>
           let largest := fresh "largest" in
           let EL := fresh "EL" in
           destruct L as [largest|] eqn:EL; cbn [bind]; [|discriminate]
       end.
  all: match goal with
       | |- bind ?L _ <> _ =>
           let r := fresh "r" in let scale := fresh "scale" in
           destruct L as [[r scale]|]; cbn [bind]; [|discriminate]
       end.
  all: apply np_max_ok_nonempty in EL.
  all: apply bind_fold_not_empty.
  all: try match goal with
           | |- zip5 _ _ ?m _ _ <> [] =>
               apply zip5_nonempty;
               [ rewrite !compress_length by summary_lengths; reflexivity ..
               | intro Hnil; apply EL; rewrite Hnil; reflexivity ]
           | |- zip3 _ ?m _ <> [] =>
               apply zip3_nonempty;
               [ rewrite !compress_length by summary_lengths; reflexivity ..
               | intro Hnil; apply EL; rewrite Hnil; reflexivity ]
           end.
  all: intros acc x; repeat match goal with p : (_ * _)%type |- _ => destruct p end;
       destruct acc as [summary|]; cbn [bind]; [|exact I].
  all: try match goal with
           | |- context [fltb ?a ?b && fltb ?b' (Num 0)] =>
               destruct (fltb a b && fltb b' (Num 0)); cbv beta iota
           end.
  all: repeat match goal with
              | |- context [_format_decimal ?v 4 (Some ?sc)] =>
                  destruct (_format_decimal v 4 (Some sc)) as [[? ?]|]; cbn [bind];
                  [|exact I]
              end.
  all: rewrite !contains_char_app; change (contains_char ":" ": ") with true;
       cbn [orb]; rewrite !orb_true_r; reflexivity.
Qed.

End SummaryText.

(* ================================================================== *)
(** ** Filtering groups *)

Lemma fold_left_Zadd l : forall acc, fold_left Z.add l acc = (acc + fold_left Z.add l 0)%Z.
Proof.
  induction l as [|x l IH]; intro acc; simpl; [lia|].
  rewrite (IH (acc + x)%Z), (IH x). lia.
Qed.

Lemma np_sum_Z_cons x l : np_sum_Z (x :: l) = (x + np_sum_Z l)%Z.
Proof. unfold np_sum_Z. simpl. apply fold_left_Zadd. Qed.

Lemma np_sum_Z_app l l' : np_sum_Z (l ++ l') = (np_sum_Z l + np_sum_Z l')%Z.
Proof.
  induction l as [|x l IH]; simpl; [reflexivity|].
  rewrite !np_sum_Z_cons, IH. lia.
Qed.

Lemma np_sum_Z_nonneg l : Forall (fun z => (0 <= z)%Z) l -> (0 <= np_sum_Z l)%Z.
Proof.
  induction 1 as [|x l Hx _ IH]; [reflexivity|]. rewrite np_sum_Z_cons. lia.
Qed.

Lemma cumsum_Z_from_snoc a : forall acc x,
  cumsum_Z_from acc (a ++ [x]) = cumsum_Z_from acc a ++ [(acc + np_sum_Z a + x)%Z].
Proof.
  induction a as [|v a IH]; intros acc x; simpl.
  - f_equal. unfold np_sum_Z. simpl. lia.
  - rewrite IH, np_sum_Z_cons. do 3 f_equal. lia.
Qed.

(** The sums of the groups from each index on. *)
Lemma accumed_suffix_sums sizes :
  rev (np_cumsum_Z (rev sizes)) = map (fun k => np_sum_Z (skipn k sizes)) (seq 0 (length sizes)).
Proof.
  unfold np_cumsum_Z. induction sizes as [|x l IH]; [reflexivity|].
  simpl rev. rewrite cumsum_Z_from_snoc, rev_app_distr. simpl rev. simpl app.
  simpl length. simpl seq. simpl map. f_equal.
  - rewrite np_sum_Z_cons. 
    assert (H : np_sum_Z (rev l) = np_sum_Z l).
    { clear. induction l as [|y l IH]; [reflexivity|].
      simpl. rewrite np_sum_Z_app, IH, !np_sum_Z_cons. unfold np_sum_Z at 2. simpl. lia. }
    rewrite H. lia.
  - rewrite IH, <- seq_shift, map_map. reflexivity.
Qed.

Lemma np_nonzero_cons b mask :
  np_nonzero (b :: mask) = (if b then [0%nat] else []) ++ map S (np_nonzero mask).
Proof.
  unfold np_nonzero. simpl length. simpl seq. simpl combine. simpl filter.
  rewrite <- seq_shift.
  assert (H : map fst (filter snd (combine (map S (seq 0 (length mask))) mask))
              = map S (map fst (filter snd (combine (seq 0 (length mask)) mask)))).
  { generalize (seq 0 (length mask)). intro l. revert mask.
    induction l as [|i l IH]; intros [|c mask]; simpl; try reflexivity.
    destruct c; simpl; now rewrite IH. }
  destruct b; simpl; now rewrite H.
Qed.

Lemma np_nonzero_all_false mask :
  Forall (fun b => b = false) mask -> np_nonzero mask = [].
Proof.
  induction 1 as [|b mask -> _ IH]; [reflexivity|].
  rewrite np_nonzero_cons, IH. reflexivity.
Qed.

Lemma skipn_sum_le sizes k :
  Forall (fun z => (0 <= z)%Z) sizes -> (np_sum_Z (skipn k sizes) <= np_sum_Z sizes)%Z.
Proof.
  intro H. rewrite <- (firstn_skipn k sizes) at 2. rewrite np_sum_Z_app.
  assert (0 <= np_sum_Z (firstn k sizes))%Z.
  { apply np_sum_Z_nonneg. rewrite <- (firstn_skipn k sizes) in H.
    now apply Forall_app in H. }
  lia.
Qed.

(** The groups whose tail reaches the threshold are the leading ones. *)
Lemma threshold_mask_is_prefix (threshold : Q) sizes :
  Forall (fun z => (0 <= z)%Z) sizes ->
  exists k,
    (k <= length sizes)%nat /\
    np_nonzero (map (fun a => Qle_bool threshold (inject_Z a))
                    (map (fun k => np_sum_Z (skipn k sizes)) (seq 0 (length sizes))))
    = seq 0 k /\
    (k = length sizes \/ (inject_Z (np_sum_Z (skipn k sizes)) < threshold)%Q).
Proof.
  induction sizes as [|x l IH]; intro H.
  - exists 0%nat. repeat split; auto.
  - inversion H as [|? ? Hx Hl]; subst. specialize (IH Hl).
    destruct IH as (k & Hk & Hnz & Hlast).
    assert (Hmap : map (fun k => np_sum_Z (skipn k (x :: l))) (seq 1 (length l))
                   = map (fun k => np_sum_Z (skipn k l)) (seq 0 (length l))).
    { rewrite <- seq_shift, map_map. reflexivity. }
    cbn [length seq map]. rewrite Hmap, np_nonzero_cons.
    change (skipn 0 (x :: l)) with (x :: l).
    destruct (Qle_bool threshold (inject_Z (np_sum_Z (x :: l)))) eqn:E.
    + exists (S k). split; [lia|]. split.
      * simpl. f_equal. rewrite Hnz, seq_shift. reflexivity.
      * destruct Hlast as [-> | Hlt]; [now left | now right].
    + exists 0%nat. split; [lia|]. split.
      * simpl. rewrite np_nonzero_all_false; [reflexivity|].
        apply Forall_forall. intros b Hb. apply in_map_iff in Hb.
        destruct Hb as (a & <- & Ha). apply in_map_iff in Ha.
        destruct Ha as (j & <- & _).
        destruct (Qle_bool threshold (inject_Z (np_sum_Z (skipn j l)))) eqn:E'; [|reflexivity].
        apply Qle_bool_iff in E'.
        assert (Hn : ~ (threshold <= inject_Z (np_sum_Z (x :: l)))%Q).
        { intro Hc. apply Qle_bool_iff in Hc. congruence. }
        exfalso. apply Hn.
        pose proof (skipn_sum_le l j Hl) as Hle.
        assert (np_sum_Z (skipn j l) <= np_sum_Z (x :: l))%Z
          by (rewrite np_sum_Z_cons; lia).
        apply (Qle_trans _ _ _ E'). now rewrite <- Zle_Qle.
      * right. simpl. apply Qnot_le_lt. intro Hc. apply Qle_bool_iff in Hc. congruence.
Qed.

Lemma pick_seq (A : Type) (a : list A) k :
  (k <= length a)%nat -> pick a (seq 0 k) = Some (firstn k a).
Proof.
  revert k. induction a as [|x a IH]; intros k Hk.
  - simpl in Hk. assert (k = 0%nat) by lia. subst. reflexivity.
  - destruct k as [|k]; [reflexivity|]. simpl in Hk.
    simpl seq. simpl firstn. cbn [pick nth_error].
    assert (H : pick (x :: a) (seq 1 k) = pick a (seq 0 k)).
    { rewrite <- seq_shift. generalize (seq 0 k). intro l.
      induction l as [|i l IHl]; [reflexivity|]. simpl. now rewrite IHl. }
    rewrite H, IH by lia. reflexivity.
Qed.

Lemma firstn_seq k n : firstn k (seq 0 n) = seq 0 (Nat.min k n).
Proof.
  generalize 0%nat. revert n. induction k as [|k IH]; intros [|n] s; simpl; try reflexivity.
  now rewrite IH.
Qed.

Lemma slice_to_seq k m : exists k', (k' <= k)%nat /\ slice_to (seq 0 k) m = seq 0 k' /\
  ((0 < m)%Z -> (Z.of_nat k' <= m)%Z).
Proof.
  unfold slice_to. rewrite length_seq.
  destruct (m <? 0)%Z eqn:E.
  - exists (Nat.min (Z.to_nat (Z.of_nat k + m)) k). split; [lia|]. split; [apply firstn_seq|].
    apply Z.ltb_lt in E. lia.
  - exists (Nat.min (Z.to_nat m) k). split; [lia|]. split; [apply firstn_seq|]. lia.
Qed.

Lemma map_nth_seq_firstn (sizes : list Z) k :
  (k <= length sizes)%nat ->
  map (fun i => nth i sizes 0%Z) (seq 0 k) = firstn k sizes.
Proof.
  revert k. induction sizes as [|x l IH]; intros k Hk.
  - simpl in Hk. assert (k = 0%nat) by lia. subst. reflexivity.
  - destruct k as [|k]; [reflexivity|]. simpl in Hk. simpl seq. simpl map. simpl firstn.
    f_equal. rewrite <- seq_shift, map_map. simpl. apply IH. lia.
Qed.

Lemma group_sizes_nonneg count_groups : Forall (fun z => (0 <= z)%Z) (group_sizes count_groups).
Proof.
  unfold group_sizes. apply Forall_forall. intros z Hz. apply in_map_iff in Hz.
  destruct Hz as (c & <- & _). lia.
Qed.

(** The indices [filter_groups] keeps. *)
Lemma filter_groups_explicit count_groups sum_groups term_groups completeness max_groups :
  (length count_groups <= length sum_groups)%nat ->
  (length count_groups <= length term_groups)%nat ->
  let c := match completeness with None => 1%Q | Some c => c end in
  let sizes := group_sizes count_groups in
  let total := np_sum_Z sizes in
  exists k0 k,
    (k <= k0 <= length count_groups)%nat /\
    (k0 = length count_groups \/
     (inject_Z (np_sum_Z (skipn k0 sizes)) < inject_Z total * (1 - c))%Q) /\
    (max_groups = None -> k = k0) /\
    (forall m, max_groups = Some m -> (0 < m)%Z -> (Z.of_nat k <= m)%Z) /\
    filter_groups count_groups sum_groups term_groups completeness max_groups
    = Some (firstn k count_groups, firstn k sum_groups, firstn k term_groups,
            fdiv (Num (inject_Z (np_sum_Z (firstn k sizes)))) (Num (inject_Z total))).
Proof.
  intros Hls Hlt c sizes total. unfold filter_groups.
  fold (group_sizes count_groups). fold sizes. fold total. fold c.
  rewrite accumed_suffix_sums.
  destruct (threshold_mask_is_prefix (inject_Z total * (1 - c)) sizes
              (group_sizes_nonneg count_groups)) as (k0 & Hk0 & -> & Hlast).
  assert (Hlen : length sizes = length count_groups) by apply length_map.
  rewrite Hlen in Hk0, Hlast.
  assert (Hfin : forall k, (k <= k0)%nat ->
            match pick count_groups (seq 0 k), pick sum_groups (seq 0 k),
                  pick term_groups (seq 0 k) with
            | Some cg, Some sg, Some tg =>
                Some (cg, sg, tg,
                      fdiv (Num (inject_Z (np_sum_Z (map (fun i => nth i sizes 0%Z) (seq 0 k)))))
                           (Num (inject_Z total)))
            | _, _, _ => None
            end
            = Some (firstn k count_groups, firstn k sum_groups, firstn k term_groups,
                    fdiv (Num (inject_Z (np_sum_Z (firstn k sizes)))) (Num (inject_Z total)))).
  { intros k Hk. rewrite !pick_seq by lia. rewrite map_nth_seq_firstn by lia. reflexivity. }
  destruct max_groups as [m|].
  - destruct (negb (m =? 0)%Z && (m <? Z.of_nat (length (seq 0 k0)))%Z) eqn:E.
    + destruct (slice_to_seq k0 m) as (k & Hk & -> & Hm).
      exists k0, k. split; [lia|]. split; [exact Hlast|]. split; [discriminate|].
      split; [intros m' [= <-]; exact Hm|]. now apply Hfin.
    + exists k0, k0. split; [lia|]. split; [exact Hlast|]. split; [discriminate|].
      split; [|now apply Hfin].
      intros m' [= <-] Hm. rewrite length_seq in E.
      apply andb_false_iff in E. destruct E as [E | E].
      * apply negb_false_iff, Z.eqb_eq in E. lia.
      * apply Z.ltb_ge in E. exact E.
  - exists k0, k0. split; [lia|]. split; [exact Hlast|]. split; [reflexivity|].
    split; [discriminate|]. now apply Hfin.
Qed.

(** X14.  [filter_groups] keeps a leading run of the groups.  It returns
    the first [k] count, sum and term groups, in their order, for some
    [k]; with a positive [max_groups] it returns at most that many. *)
Theorem filter_groups_keeps_leading_groups
  count_groups sum_groups term_groups completeness max_groups :
  (length count_groups <= length sum_groups)%nat ->
  (length count_groups <= length term_groups)%nat ->
  exists k coverage,
    (k <= length count_groups)%nat /\
    filter_groups count_groups sum_groups term_groups completeness max_groups
    = Some (firstn k count_groups, firstn k sum_groups, firstn k term_groups, coverage) /\
    (forall m, max_groups = Some m -> (0 < m)%Z -> (Z.of_nat k <= m)%Z).
Proof.
  intros Hls Hlt.
  destruct (filter_groups_explicit count_groups sum_groups term_groups completeness max_groups
              Hls Hlt) as (k0 & k & Hk & _ & _ & Hm & E).
  exists k. eexists. split; [lia|]. split; [exact E | exact Hm].
Qed.

Lemma filter_groups_keeps_leading_groups_witness :
  exists k coverage,
    (k <= length sample_count_groups)%nat /\
    filter_groups sample_count_groups sample_sum_groups sample_term_groups
      (Some (1 # 2)) (Some 1%Z)
    = Some (firstn k sample_count_groups, firstn k sample_sum_groups,
            firstn k sample_term_groups, coverage) /\
    (forall m, Some 1%Z = Some m -> (0 < m)%Z -> (Z.of_nat k <= m)%Z).
Proof.
  apply (filter_groups_keeps_leading_groups sample_count_groups sample_sum_groups
           sample_term_groups (Some (1 # 2)) (Some 1%Z)).
  - simpl. lia.
  - simpl. lia.
Defined.

Lemma group_sizes_firstn count_groups k :
  group_sizes (firstn k count_groups) = firstn k (group_sizes count_groups).
Proof. unfold group_sizes. symmetry. apply firstn_map. Qed.

(** X15.  the coverage of [filter_groups].  Without [max_groups], for a
    completeness of at most 1 and groups that are not all empty, the
    returned coverage is the share of the members that lie in the groups
    kept, and it is at least the completeness asked for. *)
Theorem filter_groups_coverage_reaches_completeness
  count_groups sum_groups term_groups completeness :
  (length count_groups <= length sum_groups)%nat ->
  (length count_groups <= length term_groups)%nat ->
  (0 < np_sum_Z (group_sizes count_groups))%Z ->
  (completeness <= 1)%Q ->
  exists count_groups' sum_groups' term_groups' coverage,
    filter_groups count_groups sum_groups term_groups (Some completeness) None
    = Some (count_groups', sum_groups', term_groups', Num coverage) /\
    (coverage == inject_Z (np_sum_Z (group_sizes count_groups'))
                 / inject_Z (np_sum_Z (group_sizes count_groups)))%Q /\
    (completeness <= coverage <= 1)%Q.
Proof.
  intros Hls Hlt Htot Hc.
  destruct (filter_groups_explicit count_groups sum_groups term_groups (Some completeness) None
              Hls Hlt) as (k0 & k & Hk & Hlast & Hnone & _ & E).
  specialize (Hnone Logic.eq_refl). subst k0.
  set (sizes := group_sizes count_groups) in *.
  set (total := np_sum_Z sizes) in *.
  assert (Hsplit : (np_sum_Z (firstn k sizes) + np_sum_Z (skipn k sizes) = total)%Z).
  { unfold total. rewrite <- (firstn_skipn k sizes) at 3. now rewrite np_sum_Z_app. }
  assert (Hpos : (0 < inject_Z total)%Q).
  { change 0%Q with (inject_Z 0). now rewrite <- Zlt_Qlt. }
  assert (Hne : Qeq_bool (inject_Z total) 0 = false).
  { destruct (Qeq_bool (inject_Z total) 0) eqn:Eq; [|reflexivity].
    apply Qeq_bool_iff in Eq. lra. }
  unfold fdiv in E. rewrite Hne in E.
  do 4 eexists. split; [exact E|]. split.
  - rewrite group_sizes_firstn. reflexivity.
  - assert (Hskip : (0 <= np_sum_Z (skipn k sizes))%Z).
    { apply np_sum_Z_nonneg.
      pose proof (group_sizes_nonneg count_groups) as H. fold sizes in H.
      rewrite <- (firstn_skipn k sizes) in H. now apply Forall_app in H. }
    assert (Hr : (inject_Z (np_sum_Z (firstn k sizes))
                  == inject_Z total - inject_Z (np_sum_Z (skipn k sizes)))%Q).
    { rewrite <- Hsplit, inject_Z_plus. ring. }
    assert (Hs0 : (0 <= inject_Z (np_sum_Z (skipn k sizes)))%Q).
    { change 0%Q with (inject_Z 0). now rewrite <- Zle_Qle. }
    split.
    + apply Qle_shift_div_l; [exact Hpos|]. rewrite Hr.
      destruct Hlast as [-> | Hlt'].
      * assert (Hall : length sizes = length count_groups) by apply length_map.
        rewrite <- Hall, skipn_all. change (np_sum_Z []) with 0%Z.
        change (inject_Z 0) with 0%Q. nra.
      * nra.
    + apply Qle_shift_div_r; [exact Hpos|]. rewrite Hr. lra.
Qed.

Lemma filter_groups_coverage_reaches_completeness_witness :
  exists count_groups' sum_groups' term_groups' coverage,
    filter_groups sample_count_groups sample_sum_groups sample_term_groups (Some (1 # 2)) None
    = Some (count_groups', sum_groups', term_groups', Num coverage) /\
    (coverage == inject_Z (np_sum_Z (group_sizes count_groups'))
                 / inject_Z (np_sum_Z (group_sizes sample_count_groups)))%Q /\
    ((1 # 2) <= coverage <= 1)%Q.
Proof.
  apply (filter_groups_coverage_reaches_completeness sample_count_groups sample_sum_groups
           sample_term_groups (1 # 2)).
  - simpl. lia.
  - simpl. lia.
  - reflexivity.
  - discriminate.
Defined.

(** X16.  [filter_groups] with [completeness] 1.0 (or more) or [None],
    and without [max_groups], filters nothing: it returns every group. *)
Theorem filter_groups_without_filtering count_groups sum_groups term_groups completeness :
  length sum_groups = length count_groups ->
  length term_groups = length count_groups ->
  match completeness with None => True | Some c => (1 <= c)%Q end ->
  exists coverage,
    filter_groups count_groups sum_groups term_groups completeness None
    = Some (count_groups, sum_groups, term_groups, coverage) /\
    ((0 < np_sum_Z (group_sizes count_groups))%Z -> feq coverage (Num 1)).
Proof.
  intros Hls Hlt Hc.
  destruct (filter_groups_explicit count_groups sum_groups term_groups completeness None)
    as (k0 & k & Hk & Hlast & Hnone & _ & E); [lia | lia |].
  specialize (Hnone Logic.eq_refl). subst k0.
  set (sizes := group_sizes count_groups) in *.
  assert (Hall : length sizes = length count_groups) by apply length_map.
  assert (Hkn : k = length count_groups).
  { destruct Hlast as [H | H]; [exact H | exfalso].
    assert (Hs0 : (0 <= inject_Z (np_sum_Z (skipn k sizes)))%Q).
    { change 0%Q with (inject_Z 0). rewrite <- Zle_Qle. apply np_sum_Z_nonneg.
      pose proof (group_sizes_nonneg count_groups) as H'. fold sizes in H'.
      rewrite <- (firstn_skipn k sizes) in H'. now apply Forall_app in H'. }
    assert (Ht0 : (0 <= inject_Z (np_sum_Z sizes))%Q).
    { change 0%Q with (inject_Z 0). rewrite <- Zle_Qle. apply np_sum_Z_nonneg.
      apply group_sizes_nonneg. }
    destruct completeness as [c|]; nra. }
  subst k. rewrite firstn_all in E. rewrite <- Hls, firstn_all in E.
  rewrite Hls, <- Hlt, firstn_all in E. rewrite Hlt, <- Hall, firstn_all in E.
  eexists. split; [exact E|].
  intro Htot. fold sizes in Htot.
  assert (Hpos : (0 < inject_Z (np_sum_Z sizes))%Q).
  { change 0%Q with (inject_Z 0). now rewrite <- Zlt_Qlt. }
  unfold fdiv.
  destruct (Qeq_bool (inject_Z (np_sum_Z sizes)) 0) eqn:Eq.
  - apply Qeq_bool_iff in Eq. lra.
  - simpl. field. lra.
Qed.

Lemma filter_groups_without_filtering_witness :
  exists coverage,
    filter_groups sample_count_groups sample_sum_groups sample_term_groups None None
    = Some (sample_count_groups, sample_sum_groups, sample_term_groups, coverage) /\
    ((0 < np_sum_Z (group_sizes sample_count_groups))%Z -> feq coverage (Num 1)).
Proof.
  apply (filter_groups_without_filtering sample_count_groups sample_sum_groups
           sample_term_groups None).
  - reflexivity.
  - reflexivity.
  - exact I.
Defined.

(* ================================================================== *)
(** ** Grouping classifications *)

Lemma sequence_length (A : Type) (l : list (result A)) : forall r,
  sequence l = Ok r -> length r = length l.
Proof.
  induction l as [|c l IH]; intros r H; simpl in H.
  - now injection H as <-.
  - destruct c as [a|]; [|discriminate]. simpl in H.
    destruct (sequence l) as [r'|]; [|discriminate]. simpl in H.
    injection H as <-. simpl. f_equal. now apply IH.
Qed.

Lemma sequence_map_inv (A B : Type) (f : A -> result B) (l : list A) : forall r,
  sequence (map f l) = Ok r -> Forall2 (fun a b => f a = Ok b) l r.
Proof.
  induction l as [|a l IH]; intros r H; simpl in H.
  - injection H as <-. constructor.
  - destruct (f a) as [b|] eqn:E; [|discriminate]. simpl in H.
    destruct (sequence (map f l)) as [r'|]; [|discriminate]. simpl in H.
    injection H as <-. constructor; [exact E | now apply IH].
Qed.

Lemma compress_nil_same_length (A B : Type) (a : list A) (b : list B) mask :
  length a = length mask -> length b = length mask ->
  compress a mask = [] -> compress b mask = [].
Proof.
  intros Ha Hb H. apply length_zero_iff_nil.
  rewrite (compress_length _ b mask Hb), <- (compress_length _ a mask Ha), H. reflexivity.
Qed.

Lemma compress_same_length (A B : Type) (a : list A) (b : list B) mask :
  length a = length mask -> length b = length mask ->
  length (compress a mask) = length (compress b mask).
Proof. intros Ha Hb. now rewrite !compress_length. Qed.

Lemma selected_same_length (A B : Type) (a : ndarray A) (b : ndarray B) mask :
  length (positions a) = length (positions b) ->
  match mask with Some m => length m = length (positions a) | None => True end ->
  length (selected a mask) = length (selected b mask).
Proof.
  intros Hab Hm. destruct mask as [m|]; simpl; [|exact Hab].
  apply compress_same_length; congruence.
Qed.

Lemma np_nonzero_lt mask : Forall (fun i => (i < length mask)%nat) (np_nonzero mask).
Proof.
  induction mask as [|b mask IH]; [constructor|].
  rewrite np_nonzero_cons. apply Forall_app. split.
  - destruct b; [|constructor]. constructor; [simpl; lia | constructor].
  - apply Forall_forall. intros i Hi. apply in_map_iff in Hi.
    destruct Hi as (j & <- & Hj). rewrite Forall_forall in IH. specialize (IH j Hj).
    simpl. lia.
Qed.

Lemma np_diff_cons x y l : np_diff (x :: y :: l) = (y - x)%Z :: np_diff (y :: l).
Proof. reflexivity. Qed.

Lemma change_indices_cons x y l :
  change_indices (x :: y :: l)
  = (if (x =? y)%Z then [] else [1%nat]) ++ map S (change_indices (y :: l)).
Proof.
  unfold change_indices. rewrite np_diff_cons. cbn [map]. rewrite np_nonzero_cons, map_app.
  f_equal.
  destruct (x =? y)%Z eqn:E.
  - apply Z.eqb_eq in E. subst. now rewrite Z.sub_diag.
  - apply Z.eqb_neq in E.
    assert (H : ((y - x =? 0) = false)%Z) by (apply Z.eqb_neq; lia).
    now rewrite H.
Qed.

Lemma np_split_from_shift (A : Type) (a0 : A) a' indices : forall start,
  np_split_from (S start) (a0 :: a') (map S indices) = np_split_from start a' indices.
Proof.
  induction indices as [|i rest IH]; intro start; simpl; [reflexivity|].
  now rewrite IH.
Qed.

Lemma np_split_cons_shift (A : Type) (a0 : A) a' indices :
  np_split (a0 :: a') (map S indices)
  = (a0 :: hd [] (np_split a' indices)) :: tl (np_split a' indices).
Proof.
  unfold np_split. destruct indices as [|i rest]; simpl; [reflexivity|].
  rewrite np_split_from_shift, Nat.sub_0_r. reflexivity.
Qed.

Lemma split_by_cons2 (K A : Type) (eqb : K -> K -> bool) x y l (a0 : A) a' :
  split_by eqb (x :: y :: l) (a0 :: a')
  = if eqb x y
    then (a0 :: hd [] (split_by eqb (y :: l) a')) :: tl (split_by eqb (y :: l) a')
    else [a0] :: split_by eqb (y :: l) a'.
Proof. reflexivity. Qed.

(** [np.split] at the changes of the keys cuts along the runs of the keys. *)
Lemma np_split_change_indices (A : Type) keys : forall (a : list A),
  length a = length keys ->
  np_split a (change_indices keys) = split_by Z.eqb keys a.
Proof.
  induction keys as [|x keys IH]; intros a Ha.
  - destruct a; [reflexivity | discriminate].
  - destruct a as [|a0 a']; [discriminate|]. injection Ha as Ha.
    destruct keys as [|y l].
    + destruct a'; [reflexivity | discriminate].
    + rewrite change_indices_cons, split_by_cons2, <- (IH a' Ha).
      destruct (x =? y)%Z.
      * simpl app. apply np_split_cons_shift.
      * simpl app. unfold np_split. cbn [np_split_from]. rewrite np_split_from_shift.
        reflexivity.
Qed.

Lemma split_by_concat (K A : Type) (eqb : K -> K -> bool) keys : forall (a : list A),
  concat (split_by eqb keys a) = a.
Proof.
  induction keys as [|x keys IH]; intro a; [simpl; apply app_nil_r|].
  destruct keys as [|y l]; [destruct a; simpl; now rewrite ?app_nil_r|].
  destruct a as [|a0 a']; [reflexivity|].
  rewrite split_by_cons2. specialize (IH a').
  destruct (split_by eqb (y :: l) a') as [|r0 r] eqn:E.
  - simpl in IH. subst a'. destruct (eqb x y); reflexivity.
  - destruct (eqb x y); simpl in *; now rewrite IH.
Qed.

Lemma split_by_nonempty (K A : Type) (eqb : K -> K -> bool) keys : forall (a : list A),
  a <> [] -> length a = length keys -> Forall (fun piece => piece <> []) (split_by eqb keys a).
Proof.
  induction keys as [|x keys IH]; intros a Ha Hl.
  - destruct a; [congruence | discriminate].
  - destruct a as [|a0 a']; [congruence|]. injection Hl as Hl.
    destruct keys as [|y l].
    + repeat constructor. discriminate.
    + rewrite split_by_cons2.
      assert (Ha' : a' <> []) by (destruct a'; [discriminate | discriminate]).
      specialize (IH a' Ha' Hl).
      destruct (eqb x y).
      * constructor; [discriminate|].
        destruct (split_by eqb (y :: l) a'); [constructor | now inversion IH].
      * constructor; [discriminate | exact IH].
Qed.

Lemma split_by_lengths (K A B : Type) (eqb : K -> K -> bool) keys :
  forall (a : list A) (b : list B),
  length a = length keys -> length b = length keys ->
  map (@length A) (split_by eqb keys a) = map (@length B) (split_by eqb keys b).
Proof.
  induction keys as [|x keys IH]; intros a b Ha Hb.
  - destruct a, b; try discriminate. reflexivity.
  - destruct a as [|a0 a']; [discriminate|]. destruct b as [|b0 b']; [discriminate|].
    injection Ha as Ha. injection Hb as Hb.
    destruct keys as [|y l].
    + destruct a', b'; try discriminate. reflexivity.
    + rewrite !split_by_cons2. specialize (IH a' b' Ha Hb).
      destruct (split_by eqb (y :: l) a') as [|r0 r], (split_by eqb (y :: l) b') as [|s0 s];
        simpl in IH; try discriminate; destruct (eqb x y); simpl; try reflexivity.
      * injection IH as H0 H. now rewrite H0, H.
      * injection IH as H0 H. now rewrite H0, H.
Qed.

Lemma take_nested_length (A : Type) (l : list (list A)) idx :
  length (take_along_axis [] l idx) = length idx.
Proof. apply take_along_axis_length. Qed.

(** The stages of a successful [group_classifications]. *)
Lemma group_classifications_inv counts sums terms mask count_groups sum_groups term_groups :
  group_classifications counts sums terms mask = Ok (count_groups, sum_groups, term_groups) ->
  exists (terms' : ndarray string) terms_list numbers sortable_ids,
    same_nd_shape counts sums = true /\
    same_nd_shape terms' counts = true /\
    match mask with Some m => length m = length (positions counts) | None => True end /\
    classify_terms (Some counts) = Ok terms_list /\
    term_numbers
      (combine terms_list (map (fun i => (Z.of_nat i + 1)%Z) (seq 0 (length terms_list))))
      (selected counts mask) (selected terms' mask) = Ok numbers /\
    let grouping_values :=
      map (fun row =>
             np_sum_Z (zip_with Z.mul row
                         (map (fun i => (Z.of_nat (length terms_list)
                                         ^ Z.of_nat (length terms_list - i - 1))%Z)
                              (seq 0 (length terms_list)))))
          numbers in
    let unique := np_unique grouping_values in
    let order := @argsort stable_argsort Z Z.leb (map Z.opp (map snd unique)) in
    let sorted_values := take_along_axis 0%Z (map fst unique) order in
    sequence (map (fun v => match dict_get Z.eqb
                                    (combine sorted_values (seq 0 (length sorted_values))) v with
                            | Some idx => Ok idx
                            | None => Raise TypeError
                            end)
                  grouping_values) = Ok sortable_ids /\
    let sort_order := @argsort stable_argsort nat Nat.leb sortable_ids in
    let keys := take_along_axis 0%Z grouping_values sort_order in
    count_groups
    = map (mk_ndarray (channels counts))
          (np_split (take_along_axis [] (selected counts mask) sort_order) (change_indices keys)) /\
    sum_groups
    = map (mk_ndarray (channels counts))
          (np_split (take_along_axis [] (selected sums mask) sort_order) (change_indices keys)) /\
    length term_groups
    = length (np_split (take_along_axis [] (selected counts mask) sort_order)
                       (change_indices keys)).
Proof.
  unfold group_classifications.
  destruct (same_nd_shape counts sums) eqn:Hs; [|discriminate]. simpl negb. cbv iota.
  destruct (match terms with Some t => negb (same_nd_shape t counts) | None => false end) eqn:Ht;
    [discriminate|].
  destruct (match mask with
            | Some m => negb (Nat.eqb (length m) (length (positions counts)))
            | None => false end) eqn:Hm; [discriminate|].
  assert (Hm' : match mask with Some m => length m = length (positions counts) | None => True end).
  { destruct mask as [m|]; [|exact I]. apply negb_false_iff in Hm. now apply Nat.eqb_eq. }
  destruct (match terms with
            | Some t => Ok t
            | None => classify_terms_retain_shape (Some counts)
            end) as [terms'|] eqn:Et; [|discriminate].
  cbn [bind].
  assert (Hts : same_nd_shape terms' counts = true).
  { destruct terms as [t|].
    - injection Et as <-. now apply negb_false_iff in Ht.
    - unfold classify_terms_retain_shape in Et.
      destruct (classify_terms (Some counts)) as [tl|] eqn:Etl; [|discriminate].
      simpl in Et. injection Et as <-.
      unfold same_nd_shape. cbn [channels positions]. rewrite length_map, Nat.eqb_refl.
      unfold classify_terms in Etl.
      destruct (Nat.eqb (channels counts) 3) eqn:E3.
      + apply Nat.eqb_eq in E3. simpl in Etl. injection Etl as <-. now rewrite E3.
      + destruct (Nat.eqb (channels counts) 9) eqn:E9; [|discriminate].
        apply Nat.eqb_eq in E9. simpl in Etl. injection Etl as <-. now rewrite E9. }
  assert (Esel : match mask with
                 | Some m => (compress (positions counts) m, compress (positions sums) m,
                              compress (positions terms') m)
                 | None => (positions counts, positions sums, positions terms')
                 end = (selected counts mask, selected sums mask, selected terms' mask)).
  { destruct mask; reflexivity. }
  rewrite Esel. clear Esel.
  change (classify_terms (Some (mk_ndarray (channels counts) (selected counts mask))))
    with (classify_terms (Some counts)).
  destruct (classify_terms (Some counts)) as [tl|] eqn:Etl; [|discriminate]. cbn [bind].
  destruct (term_numbers _ (selected counts mask) (selected terms' mask)) as [tn|] eqn:Etn;
    [|discriminate].
  cbn [bind].
  match goal with
  | |- context [bind (sequence ?l) _] => destruct (sequence l) as [ids|] eqn:Eids
  end; [|discriminate].
  cbn [bind]. intro H. injection H as <- <- <-.
  exists terms', tl, tn, ids.
  split; [reflexivity|]. split; [exact Hts|]. split; [exact Hm'|].
  split; [reflexivity|]. split; [exact Etn|].
  cbv zeta. split; [exact Eids|]. split; [reflexivity|]. split; [reflexivity|].
  rewrite length_map, length_combine.
  fold (change_indices (take_along_axis 0%Z
          (map (fun row => np_sum_Z (zip_with Z.mul row
                  (map (fun i => (Z.of_nat (length tl) ^ Z.of_nat (length tl - i - 1))%Z)
                       (seq 0 (length tl))))) tn)
          (@argsort stable_argsort nat Nat.leb ids))).
  set (keys := take_along_axis 0%Z _ _).
  set (so := @argsort stable_argsort nat Nat.leb ids).
  assert (Hn : forall (A B : Type) (a : list A) (b : list B),
             length a = length b ->
             length (np_split a (change_indices keys)) = length (np_split b (change_indices keys))).
  { intros A B a b Hab. unfold np_split. generalize 0%nat.
    induction (change_indices keys) as [|i rest IH]; intro s; simpl; [reflexivity|].
    now rewrite IH. }
  rewrite (Hn _ _ (take_along_axis [] (selected terms' mask) so)
                  (take_along_axis [] (selected counts mask) so)).
  - apply Nat.min_id.
  - now rewrite !take_along_axis_length.
Qed.

Lemma classify_terms_retain_shape_raises (A : Type) (a : ndarray A) e :
  classify_terms_retain_shape (Some a) = Raise e -> e = ValueError.
Proof.
  unfold classify_terms_retain_shape, classify_terms.
  destruct (Nat.eqb (channels a) 3); [discriminate|].
  destruct (Nat.eqb (channels a) 9); [discriminate|].
  simpl. now intros [= <-].
Qed.

Lemma classify_terms_raises (A : Type) (a : ndarray A) e :
  classify_terms (Some a) = Raise e -> e = ValueError.
Proof.
  unfold classify_terms.
  destruct (Nat.eqb (channels a) 3); [discriminate|].
  destruct (Nat.eqb (channels a) 9); [discriminate|].
  simpl. now intros [= <-].
Qed.

(** X17.  [group_classifications] needs at least one position.  When the
    mask selects no position (or the arrays hold none), the call raises
    [ValueError]: [np.vectorize] refuses an input of size 0. *)
Theorem group_classifications_empty_selection_raises counts sums terms mask :
  selected counts mask = [] ->
  group_classifications counts sums terms mask = Raise ValueError.
Proof.
  intro Hsel. unfold group_classifications.
  destruct (same_nd_shape counts sums) eqn:Hs; [|reflexivity]. simpl negb. cbv iota.
  destruct (match terms with Some t => negb (same_nd_shape t counts) | None => false end) eqn:Ht;
    [reflexivity|].
  destruct (match mask with
            | Some m => negb (Nat.eqb (length m) (length (positions counts)))
            | None => false end) eqn:Hm; [reflexivity|].
  destruct (match terms with
            | Some t => Ok t
            | None => classify_terms_retain_shape (Some counts)
            end) as [terms'|e] eqn:Et.
  2:{ destruct terms; [discriminate|].
      now rewrite (classify_terms_retain_shape_raises _ _ _ Et). }
  cbn [bind].
  assert (Hlen : length (positions terms') = length (positions counts)).
  { destruct terms as [t|].
    - injection Et as <-. apply negb_false_iff in Ht.
      now apply same_nd_shape_inv in Ht.
    - unfold classify_terms_retain_shape in Et.
      destruct (classify_terms (Some counts)); [|discriminate].
      simpl in Et. injection Et as <-. apply length_map. }
  assert (Hselt : selected terms' mask = []).
  { destruct mask as [m|]; simpl in *.
    - apply negb_false_iff, Nat.eqb_eq in Hm.
      apply (compress_nil_same_length _ _ (positions counts)); congruence.
    - apply length_zero_iff_nil. rewrite Hlen, Hsel. reflexivity. }
  assert (Esel : match mask with
                 | Some m => (compress (positions counts) m, compress (positions sums) m,
                              compress (positions terms') m)
                 | None => (positions counts, positions sums, positions terms')
                 end = (selected counts mask, selected sums mask, selected terms' mask)).
  { destruct mask; reflexivity. }
  rewrite Esel. clear Esel.
  change (classify_terms (Some (mk_ndarray (channels counts) (selected counts mask))))
    with (classify_terms (Some counts)).
  destruct (classify_terms (Some counts)) as [tl|e] eqn:Etl.
  2:{ now rewrite (classify_terms_raises _ _ _ Etl). }
  cbn [bind]. rewrite Hselt. reflexivity.
Qed.

Lemma group_classifications_empty_selection_raises_witness :
  group_classifications grouped_counts grouped_sums (Some grouped_terms)
    (Some [false; false; false; false; false; false])
  = Raise ValueError.
Proof.
  apply group_classifications_empty_selection_raises. reflexivity.
Defined.

Lemma np_split_concat (A : Type) keys (a : list A) :
  length a = length keys -> concat (np_split a (change_indices keys)) = a.
Proof. intro H. rewrite np_split_change_indices by exact H. apply split_by_concat. Qed.

Lemma term_numbers_nonempty lookup counts terms numbers :
  term_numbers lookup counts terms = Ok numbers -> terms <> [].
Proof.
  unfold term_numbers. intros H Hnil. subst terms. simpl in H. discriminate.
Qed.

Lemma term_numbers_length lookup counts terms numbers :
  term_numbers lookup counts terms = Ok numbers ->
  length numbers = Nat.min (length counts) (length terms).
Proof.
  unfold term_numbers.
  destruct (concat _) as [|first rest]; [discriminate|].
  destruct (negb (is_none first) && existsb is_none (first :: rest)); [discriminate|].
  intro H. apply sequence_length in H.
  now rewrite H, zip_with_length, length_map.
Qed.

Lemma take_pairs (A B : Type) (dA : A) (dB : B) a b idx :
  length a = length b ->
  is_perm (length a) idx ->
  Permutation (combine (take_along_axis dA a idx) (take_along_axis dB b idx)) (combine a b).
Proof.
  intros Hab Hp. rewrite combine_take, (combine_map_seq _ _ dA dB a b Hab).
  now apply Permutation_map.
Qed.

(** The facts about sizes shared by the theorems on groups. *)
Lemma group_classifications_lengths counts sums terms mask count_groups sum_groups term_groups :
  group_classifications counts sums terms mask = Ok (count_groups, sum_groups, term_groups) ->
  exists keys sort_order,
    selected counts mask <> [] /\
    length (selected sums mask) = length (selected counts mask) /\
    length keys = length (selected counts mask) /\
    is_perm (length (selected counts mask)) sort_order /\
    count_groups
    = map (mk_ndarray (channels counts))
          (split_by Z.eqb keys (take_along_axis [] (selected counts mask) sort_order)) /\
    sum_groups
    = map (mk_ndarray (channels counts))
          (split_by Z.eqb keys (take_along_axis [] (selected sums mask) sort_order)) /\
    length term_groups = length count_groups.
Proof.
  intro H. apply group_classifications_inv in H.
  destruct H as (terms' & tl & tn & ids & Hs & Hts & Hm & Htl & Htn & H).
  cbv zeta in H. destruct H as (Hids & -> & -> & Hlt).
  set (gv := map (fun row => np_sum_Z (zip_with Z.mul row
                    (map (fun i => (Z.of_nat (length tl) ^ Z.of_nat (length tl - i - 1))%Z)
                         (seq 0 (length tl))))) tn) in *.
  set (so := @argsort stable_argsort nat Nat.leb ids) in *.
  apply same_nd_shape_inv in Hs, Hts. destruct Hs as [_ Hs]. destruct Hts as [_ Hts].
  assert (Hlc : length (selected terms' mask) = length (selected counts mask)).
  { apply selected_same_length; [exact Hts|].
    destruct mask; [congruence | exact I]. }
  assert (Hls : length (selected sums mask) = length (selected counts mask)).
  { symmetry. apply selected_same_length; [exact Hs | exact Hm]. }
  pose proof (term_numbers_length _ _ _ _ Htn) as Hln.
  rewrite Hlc, Nat.min_id in Hln.
  assert (Hlids : length ids = length (selected counts mask)).
  { apply sequence_length in Hids. rewrite Hids, length_map. unfold gv.
    now rewrite length_map. }
  assert (Hso : is_perm (length (selected counts mask)) so).
  { unfold is_perm, so. rewrite <- Hlids.
    apply (@argsort_perm stable_argsort stable_argsort_spec). }
  pose proof (is_perm_length _ _ Hso) as Hlso.
  exists (take_along_axis 0%Z gv so), so.
  split.
  { pose proof (term_numbers_nonempty _ _ _ _ Htn) as Hne.
    intro Hnil. apply Hne. apply length_zero_iff_nil. rewrite Hlc, Hnil. reflexivity. }
  split; [exact Hls|].
  split; [now rewrite take_along_axis_length|].
  split; [exact Hso|].
  rewrite !np_split_change_indices by (now rewrite !take_along_axis_length).
  split; [reflexivity|]. split; [reflexivity|].
  rewrite Hlt, length_map.
  rewrite np_split_change_indices by (now rewrite !take_along_axis_length).
  reflexivity.
Qed.

(** X18.  [group_classifications] distributes the selected positions over
    the groups.  Every selected position, with its counts and its sums,
    lies in exactly one group; no group is empty; the [i]-th count group,
    sum group and term list belong together. *)
Theorem group_classifications_partitions counts sums terms mask
  count_groups sum_groups term_groups :
  group_classifications counts sums terms mask = Ok (count_groups, sum_groups, term_groups) ->
  Permutation
    (combine (concat (map (@positions fval) count_groups))
             (concat (map (@positions fval) sum_groups)))
    (combine (selected counts mask) (selected sums mask)) /\
  Forall (fun g => positions g <> [] /\ channels g = channels counts) count_groups /\
  map (fun g => length (positions g)) sum_groups
  = map (fun g => length (positions g)) count_groups /\
  length term_groups = length count_groups.
Proof.
  intro H. apply group_classifications_lengths in H.
  destruct H as (keys & so & Hne & Hls & Hlk & Hso & -> & -> & Hlt).
  pose proof (is_perm_length _ _ Hso) as Hlso.
  rewrite !map_map. cbn [positions]. rewrite !map_id, !split_by_concat.
  split; [|split; [|split]].
  - apply take_pairs; [now symmetry | exact Hso].
  - apply Forall_forall. intros g Hg. apply in_map_iff in Hg.
    destruct Hg as (piece & <- & Hp). cbn [positions channels]. split; [|reflexivity].
    assert (Hall : Forall (fun piece => piece <> [])
                     (split_by Z.eqb keys (take_along_axis [] (selected counts mask) so))).
    { apply split_by_nonempty.
      - intro Hnil. apply Hne. apply length_zero_iff_nil.
        apply (f_equal (@length _)) in Hnil. rewrite take_along_axis_length in Hnil.
        simpl in Hnil. congruence.
      - rewrite take_along_axis_length. congruence. }
    rewrite Forall_forall in Hall. now apply Hall.
  - rewrite <- !(map_map (mk_ndarray (channels counts)) (fun g => length (positions g))).
    rewrite !map_map. cbn [positions].
    apply split_by_lengths; rewrite take_along_axis_length; congruence.
  - exact Hlt.
Qed.

Lemma group_classifications_partitions_witness :
  exists count_groups sum_groups term_groups,
    group_classifications grouped_counts grouped_sums (Some grouped_terms) None
    = Ok (count_groups, sum_groups, term_groups) /\
    Permutation
      (combine (concat (map (@positions fval) count_groups))
               (concat (map (@positions fval) sum_groups)))
      (combine (selected grouped_counts None) (selected grouped_sums None)) /\
    Forall (fun g => positions g <> [] /\ channels g = channels grouped_counts) count_groups /\
    map (fun g => length (positions g)) sum_groups
    = map (fun g => length (positions g)) count_groups /\
    length term_groups = length count_groups.
Proof.
  do 3 eexists. split; [reflexivity|].
  apply (group_classifications_partitions grouped_counts grouped_sums (Some grouped_terms) None).
  reflexivity.
Defined.

(* ------------------------------------------------------------------ *)
(** *** [np.unique] *)

Lemma insert_unique_spec x (f : Z -> Z) U :
  StronglySorted Z.lt (map fst U) ->
  (forall p, In p U -> snd p = f (fst p)) ->
  (~ In x (map fst U) -> f x = 0%Z) ->
  StronglySorted Z.lt (map fst (insert_unique x U)) /\
  (forall v, In v (map fst (insert_unique x U)) <-> v = x \/ In v (map fst U)) /\
  (forall p, In p (insert_unique x U) ->
             snd p = (f (fst p) + (if (fst p =? x)%Z then 1 else 0))%Z).
Proof.
  induction U as [|[w c] rest IH]; intros Hs Hf Hx.
  - simpl. split; [repeat constructor|]. split; [intro v; simpl; intuition congruence|].
    intros p [<- | []]. simpl. rewrite Z.eqb_refl, Hx by (intros []). reflexivity.
  - simpl in Hs. inversion Hs as [|? ? Hs' Hw]; subst.
    cbn [insert_unique].
    destruct (x <? w)%Z eqn:Elt.
    + apply Z.ltb_lt in Elt.
      assert (Hxall : Forall (Z.lt x) (w :: map fst rest)).
      { constructor; [exact Elt|]. apply (Forall_impl _ (fun a (H : (w < a)%Z) => Z.lt_trans _ _ _ Elt H) Hw). }
      split; [simpl; constructor; [exact Hs | exact Hxall]|].
      split; [intro v; simpl; intuition congruence|].
      intros p [<- | Hp].
      * simpl. rewrite Z.eqb_refl, Hx; [reflexivity|].
        intro Hin. rewrite Forall_forall in Hxall. specialize (Hxall x Hin). lia.
      * rewrite (Hf p Hp).
        assert (Hne : fst p <> x).
        { intro E. rewrite Forall_forall in Hxall.
          specialize (Hxall (fst p) (in_map fst _ _ Hp)). lia. }
        apply Z.eqb_neq in Hne. rewrite Hne. lia.
    + destruct (x =? w)%Z eqn:Eeq.
      * apply Z.eqb_eq in Eeq. subst w.
        split; [exact Hs|]. split; [intro v; simpl; intuition congruence|].
        intros p [<- | Hp].
        -- pose proof (Hf (x, c) (or_introl Logic.eq_refl)) as Ec. simpl in Ec.
           simpl. rewrite Z.eqb_refl. lia.
        -- rewrite (Hf p); [|now right].
           assert (Hne : fst p <> x).
           { intro E. rewrite Forall_forall in Hw.
             specialize (Hw (fst p) (in_map fst _ _ Hp)). lia. }
           apply Z.eqb_neq in Hne. rewrite Hne. lia.
      * apply Z.ltb_ge in Elt. apply Z.eqb_neq in Eeq.
        destruct IH as (IH1 & IH2 & IH3).
        -- exact Hs'.
        -- intros p Hp. apply Hf. now right.
        -- intro Hn. apply Hx. simpl. intros [E | Hin]; [lia | contradiction].
        -- split; [|split].
           ++ simpl. constructor; [exact IH1|].
              apply Forall_forall. intros v Hv. apply IH2 in Hv.
              destruct Hv as [-> | Hv]; [lia|].
              rewrite Forall_forall in Hw. now apply Hw.
           ++ intro v. simpl. rewrite IH2. intuition congruence.
           ++ intros p [<- | Hp].
              ** pose proof (Hf (w, c) (or_introl Logic.eq_refl)) as Ec. simpl in Ec.
                 simpl. assert (Hne : w <> x) by lia.
                 apply Z.eqb_neq in Hne. rewrite Hne. lia.
              ** now apply IH3.
Qed.

Lemma np_unique_spec l :
  StronglySorted Z.lt (map fst (np_unique l)) /\
  (forall v, In v (map fst (np_unique l)) <-> In v l) /\
  (forall p, In p (np_unique l) -> snd p = Z.of_nat (count_occ Z.eq_dec l (fst p))).
Proof.
  induction l as [|x l (IH1 & IH2 & IH3)].
  - simpl. split; [constructor|]. split; [tauto | intros p []].
  - change (np_unique (x :: l)) with (insert_unique x (np_unique l)).
    destruct (insert_unique_spec x (fun v => Z.of_nat (count_occ Z.eq_dec l v)) (np_unique l))
      as (H1 & H2 & H3).
    + exact IH1.
    + exact IH3.
    + intro Hn. rewrite IH2 in Hn. apply (count_occ_not_In Z.eq_dec) in Hn. now rewrite Hn.
    + split; [exact H1|]. split.
      * intro v. rewrite H2, IH2. simpl. intuition congruence.
      * intros p Hp. rewrite (H3 p Hp). simpl.
        destruct (Z.eq_dec x (fst p)) as [E | E].
        -- subst x. rewrite Z.eqb_refl. lia.
        -- assert (Hne : fst p <> x) by congruence.
           apply Z.eqb_neq in Hne. rewrite Hne. lia.
Qed.

Lemma StronglySorted_lt_NoDup l : StronglySorted Z.lt l -> NoDup l.
Proof.
  induction 1 as [|a l Hs IH Ha]; constructor; [|exact IH].
  intro Hin. rewrite Forall_forall in Ha. specialize (Ha a Hin). lia.
Qed.

(* ------------------------------------------------------------------ *)
(** *** Positions in the sorted unique values *)

Lemma in_combine_seq_r (keys : list Z) : forall s k j,
  In (k, j) (combine keys (seq s (length keys))) ->
  (s <= j < s + length keys)%nat /\ nth (j - s) keys 0%Z = k.
Proof.
  induction keys as [|x keys IH]; intros s k j H; [contradiction|].
  simpl in H. destruct H as [H | H].
  - injection H as <- <-. simpl. rewrite Nat.sub_diag. split; [lia | reflexivity].
  - apply IH in H. destruct H as [Hr Hn]. simpl length. split; [lia|].
    replace (j - s)%nat with (S (j - S s)) by lia. exact Hn.
Qed.

Lemma dict_get_combine_seq keys v j :
  dict_get Z.eqb (combine keys (seq 0 (length keys))) v = Some j ->
  (j < length keys)%nat /\ nth j keys 0%Z = v.
Proof.
  unfold dict_get.
  destruct (find _ _) as [[k j']|] eqn:E; [|discriminate].
  simpl. intros [= <-]. apply find_some in E. destruct E as [Hin Hk].
  simpl in Hk. apply Z.eqb_eq in Hk. subst k.
  apply in_rev in Hin. apply in_combine_seq_r in Hin.
  rewrite Nat.sub_0_r in Hin. destruct Hin as [Hr Hn]. split; [lia | exact Hn].
Qed.

(* ------------------------------------------------------------------ *)
(** *** Runs of a sorted list *)

Lemma split_by_map_inj (K A : Type) (eqbK : K -> K -> bool) (phi : nat -> K) l :
  forall (a : list A),
  (forall j j', In j l -> In j' l -> eqbK (phi j) (phi j') = Nat.eqb j j') ->
  split_by eqbK (map phi l) a = split_by Nat.eqb l a.
Proof.
  induction l as [|x l IH]; intros a H; [reflexivity|].
  destruct l as [|y l'].
  - destruct a; reflexivity.
  - destruct a as [|a0 a']; [reflexivity|].
    cbn [map]. rewrite !split_by_cons2.
    change (phi y :: map phi l') with (map phi (y :: l')).
    rewrite (IH a'); [|intros j j' Hj Hj'; apply H; now right].
    rewrite (H x y); [reflexivity | now left | right; now left].
Qed.

Lemma dedup_cons2 x y l :
  dedup (x :: y :: l) = if Nat.eqb x y then dedup (y :: l) else x :: dedup (y :: l).
Proof. reflexivity. Qed.

Lemma dedup_head x l : exists t, dedup (x :: l) = x :: t.
Proof.
  revert x. induction l as [|y l IH]; intro x; [now exists []|].
  rewrite dedup_cons2. destruct (Nat.eqb x y) eqn:E.
  - apply Nat.eqb_eq in E. subst y. apply IH.
  - eauto.
Qed.

Lemma dedup_incl l j : In j (dedup l) -> In j l.
Proof.
  induction l as [|x l IH]; [tauto|].
  destruct l as [|y l']; [tauto|].
  rewrite dedup_cons2. destruct (Nat.eqb x y).
  - intro H. right. now apply IH.
  - intros [<- | H]; [now left | right; now apply IH].
Qed.

Lemma dedup_sorted l :
  StronglySorted le l -> StronglySorted lt (dedup l).
Proof.
  induction l as [|x l IH]; intro Hs; [constructor|].
  inversion Hs as [|? ? Hs' Hx]; subst.
  destruct l as [|y l']; [repeat constructor|].
  rewrite dedup_cons2. destruct (Nat.eqb x y) eqn:E; [now apply IH|].
  apply Nat.eqb_neq in E. constructor; [now apply IH|].
  apply Forall_forall. intros j Hj. apply dedup_incl in Hj.
  inversion Hx as [|? ? Hxy Hx']; subst.
  inversion Hs' as [|? ? _ Hy]; subst.
  destruct Hj as [<- | Hj]; [lia|].
  rewrite Forall_forall in Hy. specialize (Hy j Hj). lia.
Qed.

(** Along a sorted list of keys the pieces are as long as the keys are
    frequent. *)
Lemma split_by_sorted_lengths (A : Type) l : forall (a : list A),
  l <> [] ->
  StronglySorted le l ->
  length a = length l ->
  map (@length A) (split_by Nat.eqb l a) = map (count_occ Nat.eq_dec l) (dedup l).
Proof.
  induction l as [|x l IH]; intros a Hne Hs Ha; [congruence|].
  destruct a as [|a0 a']; [discriminate|]. injection Ha as Ha.
  inversion Hs as [|? ? Hs' Hx]; subst.
  destruct l as [|y l'].
  - destruct a'; [|discriminate]. simpl.
    destruct (Nat.eq_dec x x); [reflexivity | congruence].
  - rewrite split_by_cons2, dedup_cons2.
    specialize (IH a' ltac:(discriminate) Hs' Ha).
    assert (Hothers : forall j, In j (dedup (y :: l')) -> j <> x ->
              count_occ Nat.eq_dec (x :: y :: l') j = count_occ Nat.eq_dec (y :: l') j).
    { intros j _ Hj. rewrite count_occ_cons_neq; [reflexivity | congruence]. }
    destruct (Nat.eqb x y) eqn:E.
    + apply Nat.eqb_eq in E. subst y.
      destruct (dedup_head x l') as [t Ht]. rewrite Ht in *.
      destruct (split_by Nat.eqb (x :: l') a') as [|r0 r]; [discriminate|].
      cbn [map hd tl length] in *. injection IH as H0 Hr.
      f_equal.
      * rewrite (count_occ_cons_eq Nat.eq_dec (x :: l') (eq_refl x)). now f_equal.
      * rewrite Hr. apply map_ext_in. intros j Hj. symmetry.
        apply count_occ_cons_neq.
        pose proof (dedup_sorted (x :: l') Hs') as Hd. rewrite Ht in Hd.
        inversion Hd as [|? ? _ Hlt]; subst.
        rewrite Forall_forall in Hlt. specialize (Hlt j Hj). lia.
    + apply Nat.eqb_neq in E. cbn [map length]. f_equal.
      * rewrite (count_occ_cons_eq Nat.eq_dec (y :: l') (eq_refl x)).
        f_equal. symmetry. apply count_occ_not_In. intro Hin.
        destruct Hin as [Hy | Hin]; [congruence|].
        inversion Hs' as [|? ? _ Hy]; subst. rewrite Forall_forall in Hy.
        specialize (Hy x Hin).
        assert (x <= y)%nat by (apply (Forall_inv Hx)). lia.
      * rewrite IH. apply map_ext_in. intros j Hj. symmetry. apply count_occ_cons_neq.
        apply dedup_incl in Hj.
        inversion Hs' as [|? ? _ Hy]; subst. rewrite Forall_forall in Hy.
        assert (Hxy : (x <= y)%nat) by (rewrite Forall_forall in Hx; apply Hx; now left).
        destruct Hj as [<- | Hj]; [lia|]. specialize (Hy j Hj). lia.
Qed.

(* ------------------------------------------------------------------ *)
(** *** Largest groups first *)

Lemma Forall2_nth_both (A B : Type) (P : A -> B -> Prop) (da : A) (db : B) a b :
  Forall2 P a b -> forall i, (i < length a)%nat -> P (nth i a da) (nth i b db).
Proof.
  induction 1 as [|x y a b Hxy _ IH]; intros i Hi; [simpl in Hi; lia|].
  destruct i as [|i]; [exact Hxy|]. simpl in *. apply IH. lia.
Qed.

Lemma StronglySorted_map_iff (A B : Type) (R : B -> B -> Prop) (f : A -> B) l :
  StronglySorted (fun a b => R (f a) (f b)) l -> StronglySorted R (map f l).
Proof.
  induction 1 as [|a l Hs IH Ha]; simpl; constructor; [exact IH|].
  apply Forall_forall. intros b Hb. apply in_map_iff in Hb.
  destruct Hb as (c & <- & Hc). rewrite Forall_forall in Ha. now apply Ha.
Qed.

Lemma StronglySorted_map_inv (A B : Type) (R : B -> B -> Prop) (f : A -> B) l :
  StronglySorted R (map f l) -> StronglySorted (fun a b => R (f a) (f b)) l.
Proof.
  induction l as [|a l IH]; simpl; intro H; [constructor|].
  inversion H as [|? ? Hs Ha]; subst. constructor; [now apply IH|].
  apply Forall_forall. intros b Hb. rewrite Forall_forall in Ha.
  apply Ha. now apply in_map.
Qed.

(** Values read off a descending list at increasing positions descend. *)
Lemma descending_at_increasing (D : list Z) js :
  StronglySorted (fun a b => (b <= a)%Z) D ->
  StronglySorted lt js ->
  Forall (fun j => (j < length D)%nat) js ->
  StronglySorted (fun a b => (b <= a)%Z) (map (fun j => nth j D 0%Z) js).
Proof.
  intros HD Hjs Hr. apply StronglySorted_map_iff.
  induction Hjs as [|j js Hs IH Hj]; constructor.
  - apply IH. now inversion Hr.
  - inversion Hr as [|? ? Hjr Hr']; subst.
    rewrite Forall_forall in *. intros j' Hj'.
    apply (StronglySorted_nth Z (fun a b => (b <= a)%Z) 0%Z D); [intro; lia | exact HD|].
    specialize (Hj j' Hj'). specialize (Hr' j' Hj'). lia.
Qed.

Lemma count_occ_related (phi : nat -> Z) g gv ids :
  (forall j j', (j < g)%nat -> (j' < g)%nat -> phi j = phi j' -> j = j') ->
  Forall2 (fun v j => (j < g)%nat /\ phi j = v) gv ids ->
  forall j, (j < g)%nat ->
  count_occ Nat.eq_dec ids j = count_occ Z.eq_dec gv (phi j).
Proof.
  intros Hinj H j Hj. induction H as [|v i gv ids [Hi Hv] _ IH]; [reflexivity|].
  simpl. rewrite IH.
  destruct (Nat.eq_dec i j) as [E | E], (Z.eq_dec v (phi j)) as [E' | E']; try reflexivity.
  - subst. congruence.
  - subst v. exfalso. apply E. now apply Hinj.
Qed.

Lemma take_in_range_incl (A : Type) (d : A) l idx x :
  Forall (fun i => (i < length l)%nat) idx ->
  In x (take_along_axis d l idx) -> In x l.
Proof.
  intros Hr Hx. apply in_map_iff in Hx. destruct Hx as (i & <- & Hi).
  rewrite Forall_forall in Hr. apply nth_In. now apply Hr.
Qed.

(** The groups come in order of non-increasing size. *)
Lemma group_sizes_descend counts sums terms mask count_groups sum_groups term_groups :
  group_classifications counts sums terms mask = Ok (count_groups, sum_groups, term_groups) ->
  StronglySorted (fun a b => (length (positions b) <= length (positions a))%nat) count_groups.
Proof.
  intro H0.
  destruct (group_classifications_lengths _ _ _ _ _ _ _ H0)
    as (_ & _ & Hne & _ & _ & _ & _ & _ & _).
  apply group_classifications_inv in H0.
  destruct H0 as (terms' & tl & tn & ids & Hs & Hts & Hm & Htl & Htn & H).
  cbv zeta in H. destruct H as (Hids & -> & _ & _).
  set (gv := map (fun row => np_sum_Z (zip_with Z.mul row
                    (map (fun i => (Z.of_nat (length tl) ^ Z.of_nat (length tl - i - 1))%Z)
                         (seq 0 (length tl))))) tn) in *.
  set (U := np_unique gv) in *.
  set (so1 := @argsort stable_argsort Z Z.leb (map Z.opp (map snd U))) in *.
  set (U' := take_along_axis 0%Z (map fst U) so1) in *.
  set (so2 := @argsort stable_argsort nat Nat.leb ids).
  set (C' := take_along_axis [] (selected counts mask) so2).
  set (keys := take_along_axis 0%Z gv so2).
  set (g := length U).
  (* sizes of the arrays *)
  apply same_nd_shape_inv in Hts. destruct Hts as [_ Hts].
  assert (Hlc : length (selected terms' mask) = length (selected counts mask)).
  { apply selected_same_length; [exact Hts|]. destruct mask; [congruence | exact I]. }
  pose proof (term_numbers_length _ _ _ _ Htn) as Hln. rewrite Hlc, Nat.min_id in Hln.
  assert (Hlgv : length gv = length (selected counts mask)) by (unfold gv; now rewrite length_map).
  assert (Hlids : length ids = length gv).
  { apply sequence_length in Hids. now rewrite Hids, length_map. }
  (* the unique values and their counts *)
  destruct (np_unique_spec gv) as (Hsorted & Hmem & Hcount). fold U in Hsorted, Hmem, Hcount.
  assert (Hso1 : is_perm g so1).
  { unfold is_perm, so1, g. rewrite <- (length_map snd U), <- (length_map Z.opp (map snd U)).
    apply (@argsort_perm stable_argsort stable_argsort_spec). }
  assert (HlU' : length U' = g).
  { unfold U'. rewrite take_along_axis_length. now apply is_perm_length. }
  assert (HndU' : NoDup U').
  { apply (Permutation_NoDup (l := map fst U)).
    - symmetry. apply take_along_axis_perm. rewrite length_map. exact Hso1.
    - now apply StronglySorted_lt_NoDup. }
  set (D := take_along_axis 0%Z (map snd U) so1).
  assert (HlD : length D = g).
  { unfold D. rewrite take_along_axis_length. now apply is_perm_length. }
  assert (HD : StronglySorted (fun a b => (b <= a)%Z) D).
  { assert (Hopp : StronglySorted (fun a b => Z.leb a b = true) (map Z.opp D)).
    { unfold D. rewrite (map_take _ _ Z.opp 0%Z).
      apply (@argsort_sorted stable_argsort stable_argsort_spec Z Z.leb).
      - intros a b. destruct (Z.leb_spec a b); [now left | right; apply Z.leb_le; lia].
      - intros a b c Hab Hbc. apply Z.leb_le in Hab, Hbc. apply Z.leb_le. lia. }
    apply StronglySorted_map_inv in Hopp.
    apply (StronglySorted_impl Z (fun a b => Z.leb (- a) (- b) = true)
             (fun a b => (b <= a)%Z) D); [|exact Hopp].
    intros a b _ _ Hab. apply Z.leb_le in Hab. lia. }
  set (phi := fun j => nth j U' 0%Z).
  assert (Hinj : forall j j', (j < g)%nat -> (j' < g)%nat -> phi j = phi j' -> j = j').
  { intros j j' Hj Hj' E. rewrite <- HlU' in Hj, Hj'.
    apply (proj1 (NoDup_nth U' 0%Z) HndU' j j' Hj Hj' E). }
  assert (HDcount : forall j, (j < g)%nat ->
            nth j D 0%Z = Z.of_nat (count_occ Z.eq_dec gv (phi j))).
  { intros j Hj. unfold D, phi, U', take_along_axis.
    pose proof (is_perm_length _ _ Hso1) as Hlso1.
    rewrite (nth_map_in_range _ _ (fun i => nth i (map snd U) 0%Z) 0%nat 0%Z) by lia.
    rewrite (nth_map_in_range _ _ (fun i => nth i (map fst U) 0%Z) 0%nat 0%Z) by lia.
    set (i := nth j so1 0%nat).
    assert (Hi : (i < g)%nat).
    { pose proof (is_perm_range _ _ Hso1) as Hr. rewrite Forall_forall in Hr.
      apply Hr, nth_In. lia. }
    rewrite (nth_map_in_range _ _ snd (0%Z, 0%Z) 0%Z U i) by exact Hi.
    rewrite (nth_map_in_range _ _ fst (0%Z, 0%Z) 0%Z U i) by exact Hi.
    apply Hcount, nth_In. exact Hi. }
  (* the positions of the grouping values among the sorted unique values *)
  assert (HP : Forall2 (fun v j => (j < g)%nat /\ phi j = v) gv ids).
  { apply sequence_map_inv in Hids.
    eapply Forall2_impl; [|exact Hids].
    intros v j Hvj. cbv beta in Hvj.
    destruct (dict_get Z.eqb (combine U' (seq 0 (length U'))) v) as [j'|] eqn:E;
      [|discriminate].
    injection Hvj as <-. apply dict_get_combine_seq in E. rewrite HlU' in E. exact E. }
  (* the second sort *)
  assert (Hso2 : is_perm (length ids) so2).
  { apply (@argsort_perm stable_argsort stable_argsort_spec). }
  pose proof (is_perm_length _ _ Hso2) as Hlso2.
  pose proof (is_perm_range _ _ Hso2) as Hrso2.
  set (ids' := take_along_axis 0%nat ids so2).
  assert (Hids'sorted : StronglySorted le ids').
  { assert (Hb : StronglySorted (fun a b => Nat.leb a b = true) ids').
    { apply (@argsort_sorted stable_argsort stable_argsort_spec nat Nat.leb);
        [exact nat_leb_total | exact nat_leb_trans]. }
    apply (StronglySorted_impl nat (fun a b => Nat.leb a b = true) le ids'); [|exact Hb].
    intros a b _ _ Hab. now apply Nat.leb_le. }
  assert (Hids'range : forall j, In j ids' -> (j < g)%nat).
  { intros j Hj. apply (take_in_range_incl _ 0%nat ids so2 j Hrso2) in Hj.
    apply (In_nth _ _ 0%nat) in Hj. destruct Hj as (i & Hi & <-).
    rewrite Hlids in Hi.
    exact (proj1 (Forall2_nth_both _ _ _ 0%Z 0%nat gv ids HP i Hi)). }
  assert (Hkeys : keys = map phi ids').
  { unfold keys, ids', take_along_axis. rewrite map_map. apply map_ext_in.
    intros i Hi. rewrite Forall_forall in Hrso2. specialize (Hrso2 i Hi).
    rewrite Hlids in Hrso2. symmetry.
    exact (proj2 (Forall2_nth_both _ _ _ 0%Z 0%nat gv ids HP i Hrso2)). }
  (* the pieces *)
  assert (HlC' : length C' = length ids').
  { unfold C', ids'. now rewrite !take_along_axis_length. }
  rewrite np_split_change_indices
    by (unfold C', keys; now rewrite !take_along_axis_length).
  fold keys C'. rewrite Hkeys.
  rewrite (split_by_map_inj Z (list fval) Z.eqb phi ids' C').
  2:{ intros j j' Hj Hj'. apply Hids'range in Hj, Hj'.
      destruct (Nat.eqb_spec j j') as [-> | Hjj]; [apply Z.eqb_refl|].
      apply Z.eqb_neq. intro E. apply Hjj. now apply Hinj. }
  apply StronglySorted_map_iff. cbn [positions].
  apply (StronglySorted_map_inv _ _ (fun x y => (y <= x)%nat) (@length (list fval))).
  assert (Hids'ne : ids' <> []).
  { intro Hnil. apply Hne. apply length_zero_iff_nil.
    apply (f_equal (@length _)) in Hnil. unfold ids' in Hnil.
    rewrite take_along_axis_length in Hnil. simpl in Hnil. congruence. }
  rewrite (split_by_sorted_lengths _ ids' C' Hids'ne Hids'sorted HlC').
  assert (Hperm : Permutation ids' ids) by (now apply take_along_axis_perm).
  assert (Hsizes : map (fun j => nth j D 0%Z) (dedup ids')
                   = map Z.of_nat (map (count_occ Nat.eq_dec ids') (dedup ids'))).
  { rewrite map_map. apply map_ext_in. intros j Hj. apply dedup_incl, Hids'range in Hj.
    rewrite (HDcount j Hj). f_equal.
    rewrite (proj1 (Permutation_count_occ Nat.eq_dec ids' ids) Hperm j).
    symmetry. now apply (count_occ_related phi g). }
  pose proof (descending_at_increasing D (dedup ids') HD (dedup_sorted ids' Hids'sorted)) as Hdesc.
  rewrite Hsizes in Hdesc.
  apply StronglySorted_map_inv in Hdesc.
  - apply (StronglySorted_impl _ _ _ _ (fun a b _ _ (H : (Z.of_nat b <= Z.of_nat a)%Z) =>
                                         proj2 (Nat2Z.inj_le b a) H) Hdesc).
  - apply Forall_forall. intros j Hj. rewrite HlD. now apply Hids'range, dedup_incl.
Qed.

(** X19.  [group_classifications] returns the largest groups first: the
    groups come in order of non-increasing size. *)
Theorem group_classifications_largest_first counts sums terms mask
  count_groups sum_groups term_groups :
  group_classifications counts sums terms mask = Ok (count_groups, sum_groups, term_groups) ->
  StronglySorted (fun a b => (length (positions b) <= length (positions a))%nat) count_groups.
Proof. apply group_sizes_descend. Qed.

Lemma group_classifications_largest_first_witness :
  exists count_groups sum_groups term_groups,
    group_classifications grouped_counts grouped_sums (Some grouped_terms) None
    = Ok (count_groups, sum_groups, term_groups) /\
    StronglySorted (fun a b => (length (positions b) <= length (positions a))%nat) count_groups.
Proof.
  do 3 eexists. split; [reflexivity|].
  eapply (group_classifications_largest_first grouped_counts grouped_sums
            (Some grouped_terms) None).
  reflexivity.
Defined.

Lemma StronglySorted_firstn_skipn (A : Type) (R : A -> A -> Prop) l : forall k a b,
  StronglySorted R l -> In a (firstn k l) -> In b (skipn k l) -> R a b.
Proof.
  induction l as [|x l IH]; intros k a b Hs Ha Hb.
  - destruct k; contradiction.
  - inversion Hs as [|? ? Hs' Hx]; subst.
    destruct k as [|k]; [contradiction|]. simpl in Ha, Hb.
    destruct Ha as [<- | Ha].
    + rewrite Forall_forall in Hx. apply Hx.
      rewrite <- (firstn_skipn k l). apply in_or_app. now right.
    + now apply (IH k).
Qed.

(** X20.  [filter_groups] applied to the groups of
    [group_classifications] keeps the largest groups: it succeeds, returns
    a leading run of the groups, and no group it drops is larger than a
    group it keeps. *)
Theorem filter_groups_keeps_largest_groups counts sums terms mask
  count_groups sum_groups term_groups completeness max_groups :
  group_classifications counts sums terms mask = Ok (count_groups, sum_groups, term_groups) ->
  exists k coverage,
    filter_groups count_groups sum_groups term_groups completeness max_groups
    = Some (firstn k count_groups, firstn k sum_groups, firstn k term_groups, coverage) /\
    forall kept dropped,
      In kept (firstn k count_groups) -> In dropped (skipn k count_groups) ->
      (length (positions dropped) <= length (positions kept))%nat.
Proof.
  intro H.
  pose proof (group_sizes_descend _ _ _ _ _ _ _ H) as Hsorted.
  destruct (group_classifications_lengths _ _ _ _ _ _ _ H)
    as (keys & so & _ & Hls & Hlk & Hso & Ecg & Esg & Hlt).
  assert (Hlsg : length sum_groups = length count_groups).
  { rewrite Ecg, Esg, !length_map.
    pose proof (split_by_lengths Z (list fval) (list fval) Z.eqb keys
                  (take_along_axis [] (selected sums mask) so)
                  (take_along_axis [] (selected counts mask) so)) as Hl.
    rewrite !take_along_axis_length in Hl.
    pose proof (is_perm_length _ _ Hso) as Hlso.
    apply (f_equal (@length _)) in Hl; [|congruence|congruence].
    now rewrite !length_map in Hl. }
  destruct (filter_groups_explicit count_groups sum_groups term_groups completeness max_groups)
    as (k0 & k & _ & _ & _ & _ & E); [lia | lia |].
  exists k. eexists. split; [exact E|].
  intros kept dropped Hk Hd.
  apply (StronglySorted_firstn_skipn _ _ count_groups k kept dropped Hsorted Hk Hd).
Qed.

Lemma filter_groups_keeps_largest_groups_witness :
  exists k coverage,
    filter_groups
      [mk_ndarray 3 [[Num 2; Num 1; Num 0]; [Num 2; Num 2; Num 0]; [Num 4; Num 1; Num 0]];
       mk_ndarray 3 [[Num 3; Num 0; Num 0]; [Num 1; Num 0; Num 0]];
       mk_ndarray 3 [[Num 1; Num 1; Num 1]]]
      [mk_ndarray 3 [[Num 5; Num 0; Num 0]; [Num 4; Num 0; Num 0]; [Num 9; Num 0; Num 0]];
       mk_ndarray 3 [[Num (-3); Num 0; Num 0]; [Num (-1); Num 0; Num 0]];
       mk_ndarray 3 [[Num 1; Num 0; Num (-2)]]]
      [["P"; "Z"]; ["N"]; ["P"; "Z"; "N"]]%string (Some (3 # 4)) None
    = Some (firstn k
              [mk_ndarray 3 [[Num 2; Num 1; Num 0]; [Num 2; Num 2; Num 0]; [Num 4; Num 1; Num 0]];
               mk_ndarray 3 [[Num 3; Num 0; Num 0]; [Num 1; Num 0; Num 0]];
               mk_ndarray 3 [[Num 1; Num 1; Num 1]]],
            firstn k
              [mk_ndarray 3 [[Num 5; Num 0; Num 0]; [Num 4; Num 0; Num 0]; [Num 9; Num 0; Num 0]];
               mk_ndarray 3 [[Num (-3); Num 0; Num 0]; [Num (-1); Num 0; Num 0]];
               mk_ndarray 3 [[Num 1; Num 0; Num (-2)]]],
            firstn k [["P"; "Z"]; ["N"]; ["P"; "Z"; "N"]]%string, coverage) /\
    forall kept dropped,
      In kept (firstn k
                 [mk_ndarray 3 [[Num 2; Num 1; Num 0]; [Num 2; Num 2; Num 0];
                                [Num 4; Num 1; Num 0]];
                  mk_ndarray 3 [[Num 3; Num 0; Num 0]; [Num 1; Num 0; Num 0]];
                  mk_ndarray 3 [[Num 1; Num 1; Num 1]]]) ->
      In dropped (skipn k
                    [mk_ndarray 3 [[Num 2; Num 1; Num 0]; [Num 2; Num 2; Num 0];
                                   [Num 4; Num 1; Num 0]];
                     mk_ndarray 3 [[Num 3; Num 0; Num 0]; [Num 1; Num 0; Num 0]];
                     mk_ndarray 3 [[Num 1; Num 1; Num 1]]]) ->
      (length (positions dropped) <= length (positions kept))%nat.
Proof.
  apply (filter_groups_keeps_largest_groups grouped_counts grouped_sums (Some grouped_terms) None).
  reflexivity.
Defined.

(* ================================================================== *)
(** ** Groups described with padded term lists *)

(** On keys without duplicates every lawful [argsort] returns the same
    indices. *)
Lemma argsort_unique (AS1 AS2 : ArgSort) (S1 : ArgSortSpec AS1) (S2 : ArgSortSpec AS2)
  (K : Type) (leb : K -> K -> bool) (d : K) (l : list K) :
  (forall a b, leb a b = true \/ leb b a = true) ->
  (forall a b c, leb a b = true -> leb b c = true -> leb a c = true) ->
  (forall a b, leb a b = true -> leb b a = true -> a = b) ->
  NoDup l ->
  @argsort AS1 K leb l = @argsort AS2 K leb l.
Proof.
  intros Htot Htrans Hanti Hnd.
  pose proof (@argsort_perm AS1 S1 K leb l) as H1.
  pose proof (@argsort_perm AS2 S2 K leb l) as H2.
  apply (take_along_axis_inj K d l); [exact Hnd | | |].
  - apply (is_perm_range _ _ H1).
  - apply (is_perm_range _ _ H2).
  - apply (sorted_perm_unique K (fun a b => leb a b = true) Hanti).
    + now apply argsort_sorted.
    + now apply argsort_sorted.
    + rewrite (take_along_axis_perm K d l _ H1).
      symmetry. apply (take_along_axis_perm K d l _ H2).
Qed.

(** The sorted arrangement of the keys does not depend on the
    [argsort]. *)
Lemma argsort_sorted_keys (AS1 AS2 : ArgSort) (S1 : ArgSortSpec AS1) (S2 : ArgSortSpec AS2)
  (l : list string) :
  take_along_axis EmptyString l (@argsort AS1 string String.leb l)
  = take_along_axis EmptyString l (@argsort AS2 string String.leb l).
Proof.
  apply (sorted_perm_unique string (fun a b => String.leb a b = true) String.leb_antisym).
  - apply argsort_sorted; [apply String.leb_total | apply string_leb_trans].
  - apply argsort_sorted; [apply String.leb_total | apply string_leb_trans].
  - rewrite (take_along_axis_perm string EmptyString l _ (@argsort_perm AS1 S1 _ _ l)).
    symmetry. apply (take_along_axis_perm string EmptyString l _ (@argsort_perm AS2 S2 _ _ l)).
Qed.

Lemma nat_leb_antisym a b : Nat.leb a b = true -> Nat.leb b a = true -> a = b.
Proof. rewrite !Nat.leb_le. lia. Qed.

Section PaddedTerms.

Context {AS : ArgSort} {ASS : ArgSortSpec AS}.

Lemma argsort_terms_one_tensor :
  argsort Nat.leb (argsort String.leb terms_one_tensor) = [1; 2; 0]%nat.
Proof.
  assert (E : argsort String.leb terms_one_tensor = [2; 0; 1]%nat).
  { rewrite (argsort_unique AS stable_argsort ASS stable_argsort_spec string String.leb
               EmptyString terms_one_tensor String.leb_total string_leb_trans
               String.leb_antisym); [reflexivity|].
    repeat (constructor; [simpl; intuition discriminate|]). constructor. }
  rewrite E.
  rewrite (argsort_unique AS stable_argsort ASS stable_argsort_spec nat Nat.leb
             0%nat [2; 0; 1]%nat nat_leb_total nat_leb_trans nat_leb_antisym);
    [reflexivity|].
  repeat (constructor; [simpl; intuition discriminate|]). constructor.
Qed.

Lemma argsort_terms_two_tensors :
  argsort Nat.leb (argsort String.leb terms_two_tensors) = [4; 5; 3; 7; 8; 6; 1; 2; 0]%nat.
Proof.
  assert (E : argsort String.leb terms_two_tensors = [8; 6; 7; 2; 0; 1; 5; 3; 4]%nat).
  { rewrite (argsort_unique AS stable_argsort ASS stable_argsort_spec string String.leb
               EmptyString terms_two_tensors String.leb_total string_leb_trans
               String.leb_antisym); [reflexivity|].
    repeat (constructor; [simpl; intuition discriminate|]). constructor. }
  rewrite E.
  rewrite (argsort_unique AS stable_argsort ASS stable_argsort_spec nat Nat.leb
             0%nat [8; 6; 7; 2; 0; 1; 5; 3; 4]%nat nat_leb_total nat_leb_trans nat_leb_antisym);
    [reflexivity|].
  repeat (constructor; [simpl; intuition discriminate|]). constructor.
Qed.

(** A single term followed by the filler ["--"] sorts last. *)
Lemma argsort_padded_one t :
  In t terms_one_tensor ->
  nth 2 (argsort String.leb [t; "--"; "--"]%string) 0%nat = 0%nat.
Proof.
  intro Ht.
  pose proof (argsort_sorted_keys AS stable_argsort ASS stable_argsort_spec
                [t; "--"; "--"]%string) as E.
  pose proof (@argsort_perm AS ASS string String.leb [t; "--"; "--"]%string) as Hp.
  pose proof (is_perm_length _ _ Hp) as Hl.
  pose proof (is_perm_range _ _ Hp) as Hr.
  destruct (argsort String.leb [t; "--"; "--"]%string) as [|a0 [|a1 [|a2 [|]]]];
    try discriminate Hl.
  assert (H2 : (a2 < 3)%nat).
  { rewrite Forall_forall in Hr. apply Hr. simpl. tauto. }
  cbn [nth].
  simpl in Ht.
  destruct Ht as [<- | [<- | [<- | []]]]; vm_compute in E;
    injection E as _ _ E2;
    (destruct a2 as [|[|[|a2]]]; [reflexivity | discriminate E2 | discriminate E2 | lia]).
Qed.

Lemma argsort_padded_two t :
  In t terms_two_tensors ->
  nth 8 (argsort String.leb [t; "--"; "--"; "--"; "--"; "--"; "--"; "--"; "--"]%string) 0%nat
  = 0%nat.
Proof.
  intro Ht.
  pose proof (argsort_sorted_keys AS stable_argsort ASS stable_argsort_spec
                [t; "--"; "--"; "--"; "--"; "--"; "--"; "--"; "--"]%string) as E.
  pose proof (@argsort_perm AS ASS string String.leb
                [t; "--"; "--"; "--"; "--"; "--"; "--"; "--"; "--"]%string) as Hp.
  pose proof (is_perm_length _ _ Hp) as Hl.
  pose proof (is_perm_range _ _ Hp) as Hr.
  destruct (argsort String.leb [t; "--"; "--"; "--"; "--"; "--"; "--"; "--"; "--"]%string)
    as [|a0 [|a1 [|a2 [|a3 [|a4 [|a5 [|a6 [|a7 [|a8 [|]]]]]]]]]]; try discriminate Hl.
  assert (H8 : (a8 < 9)%nat).
  { rewrite Forall_forall in Hr. apply Hr. simpl. tauto. }
  cbn [nth].
  simpl in Ht.
  destruct Ht as [<- | [<- | [<- | [<- | [<- | [<- | [<- | [<- | [<- | []]]]]]]]]];
    vm_compute in E; injection E as _ _ _ _ _ _ _ _ E8;
    (destruct a8 as [|[|[|[|[|[|[|[|[|a8]]]]]]]]];
     [reflexivity | discriminate E8 .. | lia]).
Qed.

End PaddedTerms.

Lemma rows_with_constant_terms (F : list string -> list nat) (padded : list string)
  (pc : list (list fval)) : forall ps : list (list fval),
  length pc = length ps ->
  let rows := map (fun '(c, s, t) =>
                     let sort_order := F t in
                     (take_along_axis (Num 0) c sort_order,
                      take_along_axis (Num 0) s sort_order,
                      take_along_axis EmptyString t sort_order))
                  (zip3 pc ps (map (fun _ => padded) pc)) in
  map (fun r => fst (fst r)) rows = map (fun c => take_along_axis (Num 0) c (F padded)) pc /\
  map (fun r => snd (fst r)) rows = map (fun s => take_along_axis (Num 0) s (F padded)) ps.
Proof.
  induction pc as [|c pc IH]; intros [|s ps] Hl; simpl in *; try discriminate; auto.
  destruct (IH ps) as [E1 E2]; [lia|].
  simpl in E1, E2. now rewrite E1, E2.
Qed.

Lemma rows_reordered (idx : list nat) (n z : nat) (rows : list (list fval)) :
  is_perm n idx -> nth z idx 0%nat = 0%nat -> (z < n)%nat ->
  Forall (fun r => length r = n) rows ->
  Forall2 (fun r' r => Permutation r' r /\ nth z r' (Num 0) = nth 0 r (Num 0))
          (map (fun r => take_along_axis (Num 0) r idx) rows) rows.
Proof.
  intros Hp Hz Hzn Hrows.
  induction Hrows as [|r rows Hr _ IH]; simpl; constructor; [|exact IH].
  split.
  - apply take_along_axis_perm. now rewrite Hr.
  - unfold take_along_axis.
    rewrite (nth_map_in_range nat fval (fun i => nth i r (Num 0)) 0%nat (Num 0) idx z).
    + now rewrite Hz.
    + now rewrite (is_perm_length _ _ Hp).
Qed.

Section DescribeSingleTerm.

Context {AS : ArgSort} {ASS : ArgSortSpec AS}.

Lemma fixargsort_padded std t :
  (std = terms_one_tensor \/ std = terms_two_tensors) ->
  In t std ->
  let padded := map (fun i => if Nat.ltb i (length [t]) then nth i [t] EmptyString
                              else "--"%string)
                    (seq 0 (length std)) in
  is_perm (length std) (_fixargsort padded std) /\
  nth (if Nat.eqb (length std) 3 then 1 else 4) (_fixargsort padded std) 0%nat = 0%nat.
Proof.
  intros Hstd Ht padded. split.
  - apply _fixargsort_is_perm. unfold padded. now rewrite length_map, length_seq.
  - unfold _fixargsort.
    destruct Hstd as [-> | ->]; subst padded.
    + rewrite argsort_terms_one_tensor. cbn -[argsort].
      pose proof (argsort_padded_one t Ht) as H.
      pose proof (is_perm_length _ _
                    (@argsort_perm AS ASS string String.leb [t; "--"; "--"]%string)) as Hl.
      destruct (argsort String.leb [t; "--"; "--"]%string) as [|a0 [|a1 [|a2 [|]]]];
        try discriminate Hl.
      exact H.
    + rewrite argsort_terms_two_tensors. cbn -[argsort].
      pose proof (argsort_padded_two t Ht) as H.
      pose proof (is_perm_length _ _
                    (@argsort_perm AS ASS string String.leb
                       [t; "--"; "--"; "--"; "--"; "--"; "--"; "--"; "--"]%string)) as Hl.
      destruct (argsort String.leb [t; "--"; "--"; "--"; "--"; "--"; "--"; "--"; "--"]%string)
        as [|a0 [|a1 [|a2 [|a3 [|a4 [|a5 [|a6 [|a7 [|a8 [|]]]]]]]]]]; try discriminate Hl.
      exact H.
Qed.

Lemma classify_terms_ok_inv (A : Type) (a : ndarray A) std :
  classify_terms (Some a) = Ok std ->
  (std = terms_one_tensor \/ std = terms_two_tensors) /\ length std = channels a.
Proof.
  unfold classify_terms.
  destruct (Nat.eqb (channels a) 3) eqn:E3.
  - apply Nat.eqb_eq in E3. simpl. intros [= <-]. split; [now left | now rewrite E3].
  - destruct (Nat.eqb (channels a) 9) eqn:E9; [|discriminate].
    apply Nat.eqb_eq in E9. simpl. intros [= <-]. split; [now right | now rewrite E9].
Qed.

Lemma classify_terms_channels (A B : Type) (a : ndarray A) (b : ndarray B) :
  channels a = channels b -> classify_terms (Some a) = classify_terms (Some b).
Proof. intro H. unfold classify_terms. now rewrite H. Qed.

(** X21.  a group described with a single term.  [describe_groups] fills the
    group's term list up with ["--"], and [summarise] then orders the
    columns by these terms: whatever the term [t] of the group is, the
    group is summarised as arrays in which its first column, the one of
    [t], stands where the standard order has ["Z"] (of three terms, index
    1) or ["ZZ"] (of nine, index 4). *)
Theorem describe_groups_single_term_filed_last counts sums t std
  show_percentages show_means show_ranges :
  classify_terms (Some counts) = Ok std ->
  In t std ->
  same_nd_shape counts sums = true ->
  Forall (fun r => length r = channels counts) (positions counts) ->
  Forall (fun r => length r = channels counts) (positions sums) ->
  exists counts' sums',
    describe_groups [counts] [sums] [[t]] show_percentages show_means show_ranges
    = (summary <- summarise counts' sums' None None show_percentages show_means show_ranges ;;
       Ok ([length (positions counts)], [summary])) /\
    Forall2 (fun r' r => Permutation r' r /\
                         nth (if Nat.eqb (channels counts) 3 then 1 else 4) r' (Num 0)
                         = nth 0 r (Num 0))
            (positions counts') (positions counts) /\
    Forall2 (fun r' r => Permutation r' r /\
                         nth (if Nat.eqb (channels counts) 3 then 1 else 4) r' (Num 0)
                         = nth 0 r (Num 0))
            (positions sums') (positions sums).
Proof.
  intros Hct Ht Hsh Hrc Hrs.
  destruct (classify_terms_ok_inv _ _ _ Hct) as [Hstd Hlen].
  set (padded := map (fun i => if Nat.ltb i (length [t]) then nth i [t] EmptyString
                               else "--"%string) (seq 0 (length std))).
  destruct (fixargsort_padded std t Hstd Ht) as [Hperm Hz]. fold padded in Hperm, Hz.
  set (idx := _fixargsort padded std) in *.
  rewrite Hlen in Hperm, Hz.
  assert (Hzn : ((if Nat.eqb (channels counts) 3 then 1 else 4) < channels counts)%nat).
  { rewrite <- Hlen. destruct Hstd as [-> | ->]; simpl; lia. }
  unfold same_nd_shape in Hsh. apply andb_true_iff in Hsh. destruct Hsh as [Hch Hpl].
  apply Nat.eqb_eq in Hch, Hpl.
  exists (mk_ndarray (channels counts)
            (map (fun c => take_along_axis (Num 0) c idx) (positions counts))).
  exists (mk_ndarray (channels sums)
            (map (fun s => take_along_axis (Num 0) s idx) (positions sums))).
  split; [|split].
  - unfold describe_groups. cbn [zip3 map sequence]. rewrite Hct. cbn [bind].
    fold padded.
    set (P := mk_ndarray (length std) (map (fun _ => padded) (positions counts))).
    assert (F1 : standardize counts sums (Some P) None true
                 = Ok (mk_ndarray (channels counts)
                         (map (fun c => take_along_axis (Num 0) c idx) (positions counts)),
                       mk_ndarray (channels sums)
                         (map (fun s => take_along_axis (Num 0) s idx) (positions sums)),
                       TermsList std)).
    { unfold standardize, _standardize_order, same_nd_shape.
      subst P. cbn [channels positions].
      rewrite <- ?Hch, ?Hlen, ?length_map, <- ?Hpl, ?Nat.eqb_refl. cbn [andb negb].
      rewrite Hct. cbn [bind].
      destruct (rows_with_constant_terms (fun t0 => _fixargsort t0 std) padded
                  (positions counts) (positions sums) Hpl) as [E1 E2].
      cbv zeta in E1, E2. rewrite E1, E2.
      rewrite (classify_terms_channels _ _
                 (mk_ndarray (channels counts)
                    (map (fun c => take_along_axis (Num 0) c (_fixargsort padded std))
                       (positions counts))) counts Logic.eq_refl).
      rewrite Hct. reflexivity. }
    assert (F2 : standardize
                   (mk_ndarray (channels counts)
                      (map (fun c => take_along_axis (Num 0) c idx) (positions counts)))
                   (mk_ndarray (channels sums)
                      (map (fun s => take_along_axis (Num 0) s idx) (positions sums)))
                   None None true
                 = Ok (mk_ndarray (channels counts)
                         (map (fun c => take_along_axis (Num 0) c idx) (positions counts)),
                       mk_ndarray (channels sums)
                         (map (fun s => take_along_axis (Num 0) s idx) (positions sums)),
                       TermsList std)).
    { unfold standardize, same_nd_shape. cbn [channels positions].
      rewrite <- ?Hch, ?length_map, <- ?Hpl, ?Nat.eqb_refl. cbn [andb negb bind].
      rewrite (classify_terms_channels _ _
                 (mk_ndarray (channels counts)
                    (map (fun c => take_along_axis (Num 0) c idx) (positions counts)))
                 counts Logic.eq_refl).
      rewrite Hct. reflexivity. }
    unfold summarise. rewrite F1, F2. cbn [bind].
    match goal with
    | |- bind (bind ?X _) _ = _ => destruct X; reflexivity
    end.
  - cbn [positions]. apply rows_reordered with (n := channels counts); assumption.
  - cbn [positions]. apply rows_reordered with (n := channels counts); assumption.
Qed.

End DescribeSingleTerm.

Lemma describe_groups_single_term_filed_last_witness :
  exists counts' sums',
    @describe_groups stable_argsort
      [mk_ndarray 3 [[Num 3; Num 0; Num 0]; [Num 1; Num 0; Num 0]]]
      [mk_ndarray 3 [[Num (-3); Num 0; Num 0]; [Num (-1); Num 0; Num 0]]]
      [["N"%string]] false false false
    = (summary <- @summarise stable_argsort counts' sums' None None false false false ;;
       Ok ([2%nat], [summary])) /\
    Forall2 (fun r' r => Permutation r' r /\ nth 1 r' (Num 0) = nth 0 r (Num 0))
            (positions counts') [[Num 3; Num 0; Num 0]; [Num 1; Num 0; Num 0]] /\
    Forall2 (fun r' r => Permutation r' r /\ nth 1 r' (Num 0) = nth 0 r (Num 0))
            (positions sums') [[Num (-3); Num 0; Num 0]; [Num (-1); Num 0; Num 0]].
Proof.
  apply (@describe_groups_single_term_filed_last stable_argsort stable_argsort_spec
           (mk_ndarray 3 [[Num 3; Num 0; Num 0]; [Num 1; Num 0; Num 0]])
           (mk_ndarray 3 [[Num (-3); Num 0; Num 0]; [Num (-1); Num 0; Num 0]])
           "N"%string terms_one_tensor false false false).
  - reflexivity.
  - simpl. tauto.
  - reflexivity.
  - repeat constructor.
  - repeat constructor.
Defined.

Lemma zip3_length (A B C : Type) (a : list A) : forall (b : list B) (c : list C),
  length (zip3 a b c) = Nat.min (length a) (Nat.min (length b) (length c)).
Proof.
  induction a as [|x a IH]; intros [|y b] [|z c]; simpl; try reflexivity.
  now rewrite IH.
Qed.

Lemma Forall2_in_l (A B : Type) (R : A -> B -> Prop) l l' a :
  Forall2 R l l' -> In a l -> exists b, In b l' /\ R a b.
Proof.
  induction 1 as [|x y l l' Hxy _ IH]; intros Hin; [contradiction|].
  destruct Hin as [<- | Hin].
  - exists y. split; [now left | exact Hxy].
  - destruct (IH Hin) as (b & Hb & Hr). exists b. split; [now right | exact Hr].
Qed.

Section DescribeShape.

Context {AS : ArgSort}.

(** X22.  what a successful [describe_groups] shows.  ['sizes'] has one
    entry per count group, its number of positions, while ['summaries'] has
    one text per zipped triple, so as many as the shortest of the three
    lists; and every summarised group has three or nine terms and sums of
    the shape of its counts. *)
Theorem describe_groups_sizes_and_summaries count_groups sum_groups term_groups
  show_percentages show_means show_ranges sizes summaries :
  describe_groups count_groups sum_groups term_groups show_percentages show_means show_ranges
  = Ok (sizes, summaries) ->
  sizes = map (fun counts : ndarray fval => length (positions counts)) count_groups /\
  length summaries
  = Nat.min (length count_groups) (Nat.min (length sum_groups) (length term_groups)) /\
  forall counts sums terms,
    In (counts, sums, terms) (zip3 count_groups sum_groups term_groups) ->
    (channels counts = 3%nat \/ channels counts = 9%nat) /\
    same_nd_shape counts sums = true.
Proof.
  unfold describe_groups. intro H.
  match type of H with
  | bind (sequence (map ?F ?L)) _ = _ =>
      destruct (sequence (map F L)) as [r|] eqn:E; [|discriminate H];
      pose proof (sequence_length _ _ _ E) as Hl;
      pose proof (sequence_map_inv _ _ F L r E) as Hall
  end.
  simpl in H. injection H as <- <-.
  split; [reflexivity|]. split.
  - now rewrite Hl, length_map, zip3_length.
  - intros counts sums terms Hin.
    destruct (Forall2_in_l _ _ _ _ _ _ Hall Hin) as (b & _ & Hb).
    cbv beta iota in Hb.
    destruct (classify_terms (Some counts)) as [std|] eqn:Ect; [|discriminate Hb].
    split.
    + unfold classify_terms in Ect.
      destruct (Nat.eqb (channels counts) 3) eqn:E3; [left; now apply Nat.eqb_eq|].
      destruct (Nat.eqb (channels counts) 9) eqn:E9; [right; now apply Nat.eqb_eq|].
      discriminate Ect.
    + cbn [bind] in Hb. unfold summarise, standardize in Hb.
      destruct (same_nd_shape counts sums); [reflexivity | discriminate Hb].
Qed.

End DescribeShape.

Lemma describe_groups_sizes_and_summaries_witness :
  exists sizes summaries,
    @describe_groups stable_argsort
      [mk_ndarray 3 [[Num 3; Num 0; Num 0]; [Num 1; Num 0; Num 0]];
       mk_ndarray 3 [[Num 1; Num 1; Num 1]]]
      [mk_ndarray 3 [[Num (-3); Num 0; Num 0]; [Num (-1); Num 0; Num 0]]]
      [["N"; "P"; "Z"]; ["P"; "Z"; "N"]; ["P"]]%string false false false
    = Ok (sizes, summaries) /\
    sizes = [2; 1]%nat /\ length summaries = 1%nat.
Proof.
  do 2 eexists. split; [reflexivity|].
  destruct (@describe_groups_sizes_and_summaries stable_argsort
              [mk_ndarray 3 [[Num 3; Num 0; Num 0]; [Num 1; Num 0; Num 0]];
               mk_ndarray 3 [[Num 1; Num 1; Num 1]]]
              [mk_ndarray 3 [[Num (-3); Num 0; Num 0]; [Num (-1); Num 0; Num 0]]]
              [["N"; "P"; "Z"]; ["P"; "Z"; "N"]; ["P"]]%string false false false
              _ _ Logic.eq_refl) as (Hs & Hl & _).
  split; [exact Hs | exact Hl].
Defined.
